(** * ocrpdfmpn: part-number validation against PDF text

    A shallow embedding of [ocrpdfmpn.py] and of the library routines it
    calls ([re.search], [re.findall], [re.split], [str.strip],
    [difflib.get_close_matches], [heapq.nlargest]).

    Conventions of the embedding:
    - a Python [str] is a [list ascii]; a character is a code point below
      256 (the Latin-1 block), and the character classes below are the ones
      Python's Unicode database gives for that block;
    - a dict is a [gmap]; the DataFrame is a list of rows addressed by its
      [RangeIndex];
    - the network, the PDF library and the OCR engine are a [World] of
      oracles; every call to them is recorded in a trace of events;
    - an exception is an [inl] result that skips the rest of the function;
    - similarity scores are exact fractions ([Q]) where Python has doubles:
      the two agree on every comparison made here as long as the compared
      strings are shorter than 2^25 characters. *)

From Stdlib Require Import Ascii String List Arith ZArith QArith Lia Bool.
From Stdlib.Strings Require Byte.
From stdpp Require Import base option list sorting gmap gmultiset strings pretty.
Import ListNotations.

Local Open Scope nat_scope.
Local Open Scope list_scope.

(** ** Strings *)

Definition str := list ascii.

(** String literals of the examples. *)
Definition L (s : string) : str := list_ascii_of_string s.

Definition code (c : ascii) : nat := nat_of_ascii c.

Definition newline : ascii := ascii_of_nat 10.

Definition in_range (lo hi : nat) (c : ascii) : bool :=
  (lo <=? code c) && (code c <=? hi).

(** [\w] of a [str] pattern: alphanumeric code points and the underscore. *)
Definition is_word (c : ascii) : bool :=
  in_range 48 57 c || in_range 65 90 c || (code c =? 95) || in_range 97 122 c
  || (code c =? 170) || in_range 178 179 c || (code c =? 181)
  || in_range 185 186 c || in_range 188 190 c || in_range 192 214 c
  || in_range 216 246 c || in_range 248 255 c.

(** [str.isspace] on one character, as used by [str.strip]. *)
Definition is_space (c : ascii) : bool :=
  in_range 9 13 c || in_range 28 32 c || (code c =? 133) || (code c =? 160).

(** Simple lower-case mapping, the folding of [re.IGNORECASE]. *)
Definition lower (c : ascii) : ascii :=
  if in_range 65 90 c || in_range 192 214 c || in_range 216 222 c
  then ascii_of_nat (code c + 32) else c.

(** A pattern character [p] matches a text character [c] under
    [re.IGNORECASE]. *)
Definition ci_eqb (p c : ascii) : bool := code (lower p) =? code (lower c).

(** [sep.join(xs)] *)
Fixpoint join (sep : str) (xs : list str) : str :=
  match xs with
  | [] => []
  | [x] => x
  | x :: rest => x ++ sep ++ join sep rest
  end.

(** [s.lstrip()], [s.rstrip()] and [s.strip()] with the default
    whitespace. *)
Fixpoint lstrip (s : str) : str :=
  match s with
  | c :: s' => if is_space c then lstrip s' else s
  | [] => []
  end.

Definition rstrip (s : str) : str := rev (lstrip (rev s)).

Definition strip (s : str) : str := rstrip (lstrip s).

(** [re.split('[ \n]', s)]: cut at every space and every line feed; empty
    pieces are kept. *)
Definition is_sep (c : ascii) : bool := (code c =? 32) || (code c =? 10).

Fixpoint re_split (s : str) : list str :=
  match s with
  | [] => [[]]
  | c :: s' =>
      if is_sep c then [] :: re_split s'
      else match re_split s' with
           | tok :: toks => (c :: tok) :: toks
           | [] => [[c]]
           end
  end.

(** ** The regular expressions of the program

    The two patterns are built from three kinds of items: an escaped
    character of the part number ([re.escape] makes every character stand
    for itself), [\w*] and [\b]. *)

Inductive re_item : Type :=
  | ReLit (c : ascii)
  | ReWordStar
  | ReBoundary.

Definition regex := list re_item.

Definition re_escape (part : str) : regex := map ReLit part.

Definition word_opt (o : option ascii) : bool :=
  match o with Some c => is_word c | None => false end.

(** [\b] between the character before the position and the one after it
    (absent at the ends of the text). *)
Definition boundary (prev next : option ascii) : bool :=
  negb (Bool.eqb (word_opt prev) (word_opt next)).

(** The backtracking matcher, anchored at the current position.  [prev] is
    the character before the position, [s] the text from it on.  The result
    is the length of the match.  [\w*] is greedy: the longest run is tried
    first and given back one character at a time.  [adv] is the engine's
    [must_advance]: an empty match is refused, and the search backtracks. *)
Fixpoint match_here (rs : regex) (adv : bool) (prev : option ascii) (s : str)
  {struct rs} : option nat :=
  match rs with
  | [] => if adv then None else Some 0
  | ReLit p :: rs' =>
      match s with
      | c :: s' =>
          if ci_eqb p c then S <$> match_here rs' false (Some c) s' else None
      | [] => None
      end
  | ReBoundary :: rs' =>
      if boundary prev (head s) then match_here rs' adv prev s else None
  | ReWordStar :: rs' =>
      (fix star (adv : bool) (prev : option ascii) (s : str) {struct s}
         : option nat :=
         match s with
         | c :: s' =>
             if is_word c then
               match star false (Some c) s' with
               | Some n => Some (S n)
               | None => match_here rs' adv prev s
               end
             else match_here rs' adv prev s
         | [] => match_here rs' adv prev s
         end) adv prev s
  end.

(** [re.search]: the leftmost position with a match; the result is the text
    before the match and the match ([group(0)]). *)
Fixpoint re_search_from (rs : regex) (prev : option ascii) (s : str)
  : option (str * str) :=
  match match_here rs false prev s with
  | Some n => Some ([], take n s)
  | None =>
      match s with
      | c :: s' =>
          match re_search_from rs (Some c) s' with
          | Some (pre, m) => Some (c :: pre, m)
          | None => None
          end
      | [] => None
      end
  end.

Definition re_search (rs : regex) (s : str) : option (str * str) :=
  re_search_from rs None s.

(** [re.findall] for a pattern without groups: the matches of a scan from
    left to right.  A match is looked for at the current position; after a
    match the scan resumes at its end ([skip] counts the characters of the
    match still to pass); after an empty match the same position is tried
    once more with [must_advance] set. *)
Fixpoint re_findall_from (rs : regex) (prev : option ascii) (s : str)
  (skip : nat) {struct s} : list str :=
  match skip with
  | S k =>
      match s with
      | c :: s' => re_findall_from rs (Some c) s' k
      | [] => []
      end
  | 0 =>
      let next (n : nat) : list str :=
        match s with
        | c :: s' => re_findall_from rs (Some c) s' (pred n)
        | [] => []
        end in
      match match_here rs false prev s with
      | Some (S n) => take (S n) s :: next (S n)
      | Some 0 =>
          [] :: match match_here rs true prev s with
                | Some n => take n s :: next n
                | None => next 0
                end
      | None => next 0
      end
  end.

Definition re_findall (rs : regex) (s : str) : list str :=
  re_findall_from rs None s 0.

(** ** difflib

    [SequenceMatcher] as [get_close_matches] uses it: no junk predicate
    ([isjunk] is [None], so the junk set is empty and the two junk-extension
    loops of [find_longest_match] never run), [autojunk] on.  [b] is the
    word looked for (the part number), [a] is a candidate token. *)

(** [__chain_b]: the positions of every character of [b], minus the
    "popular" characters when [b] has 200 characters or more. *)
Definition b2j_add (b2j : gmap ascii (list nat)) (ie : nat * ascii)
  : gmap ascii (list nat) :=
  <[ie.2 := default [] (b2j !! ie.2) ++ [ie.1]]> b2j.

Definition chain_b (b : str) : gmap ascii (list nat) :=
  let b2j := foldl b2j_add ∅ (imap pair b) in
  let n := length b in
  if 200 <=? n then
    let ntest := n / 100 + 1 in
    filter (λ kv : ascii * list nat, length kv.2 ≤ ntest) b2j
  else b2j.

(** The running best block and the lengths of the matches that end at the
    previous position of [a]. *)
Record flm_state : Type := FlmState {
  besti : nat; bestj : nat; bestsize : nat }.

(** The inner loop of [find_longest_match] over the positions [j] of [a[i]]
    in [b]; [continue] below [blo], [break] from [bhi] on. *)
Fixpoint flm_inner (i blo bhi : nat) (j2len : gmap nat nat) (js : list nat)
  (st : flm_state) (newj2len : gmap nat nat) : flm_state * gmap nat nat :=
  match js with
  | [] => (st, newj2len)
  | j :: js' =>
      if j <? blo then flm_inner i blo bhi j2len js' st newj2len
      else if bhi <=? j then (st, newj2len)
      else
        let k := match j with
                 | 0 => 0
                 | S j' => default 0 (j2len !! j')
                 end + 1 in
        let newj2len := <[j := k]> newj2len in
        let st := if bestsize st <? k
                  then FlmState (i + 1 - k) (j + 1 - k) k else st in
        flm_inner i blo bhi j2len js' st newj2len
  end.

Definition flm_outer (a : str) (b2j : gmap ascii (list nat)) (blo bhi : nat)
  (acc : flm_state * gmap nat nat) (i : nat) : flm_state * gmap nat nat :=
  match a !! i with
  | Some c =>
      flm_inner i blo bhi acc.2 (default [] (b2j !! c)) acc.1 ∅
  | None => acc
  end.

(** The first extension loop: grow the block to the left while the
    characters agree. *)
Fixpoint flm_extend_left (a b : str) (alo blo : nat) (bi bj bs : nat)
  {struct bi} : flm_state :=
  match bi, bj with
  | S i', S j' =>
      if (alo <? bi) && (blo <? bj) && bool_decide (a !! i' = b !! j')
      then flm_extend_left a b alo blo i' j' (S bs)
      else FlmState bi bj bs
  | _, _ => FlmState bi bj bs
  end.

(** The second one: grow it to the right; [fuel] is the room left in [a]. *)
Fixpoint flm_extend_right (a b : str) (ahi bhi : nat) (bi bj bs : nat)
  (fuel : nat) : flm_state :=
  match fuel with
  | 0 => FlmState bi bj bs
  | S fuel' =>
      if (bi + bs <? ahi) && (bj + bs <? bhi)
         && bool_decide (a !! (bi + bs) = b !! (bj + bs))
      then flm_extend_right a b ahi bhi bi bj (S bs) fuel'
      else FlmState bi bj bs
  end.

Definition find_longest_match (a b : str) (b2j : gmap ascii (list nat))
  (alo ahi blo bhi : nat) : nat * nat * nat :=
  let st := (foldl (flm_outer a b2j blo bhi)
               (FlmState alo blo 0, ∅) (seq alo (ahi - alo))).1 in
  let st := flm_extend_left a b alo blo (besti st) (bestj st) (bestsize st) in
  let st := flm_extend_right a b ahi bhi (besti st) (bestj st) (bestsize st)
              (ahi - (besti st + bestsize st)) in
  (besti st, bestj st, bestsize st).

(** The work list of [get_matching_blocks]: [queue.pop()] takes the region
    pushed last.  Every turn removes a region and adds at most two that
    together are shorter, so [2 * len(a) + 1] turns empty the queue. *)
Fixpoint gmb_loop (a b : str) (b2j : gmap ascii (list nat)) (fuel : nat)
  (queue : list (nat * nat * nat * nat)) (blocks : list (nat * nat * nat))
  : list (nat * nat * nat) :=
  match fuel, queue with
  | S fuel', (alo, ahi, blo, bhi) :: queue' =>
      let '(i, j, k) := find_longest_match a b b2j alo ahi blo bhi in
      if k =? 0 then gmb_loop a b b2j fuel' queue' blocks
      else
        let q1 := if (alo <? i) && (blo <? j)
                  then (alo, i, blo, j) :: queue' else queue' in
        let q2 := if (i + k <? ahi) && (j + k <? bhi)
                  then (i + k, ahi, j + k, bhi) :: q1 else q1 in
        gmb_loop a b b2j fuel' q2 (blocks ++ [(i, j, k)])
  | _, _ => blocks
  end.

(** Tuples of integers in Python's order. *)
Definition triple_le (x y : nat * nat * nat) : Prop :=
  let '(i1, j1, k1) := x in
  let '(i2, j2, k2) := y in
  i1 < i2 ∨ (i1 = i2 ∧ (j1 < j2 ∨ (j1 = j2 ∧ k1 ≤ k2))).

#[global] Instance triple_le_dec x y : Decision (triple_le x y).
Proof.
  destruct x as [[i1 j1] k1], y as [[i2 j2] k2]; simpl; apply _.
Defined.

(** Adjacent equal blocks are merged into one. *)
Fixpoint gmb_collapse (i1 j1 k1 : nat) (blocks : list (nat * nat * nat))
  : list (nat * nat * nat) :=
  match blocks with
  | [] => if k1 =? 0 then [] else [(i1, j1, k1)]
  | (i2, j2, k2) :: rest =>
      if (i1 + k1 =? i2) && (j1 + k1 =? j2)
      then gmb_collapse i1 j1 (k1 + k2) rest
      else (if k1 =? 0 then [] else [(i1, j1, k1)])
             ++ gmb_collapse i2 j2 k2 rest
  end.

Definition get_matching_blocks (a b : str) : list (nat * nat * nat) :=
  let la := length a in
  let lb := length b in
  let blocks :=
    gmb_loop a b (chain_b b) (2 * la + 1) [(0, la, 0, lb)] [] in
  gmb_collapse 0 0 0 (merge_sort triple_le blocks) ++ [(la, lb, 0)].

(** [_calculate_ratio] *)
Definition calculate_ratio (matches length : nat) : Q :=
  if length =? 0 then 1%Q
  else (Z.of_nat (2 * matches) # Pos.of_nat length)%Q.

Definition ratio (a b : str) : Q :=
  let matches :=
    sum_list_with (λ t : nat * nat * nat, t.2) (get_matching_blocks a b) in
  calculate_ratio matches (length a + length b).

(** [quick_ratio]: how many characters of [a] find a partner in [b],
    counted with the two dictionaries of the source. *)
Definition fullbcount_add (m : gmap ascii Z) (elt : ascii) : gmap ascii Z :=
  <[elt := (default 0 (m !! elt) + 1)%Z]> m.

Definition qr_step (fullbcount : gmap ascii Z) (acc : gmap ascii Z * nat)
  (elt : ascii) : gmap ascii Z * nat :=
  let numb := match acc.1 !! elt with
              | Some n => n
              | None => default 0%Z (fullbcount !! elt)
              end in
  (<[elt := (numb - 1)%Z]> acc.1,
   if (0 <? numb)%Z then acc.2 + 1 else acc.2).

Definition quick_matches (a b : str) : nat :=
  (foldl (qr_step (foldl fullbcount_add ∅ b)) (∅, 0) a).2.

Definition quick_ratio (a b : str) : Q :=
  calculate_ratio (quick_matches a b) (length a + length b).

Definition real_quick_ratio (a b : str) : Q :=
  calculate_ratio (min (length a) (length b)) (length a + length b).

(** [str] comparison: by code point, a proper prefix is smaller. *)
Fixpoint str_ltb (s t : str) : bool :=
  match s, t with
  | _, [] => false
  | [], _ :: _ => true
  | c :: s', d :: t' =>
      if code c <? code d then true
      else if code d <? code c then false
      else str_ltb s' t'
  end.

(** [(score1, x1) > (score2, x2)] on tuples: the first components that
    differ decide. *)
Definition scored_gt (x y : Q * str) : bool :=
  if Qeq_bool x.1 y.1 then str_ltb y.2 x.2 else negb (Qle_bool x.1 y.1).

(** [max(iterable)]: the running maximum is replaced only by a strictly
    greater item. *)
Definition py_max (items : list (Q * str)) : option (Q * str) :=
  match items with
  | [] => None
  | x :: rest => Some (foldl (λ best it, if scored_gt it best then it else best)
                         x rest)
  end.

(** [heapq.nlargest(1, result)] *)
Definition nlargest1 (result : list (Q * str)) : list (Q * str) :=
  match py_max result with
  | Some r => [r]
  | None => []
  end.

Definition passes (cutoff : Q) (word x : str) : bool :=
  Qle_bool cutoff (real_quick_ratio x word)
  && Qle_bool cutoff (quick_ratio x word)
  && Qle_bool cutoff (ratio x word).

(** [get_close_matches(word, possibilities, n=1, cutoff=cutoff)] *)
Definition get_close_matches (word : str) (possibilities : list str)
  (cutoff : Q) : list str :=
  let result :=
    omap (λ x, if passes cutoff word x then Some (ratio x word, x) else None)
      possibilities in
  snd <$> nlargest1 result.

(** ** The outside world

    [requests], [fitz] (PyMuPDF) and [easyocr] are oracles: what they answer
    is fixed by the world, and every call is recorded as an event. *)

Definition bytes := list Byte.byte.

#[global] Instance byte_eq_dec : EqDecision Byte.byte := Byte.byte_eq_dec.

Inductive exception : Type := Exception (text : str).

Definition exn_text (e : exception) : str :=
  match e with Exception t => t end.

Record response : Type := Response {
  status_code : nat;
  reason : str;
  resp_url : str;
  content : bytes }.

Record World : Type := {
  (** [requests.get(url, timeout=t)]: a response, or a transport error *)
  requests_get : str → option nat → exception + response;
  (** [fitz.open(stream=byt, filetype='pdf')] and [page.get_text()] of each
      page in turn *)
  fitz_page_texts : bytes → exception + list str;
  (** [easyocr.Reader(['en'])] raises or builds a reader *)
  easyocr_Reader : option exception;
  (** the body of the [try] of [ocr_text_from_pdf] up to the recognised
      fragments [result[1]] of each page *)
  ocr_page_fragments : bytes → exception + list (list str) }.

Inductive event : Type :=
  | EvGet (url : str) (timeout : option nat)
  | EvExtract (pdf : str) (stream : bytes)
  | EvOcr (pdf_bytes : bytes)
  | EvPrint (msg : str).

#[global] Instance event_eq_dec : EqDecision event.
Proof. solve_decision. Defined.

(** A computation over a mutable state [S] (the object it updates in
    place) that logs events and either raises or returns.  The state
    reached when an exception is raised is kept. *)
Definition io (S A : Type) : Type := S → list event * S * (exception + A).

Definition io_ret {S A} (x : A) : io S A := λ s, ([], s, inr x).

Definition io_raise {S A} (e : exception) : io S A := λ s, ([], s, inl e).

Definition io_bind {S A B} (m : io S A) (f : A → io S B) : io S B :=
  λ s,
    let r1 := m s in
    match r1.2 with
    | inl e => (r1.1.1, r1.1.2, inl e)
    | inr x => let r2 := f x r1.1.2 in (r1.1.1 ++ r2.1.1, r2.1.2, r2.2)
    end.

Definition io_emit {S} (ev : event) : io S unit := λ s, ([ev], s, inr tt).

Definition io_lift {S A} (r : exception + A) : io S A := λ s, ([], s, r).

Definition io_get {S} : io S S := λ s, ([], s, inr s).

Definition io_modify {S} (f : S → S) : io S unit := λ s, ([], f s, inr tt).

(** [try: body except Exception as e: handler(e)] *)
Definition io_try {S A} (body : io S A) (handler : exception → io S A)
  : io S A :=
  λ s,
    let r1 := body s in
    match r1.2 with
    | inl e =>
        let r2 := handler e r1.1.2 in (r1.1.1 ++ r2.1.1, r2.1.2, r2.2)
    | inr x => r1
    end.

Notation "'let*' x := m 'in' k" := (io_bind m (λ x, k))
  (at level 10, x name, m at level 100, k at level 200, only parsing).
Notation "'run' m 'then' k" := (io_bind m (λ _, k))
  (at level 10, m at level 100, k at level 200, only parsing).

Definition print {S} (msg : str) : io S unit := io_emit (EvPrint msg).

Definition str_of_nat (n : nat) : str := L (pretty n).

(** [response.raise_for_status()]: an [HTTPError] for a 4xx or 5xx status. *)
Definition raise_for_status {S} (r : response) : io S unit :=
  let msg kind :=
    str_of_nat (status_code r) ++ L kind ++ reason r
      ++ L " for url: " ++ resp_url r in
  if (400 <=? status_code r) && (status_code r <? 500)
  then io_raise (Exception (msg " Client Error: "))
  else if (500 <=? status_code r) && (status_code r <? 600)
  then io_raise (Exception (msg " Server Error: "))
  else io_ret tt.

(** [executor.map(f, xs)] consumed as a list: the results in the order of
    [xs].  The calls run on worker threads; the trace lists their events in
    the order of submission. *)
Fixpoint io_map {S A B} (f : A → io S B) (xs : list A) : io S (list B) :=
  match xs with
  | [] => io_ret []
  | x :: xs' =>
      let* y := f x in let* ys := io_map f xs' in io_ret (y :: ys)
  end.

(** A [for] loop. *)
Fixpoint io_for {S A} (xs : list A) (body : A → io S unit) : io S unit :=
  match xs with
  | [] => io_ret tt
  | x :: xs' => run body x then io_for xs' body
  end.

(** ** The program *)

(** [clean_string]: drop the control characters [\x00-\x1F] and [\x7F]. *)
Definition clean_string (s : str) : str :=
  filter (λ c, ¬ (code c ≤ 31 ∨ code c = 127)) s.

(** [GetPDFResponse] *)
Definition GetPDFResponse {S} (w : World) (pdf : str)
  : io S (str * option bytes) :=
  io_try
    (run io_emit (EvGet pdf (Some 10)) then
     let* response := io_lift (requests_get w pdf (Some 10)) in
     run raise_for_status response then
     io_ret (pdf, Some (content response)))
    (λ e,
       run print (L "Error fetching PDF " ++ pdf ++ L ": " ++ exn_text e) then
       io_ret (pdf, None)).

(** [[pdfs[i:i + 100] for i in range(0, len(pdfs), 100)]] *)
Definition chunks_of (pdfs : list str) : list (list str) :=
  (λ q, take 100 (drop (q * 100) pdfs)) <$> seq 0 ((length pdfs + 99) / 100).

(** The body of the loop of [GetPDFText] over the results of a chunk; the
    state is the dict [pdfData]. *)
Definition GetPDFText_result (w : World) (r : str * option bytes)
  : io (gmap str str) unit :=
  match r.2 with
  | Some byt =>
      io_try
        (run io_emit (EvExtract r.1 byt) then
         let* pages := io_lift (fitz_page_texts w byt) in
         io_modify (λ pdfData, <[r.1 := join [newline] pages]> pdfData))
        (λ e,
           print (L "Error reading PDF " ++ r.1 ++ L ": " ++ exn_text e))
  | None => io_ret tt
  end.

Definition GetPDFText_loop (w : World) (pdfs : list str)
  : io (gmap str str) unit :=
  io_for (chunks_of pdfs)
    (λ chunk,
       let* results := io_map (GetPDFResponse w) chunk in
       io_for results (GetPDFText_result w)).

(** [GetPDFText]: the loop runs on a fresh dict, which is returned. *)
Definition GetPDFText {S} (w : World) (pdfs : list str)
  : io S (gmap str str) :=
  λ s,
    let r := GetPDFText_loop w pdfs ∅ in
    (r.1.1, s, match r.2 with inl e => inl e | inr _ => inr r.1.2 end).

(** [ocr_text_from_pdf] *)
Definition ocr_text_from_pdf {S} (w : World) (pdf_bytes : bytes) : io S str :=
  run io_emit (EvOcr pdf_bytes) then
  match easyocr_Reader w with
  | Some e => io_raise e
  | None =>
      io_try
        (let* pages := io_lift (ocr_page_fragments w pdf_bytes) in
         let full_text :=
           foldl (λ full_text results,
                    full_text ++ join (L " ") results ++ [newline])
             [] pages in
         io_ret (strip full_text))
        (λ e,
           run print (L "Error with OCR processing: " ++ exn_text e) then
           io_ret [])
  end.

(** The DataFrame: one row per line of the sheet, addressed by position.
    The cells of the two input columns are strings, and an assignment
    [data[col][index] = v] writes the cell of the table. *)
Record Row : Type := MkRow {
  MPN : str;
  PDF : str;
  STATUS : option str;
  EQUIVALENT : option str;
  SIMILARS : option str }.

Abbreviation table := (list Row).

Definition with_STATUS (v : option str) (r : Row) : Row :=
  MkRow (MPN r) (PDF r) v (EQUIVALENT r) (SIMILARS r).
Definition with_EQUIVALENT (v : option str) (r : Row) : Row :=
  MkRow (MPN r) (PDF r) (STATUS r) v (SIMILARS r).
Definition with_SIMILARS (v : option str) (r : Row) : Row :=
  MkRow (MPN r) (PDF r) (STATUS r) (EQUIVALENT r) v.

(** [data[col][index]] *)
Definition read_cell (col : Row → str) (index : nat) : io table str :=
  let* data := io_get in
  match data !! index with
  | Some r => io_ret (col r)
  | None => io_raise (Exception (L "KeyError"))
  end.

(** [data[col][index] = v] for the three result columns. *)
Definition set_cell (upd : option str → Row → Row) (index : nat) (v : str)
  : io table unit :=
  let* data := io_get in
  match data !! index with
  | Some r => io_modify (λ data, <[index := upd (Some v) r]> data)
  | None => io_raise (Exception (L "KeyError"))
  end.

(** The order in which the interpreter iterates over a set of strings that
    was filled in a given order.  It depends on the hash seed of the
    process; all that is known is that every member comes once. *)
Record set_order : Type := SetOrder {
  set_iter : list str → list str;
  set_iter_NoDup : ∀ l, NoDup (set_iter l);
  set_iter_elem : ∀ l x, x ∈ set_iter l ↔ x ∈ l }.

(** [r'\b\w*' + re.escape(part) + r'\w*\b'] *)
Definition similar_pattern (part : str) : regex :=
  [ReBoundary; ReWordStar] ++ re_escape part ++ [ReWordStar; ReBoundary].

Definition cutoff : Q := 65 # 100.

Definition Exact : str := L "Exact".
Definition Includes_or_Missed_Suffixes : str := L "Includes or Missed Suffixes".
Definition Not_Found : str := L "Not Found".
Definition May_be_Broken : str := L "May be Broken".

(** [SET_DESC], the OCR fallback: the text the checks run on. *)
Definition SET_DESC_values {S} (w : World) (pdf_url values : str) : io S str :=
  if length values <=? 100 then
    run io_emit (EvGet pdf_url None) then
    let* resp := io_lift (requests_get w pdf_url None) in
    let pdf_bytes := content resp in
    let* extracted_text := ocr_text_from_pdf w pdf_bytes in
    io_ret extracted_text
  else io_ret values.

(** [SET_DESC], the checks on the text. *)
Definition SET_DESC_checks (so : set_order) (part values : str) (index : nat)
  : io table unit :=
  match re_search (re_escape part) values with
  | Some exact =>
      run set_cell with_STATUS index Exact then
      run set_cell with_EQUIVALENT index exact.2 then
      let semi_regex := strip <$> re_findall (similar_pattern part) values in
      match semi_regex with
      | _ :: _ =>
          set_cell with_SIMILARS index (join (L "|") (set_iter so semi_regex))
      | [] => io_ret tt
      end
  | None =>
      let dlb_match := get_close_matches part (re_split values) cutoff in
      match dlb_match with
      | pdf_part :: _ =>
          run set_cell with_STATUS index Includes_or_Missed_Suffixes then
          set_cell with_EQUIVALENT index pdf_part
      | [] => set_cell with_STATUS index Not_Found
      end
  end.

(** [SET_DESC] *)
Definition SET_DESC (w : World) (so : set_order) (pdf_data : gmap str str)
  (part_col pdf_col : Row → str) (index : nat) : io table unit :=
  let* part := read_cell part_col index in
  let* pdf_url := read_cell pdf_col index in
  match pdf_data !! pdf_url with
  | None => set_cell with_STATUS index May_be_Broken
  | Some values =>
      let* values := SET_DESC_values w pdf_url values in
      SET_DESC_checks so part values index
  end.

(** A task handed to the executor whose result is never asked for: an
    exception it raises stays in its future. *)
Definition io_submit {S} (task : io S unit) : io S unit :=
  λ s, let r := task s in (r.1.1, r.1.2, inr tt).

(** [PN_Validation_New].  The tasks run on worker threads; each one reads
    [pdf_data] and writes the cells of its own row only, so they are run
    here one after the other in the order of the index. *)
Definition PN_Validation_New (w : World) (so : set_order)
  (pdf_data : gmap str str) (part_col pdf_col : Row → str) : io table table :=
  run io_modify (fmap (with_STATUS None)) then
  run io_modify (fmap (with_EQUIVALENT None)) then
  run io_modify (fmap (with_SIMILARS None)) then
  let* data := io_get in
  run io_for (seq 0 (length data))
        (λ index, io_submit (SET_DESC w so pdf_data part_col pdf_col index)) then
  io_get.

(** [main], from the uploaded sheet to the cleaned result. *)
Definition main_validate (w : World) (so : set_order) : io table table :=
  let* data := io_get in
  let pdfs := PDF <$> data in
  let* pdf_data := GetPDFText w pdfs in
  let* result_data := PN_Validation_New w so pdf_data MPN PDF in
  run io_modify (fmap (λ r,
        MkRow (clean_string (MPN r)) (clean_string (PDF r))
          (clean_string <$> STATUS r) (clean_string <$> EQUIVALENT r)
          (clean_string <$> SIMILARS r))) then
  io_get.



(** ** Vocabulary of the properties *)

(** [m] is [part] up to case, character by character. *)
Definition ci_eq (part m : str) : Prop :=
  Forall2 (λ p c, ci_eqb p c = true) part m.

(** [part] occurs in [values] under case-insensitive comparison. *)
Definition occurs_ci (part values : str) : Prop :=
  ∃ pre m post, values = pre ++ m ++ post ∧ ci_eq part m.

(** The text the checks of a request run on: the location has the entry
    [text] in the extraction map and the OCR fallback, where it is taken,
    hands on [values]; [tr] is what the fallback does on the way. *)
Definition resolves_to (w : World) (pdf_data : gmap str str) (pdf_url : str)
  (tr : list event) (values : str) : Prop :=
  ∃ text, pdf_data !! pdf_url = Some text
          ∧ SET_DESC_values w pdf_url text () = (tr, (), inr values).

(** The character before a position: the last one of the text passed, or
    the one before that text. *)
Definition last_or (prev : option ascii) (t : str) : option ascii :=
  match last t with
  | Some c => Some c
  | None => prev
  end.

Definition exact_similars (so : set_order) (part values : str)
  (old : option str) : option str :=
  match strip <$> re_findall (similar_pattern part) values with
  | [] => old
  | l => Some (join (L "|") (set_iter so l))
  end.

(** What the checks leave in the row of a request. *)
Definition checks_row (so : set_order) (part values : str) (r : Row) : Row :=
  match re_search (re_escape part) values with
  | Some exact =>
      MkRow (MPN r) (PDF r) (Some Exact) (Some exact.2)
        (exact_similars so part values (SIMILARS r))
  | None =>
      match get_close_matches part (re_split values) cutoff with
      | t :: _ =>
          MkRow (MPN r) (PDF r) (Some Includes_or_Missed_Suffixes) (Some t)
            (SIMILARS r)
      | [] => with_STATUS (Some Not_Found) r
      end
  end.

(** What [SET_DESC] does for a row: its trace, the row it leaves, and the
    exception it ends with, if any. *)
Definition SET_DESC_row (w : World) (so : set_order) (pdf_data : gmap str str)
  (part_col pdf_col : Row → str) (r : Row)
  : list event * Row * (exception + unit) :=
  match pdf_data !! pdf_col r with
  | None => ([], with_STATUS (Some May_be_Broken) r, inr ())
  | Some text =>
      let v := SET_DESC_values w (pdf_col r) text () in
      match v.2 with
      | inl e => (v.1.1, r, inl e)
      | inr values => (v.1.1, checks_row so (part_col r) values r, inr ())
      end
  end.

(** The rows as [PN_Validation_New] resets them. *)
Definition reset_row (r : Row) : Row := MkRow (MPN r) (PDF r) None None None.

(** Worlds and inputs of the examples. *)
Definition w_down : World := {|
  requests_get := λ _ _, inl (Exception (L "ConnectionError"));
  fitz_page_texts := λ _, inl (Exception (L "FileDataError"));
  easyocr_Reader := None;
  ocr_page_fragments := λ _, inl (Exception (L "FileDataError")) |}.

Definition w_scan (fragments : list str) : World := {|
  requests_get := λ url _, inr (Response 200 (L "OK") url []);
  fitz_page_texts := λ _, inr [[]];
  easyocr_Reader := None;
  ocr_page_fragments := λ _, inr [fragments] |}.

(** Two iteration orders: the members by their last occurrence in the text,
    and by their first one from the end. *)
Definition so_scan : set_order :=
  SetOrder remove_dups NoDup_remove_dups elem_of_remove_dups.

Definition so_back : set_order :=
  SetOrder (λ l, remove_dups (reverse l))
    (λ l, NoDup_remove_dups (reverse l))
    (λ l x, iff_trans (elem_of_remove_dups (reverse l) x) (elem_of_reverse x l)).

Definition url1 : str := L "http://x/a.pdf".
Definition scanned : gmap str str := {[ url1 := L "" ]}.
Definition row1 (part : string) : Row := MkRow (L part) url1 None None None.

(** Counting in a trace. *)
Definition is_get (u : str) (ev : event) : bool :=
  match ev with EvGet p _ => bool_decide (p = u) | _ => false end.

Definition is_extract (u : str) (ev : event) : bool :=
  match ev with EvExtract p _ => bool_decide (p = u) | _ => false end.

Definition count_events (P : event → bool) (tr : list event) : nat :=
  length (List.filter P tr).

(** The rows of the sheet that refer to a location. *)
Definition references (u : str) (pdfs : list str) : nat :=
  length (filter (λ p, p = u) pdfs).

(** What [GetPDFResponse] hands back for a location. *)
Definition fetched (w : World) (pdf : str) : option bytes :=
  match requests_get w pdf (Some 10) with
  | inr resp =>
      if (400 <=? status_code resp) && (status_code resp <? 600)
      then None else Some (content resp)
  | inl _ => None
  end.

(** What a pattern matches, read off the items: [re_matches rs prev t rest]
    when [rs] matches the text [t] that comes after the character [prev]
    and before [rest]. *)
Inductive re_matches : regex → option ascii → str → str → Prop :=
  | rm_nil prev rest : re_matches [] prev [] rest
  | rm_lit p c rs prev t rest :
      ci_eqb p c = true →
      re_matches rs (Some c) t rest →
      re_matches (ReLit p :: rs) prev (c :: t) rest
  | rm_star w rs prev t rest :
      Forall (λ c, is_word c = true) w →
      re_matches rs (last_or prev w) t rest →
      re_matches (ReWordStar :: rs) prev (w ++ t) rest
  | rm_boundary rs prev t rest :
      boundary prev (head (t ++ rest)) = true →
      re_matches rs prev t rest →
      re_matches (ReBoundary :: rs) prev t rest.

(** A stretch [t] of the text [values] that is delimited by word
    boundaries and is the part number, up to case, with word characters
    around it. *)
Definition whole_token (part values t : str) : Prop :=
  ∃ pre post w1 m w2,
    values = pre ++ t ++ post
    ∧ t = w1 ++ m ++ w2
    ∧ Forall (λ c, is_word c = true) w1
    ∧ ci_eq part m
    ∧ Forall (λ c, is_word c = true) w2
    ∧ boundary (last pre) (head (t ++ post)) = true
    ∧ boundary (last (pre ++ t)) (head post) = true.

(** [x] is not greater than [y] as a [(score, token)] tuple. *)
Definition scored_le (x y : Q * str) : Prop :=
  (x.1 < y.1)%Q ∨ ((x.1 == y.1)%Q ∧ str_ltb y.2 x.2 = false).

(** The characters of a string as a multiset. *)
Definition chars (s : str) : gmultiset ascii := list_to_set_disj s.

(** What is left of [b] for a character while [quick_ratio] runs. *)
Definition qr_left (fullbcount avail : gmap ascii Z) (c : ascii) : Z :=
  match avail !! c with
  | Some n => n
  | None => default 0%Z (fullbcount !! c)
  end.

(** [(i, j, k)] is a block of the region: [a[i:i+k] == b[j:j+k]] inside
    [a[alo:ahi]] and [b[blo:bhi]]. *)
Definition valid_block (a b : str) (alo ahi blo bhi : nat)
  (blk : nat * nat * nat) : Prop :=
  alo ≤ blk.1.1 ∧ blk.1.1 + blk.2 ≤ ahi
  ∧ blo ≤ blk.1.2 ∧ blk.1.2 + blk.2 ≤ bhi
  ∧ ∀ d, d < blk.2 → a !! (blk.1.1 + d) = b !! (blk.1.2 + d).

(** A block of length [k] that ends before [a[ei]] and [b[ej]]. *)
Definition block_ends (a b : str) (alo blo : nat) (ei ej k : nat) : Prop :=
  alo + k ≤ ei ∧ blo + k ≤ ej
  ∧ ∀ d, d < k → a !! (ei - k + d) = b !! (ej - k + d).

Definition valid_region (a b : str) (alo ahi blo bhi : nat) : Prop :=
  alo ≤ ahi ∧ ahi ≤ length a ∧ blo ≤ bhi ∧ bhi ≤ length b.

(** The invariant of the two loops: the best block so far is a block of the
    region, and every length recorded for the row ends a block there. *)
Definition flm_inv (a b : str) (alo ahi blo bhi : nat) (ei : nat)
  (st : flm_state) (j2len : gmap nat nat) : Prop :=
  valid_block a b alo ahi blo bhi (besti st, bestj st, bestsize st)
  ∧ ∀ j k, j2len !! j = Some k →
      j < bhi ∧ block_ends a b alo blo ei (j + 1) k.

(** [l[lo:hi]] *)
Definition slice (l : str) (lo hi : nat) : str := take (hi - lo) (drop lo l).

(** What the two parts of a region have in common, as multisets. *)
Definition common (a b : str) (r : nat * nat * nat * nat) : nat :=
  size (chars (slice a r.1.1.1 r.1.1.2) ∩ chars (slice b r.1.2 r.2)).

Definition region_ok (a b : str) (r : nat * nat * nat * nat) : Prop :=
  valid_region a b r.1.1.1 r.1.1.2 r.1.2 r.2.

Definition sizes (blocks : list (nat * nat * nat)) : nat :=
  sum_list_with (λ t : nat * nat * nat, t.2) blocks.

(** The turns the work list of [get_matching_blocks] can still take. *)
Definition turns (queue : list (nat * nat * nat * nat)) : nat :=
  sum_list_with (λ r : nat * nat * nat * nat, 2 * (r.1.1.2 - r.1.1.1) + 1)
    queue.

(** The best match as the specification words it: the highest-scoring
    token with a ratio of at least 0.65, the first one in scan order among
    equals. *)
Definition first_occurrence_best (part : str) (tokens : list str)
  : option str :=
  foldl (λ best x,
           if Qle_bool cutoff (ratio x part) then
             match best with
             | None => Some x
             | Some t =>
                 if Qle_bool (ratio x part) (ratio t part)
                 then Some t else Some x
             end
           else best)
    None tokens.

Definition space : ascii := ascii_of_nat 32.

(** The text [GetPDFText] records for a location: the pages of the PDF
    joined by line feeds, when the location is fetched and the PDF opens. *)
Definition extracted (w : World) (pdf : str) : option str :=
  match fetched w pdf with
  | Some byt =>
      match fitz_page_texts w byt with
      | inr pages => Some (join [newline] pages)
      | inl _ => None
      end
  | None => None
  end.

(** The cells of a row after [clean_string]. *)
Definition clean_row (r : Row) : Row :=
  MkRow (clean_string (MPN r)) (clean_string (PDF r))
    (clean_string <$> STATUS r) (clean_string <$> EQUIVALENT r)
    (clean_string <$> SIMILARS r).

(** No control character is left in a text. *)
Definition printable (s : str) : Prop :=
  ∀ c, c ∈ s → 31 < code c ∧ code c ≠ 127.

(** More worlds and inputs of the examples: documents that are fetched but
    cannot be read by the OCR engine; documents that carry one page of
    digital text; documents with one empty page that can be fetched within
    a time limit only. *)
Definition w_unreadable : World := {|
  requests_get := λ url _, inr (Response 200 (L "OK") url []);
  fitz_page_texts := λ _, inr [[]];
  easyocr_Reader := None;
  ocr_page_fragments := λ _, inl (Exception (L "FileDataError")) |}.

Definition w_digital (page : str) : World := {|
  requests_get := λ url _, inr (Response 200 (L "OK") url []);
  fitz_page_texts := λ _, inr [page];
  easyocr_Reader := None;
  ocr_page_fragments := λ _, inr [] |}.


Definition datasheet : str :=
  L "Order code ABC-123" ++ [ascii_of_nat 9] ++ L "rev. 2"
    ++ replicate 100 "."%char.

(** * Properties *)

(** ** The effect monad on the cells of a row *)

Lemma read_cell_run (col : Row → str) (index : nat) (data : table) (r : Row) :
  data !! index = Some r →
  read_cell col index data = ([], data, inr (col r)).
Proof.
  intros Hr. unfold read_cell, io_bind, io_get. simpl. rewrite Hr. reflexivity.
Qed.

Lemma set_cell_run upd (index : nat) (v : str) (data : table) (r : Row) :
  data !! index = Some r →
  set_cell upd index v data = ([], <[index := upd (Some v) r]> data, inr ()).
Proof.
  intros Hr. unfold set_cell, io_bind, io_get. simpl. rewrite Hr. reflexivity.
Qed.

Lemma lookup_insert_row (data : table) (index : nat) (r r' : Row) :
  data !! index = Some r → <[index := r']> data !! index = Some r'.
Proof.
  intros Hr. apply list_lookup_insert_eq. eapply lookup_lt_Some, Hr.
Qed.

(** The fallback does not look at the table. *)
Lemma ocr_text_from_pdf_state {S} (w : World) (b : bytes) (s : S) :
  ocr_text_from_pdf w b s =
  ((ocr_text_from_pdf w b ()).1.1, s, (ocr_text_from_pdf w b ()).2).
Proof.
  unfold ocr_text_from_pdf, io_bind, io_emit, io_try, io_lift, io_raise,
    io_ret, print. simpl.
  destruct (easyocr_Reader w); simpl; [reflexivity|].
  destruct (ocr_page_fragments w b); reflexivity.
Qed.

Lemma SET_DESC_values_state {S} (w : World) (pdf_url text : str) (s : S) :
  SET_DESC_values w pdf_url text s =
  ((SET_DESC_values w pdf_url text ()).1.1, s,
   (SET_DESC_values w pdf_url text ()).2).
Proof.
  unfold SET_DESC_values.
  destruct (length text <=? 100); [|reflexivity].
  unfold io_bind at 1 2 3. unfold io_emit, io_lift. cbn [fst snd].
  destruct (requests_get w pdf_url None) as [e|resp]; [reflexivity|].
  unfold io_bind. cbn [fst snd].
  rewrite (ocr_text_from_pdf_state w (content resp) s). cbn [fst snd].
  destruct (ocr_text_from_pdf w (content resp) ()) as [[tr []] [e|x]];
    reflexivity.
Qed.

(** A request with a resolved text: [SET_DESC] is the trace of the
    fallback followed by the checks on that text. *)
Lemma SET_DESC_resolved (w : World) (so : set_order) (pdf_data : gmap str str)
  (part_col pdf_col : Row → str) (index : nat) (data : table) (row : Row)
  (tr : list event) (values : str) :
  data !! index = Some row →
  resolves_to w pdf_data (pdf_col row) tr values →
  SET_DESC w so pdf_data part_col pdf_col index data =
  (tr ++ (SET_DESC_checks so (part_col row) values index data).1.1,
   (SET_DESC_checks so (part_col row) values index data).1.2,
   (SET_DESC_checks so (part_col row) values index data).2).
Proof.
  intros Hrow (text & Htext & Hres).
  unfold SET_DESC, io_bind.
  rewrite (read_cell_run part_col _ _ _ Hrow). cbn [fst snd].
  rewrite (read_cell_run pdf_col _ _ _ Hrow). cbn [fst snd].
  rewrite Htext, SET_DESC_values_state, Hres. reflexivity.
Qed.

(** ** Literal patterns *)

Lemma ci_eq_length (part m : str) : ci_eq part m → length part = length m.
Proof. apply Forall2_length. Qed.

Lemma match_lit_Some (part : str) adv prev (s : str) (n : nat) :
  match_here (re_escape part) adv prev s = Some n →
  n = length part ∧ ci_eq part (take n s).
Proof.
  revert adv prev s n. induction part as [|p part IH]; intros adv prev s n; simpl.
  - destruct adv; [discriminate|]. intros [= <-]. split; [reflexivity|].
    rewrite take_0. constructor.
  - destruct s as [|c s]; [discriminate|].
    destruct (ci_eqb p c) eqn:Hpc; [|discriminate].
    destruct (match_here (re_escape part) false (Some c) s) as [k|] eqn:Hk;
      [|discriminate].
    intros [= <-]. destruct (IH _ _ _ _ Hk) as [-> Hci].
    split; [reflexivity|]. simpl. constructor; assumption.
Qed.

Lemma match_lit_complete (part : str) prev (m post : str) :
  ci_eq part m →
  match_here (re_escape part) false prev (m ++ post) = Some (length part).
Proof.
  intros H. revert prev. induction H as [|p c part m Hpc _ IH]; intros prev.
  - reflexivity.
  - simpl. rewrite Hpc, IH. reflexivity.
Qed.

Lemma re_search_lit_Some (part : str) prev (s pre m : str) :
  re_search_from (re_escape part) prev s = Some (pre, m) →
  ∃ post, s = pre ++ m ++ post ∧ ci_eq part m
    ∧ ∀ pre' m' post', s = pre' ++ m' ++ post' → ci_eq part m' →
        length pre ≤ length pre'.
Proof.
  revert prev pre m. induction s as [|c s IH]; intros prev pre m.
  - simpl. destruct (match_here _ _ _ _) as [n|] eqn:Hn; [|discriminate].
    intros [= <- <-]. apply match_lit_Some in Hn as [-> Hci].
    exists []. rewrite take_nil in *. repeat split; [assumption|].
    intros; simpl; lia.
  - cbn [re_search_from].
    destruct (match_here _ _ _ _) as [n|] eqn:Hn.
    + intros [= <- <-]. apply match_lit_Some in Hn as [-> Hci].
      exists (drop (length part) (c :: s)). rewrite app_nil_l, take_drop.
      repeat split; [assumption|]. intros; simpl; lia.
    + destruct (re_search_from _ _ s) as [[pre0 m0]|] eqn:Hs; [|discriminate].
      intros [= <- <-]. destruct (IH _ _ _ Hs) as (post & -> & Hci & Hleft).
      exists post. repeat split; [assumption|].
      intros [|c' pre'] m' post' Heq Hci'.
      * simpl in Heq. rewrite Heq in Hn.
        rewrite (match_lit_complete _ _ _ _ Hci') in Hn. discriminate.
      * simpl in Heq. injection Heq as _ Heq. simpl.
        specialize (Hleft _ _ _ Heq Hci'). lia.
Qed.

Lemma re_search_lit_None (part : str) prev (s : str) :
  re_search_from (re_escape part) prev s = None → ¬ occurs_ci part s.
Proof.
  revert prev. induction s as [|c s IH]; intros prev; cbn [re_search_from];
    destruct (match_here _ _ _ _) as [n|] eqn:Hn; try discriminate;
    intros Hs ([|c' pre] & m & post & Heq & Hci).
  - simpl in Heq. rewrite Heq, (match_lit_complete _ _ _ _ Hci) in Hn.
    discriminate.
  - discriminate.
  - simpl in Heq. rewrite Heq, (match_lit_complete _ _ _ _ Hci) in Hn.
    discriminate.
  - destruct (re_search_from _ _ s) as [[??]|] eqn:Hs'; [discriminate|].
    simpl in Heq. injection Heq as _ Heq.
    apply (IH _ Hs'). exists pre, m, post. auto.
Qed.

Lemma re_search_lit_occurs (part values : str) :
  occurs_ci part values →
  ∃ pre m, re_search (re_escape part) values = Some (pre, m).
Proof.
  intros Hocc. unfold re_search.
  destruct (re_search_from _ None values) as [[pre m]|] eqn:Hs; [eauto|].
  destruct (re_search_lit_None _ _ _ Hs Hocc).
Qed.

(** ** The checks on a text *)

Lemma checks_exact so (part values : str) (index : nat) (data : table)
  (row : Row) (pre m : str) :
  data !! index = Some row →
  re_search (re_escape part) values = Some (pre, m) →
  SET_DESC_checks so part values index data =
  ([], <[index := MkRow (MPN row) (PDF row) (Some Exact) (Some m)
                    (exact_similars so part values (SIMILARS row))]> data,
   inr ()).
Proof.
  intros Hrow Hs. unfold SET_DESC_checks, exact_similars. rewrite Hs.
  unfold io_bind.
  rewrite (set_cell_run _ _ _ _ _ Hrow). cbn [fst snd].
  rewrite (set_cell_run _ _ _ _ _ (lookup_insert_row _ _ _ _ Hrow)).
  cbn [fst snd]. rewrite list_insert_insert_eq.
  destruct (strip <$> re_findall (similar_pattern part) values) as [|t l] eqn:E.
  - reflexivity.
  - rewrite (set_cell_run _ _ _ _ _ (lookup_insert_row _ _ _ _ Hrow)).
    cbn [fst snd]. rewrite list_insert_insert_eq. reflexivity.
Qed.

Lemma checks_partial so (part values : str) (index : nat) (data : table)
  (row : Row) (t : str) (rest : list str) :
  data !! index = Some row →
  re_search (re_escape part) values = None →
  get_close_matches part (re_split values) cutoff = t :: rest →
  SET_DESC_checks so part values index data =
  ([], <[index := MkRow (MPN row) (PDF row)
                    (Some Includes_or_Missed_Suffixes) (Some t)
                    (SIMILARS row)]> data,
   inr ()).
Proof.
  intros Hrow Hs Hg. unfold SET_DESC_checks. rewrite Hs, Hg.
  unfold io_bind.
  rewrite (set_cell_run _ _ _ _ _ Hrow). cbn [fst snd].
  rewrite (set_cell_run _ _ _ _ _ (lookup_insert_row _ _ _ _ Hrow)).
  cbn [fst snd]. rewrite list_insert_insert_eq. reflexivity.
Qed.

Lemma checks_not_found so (part values : str) (index : nat) (data : table)
  (row : Row) :
  data !! index = Some row →
  re_search (re_escape part) values = None →
  get_close_matches part (re_split values) cutoff = [] →
  SET_DESC_checks so part values index data =
  ([], <[index := with_STATUS (Some Not_Found) row]> data, inr ()).
Proof.
  intros Hrow Hs Hg. unfold SET_DESC_checks. rewrite Hs, Hg.
  apply set_cell_run, Hrow.
Qed.

(** C1.  A request whose resolved text contains the part number under
    case-insensitive comparison gets the status "Exact", and EQUIVALENT is
    the occurrence as the text has it: the leftmost stretch of the text
    that is the part number up to case. *)
Theorem C1_exact_on_verbatim_occurrence (w : World) (so : set_order)
  (pdf_data : gmap str str) (part_col pdf_col : Row → str) (index : nat)
  (data : table) (row : Row) (tr : list event) (values : str) :
  data !! index = Some row →
  resolves_to w pdf_data (pdf_col row) tr values →
  occurs_ci (part_col row) values →
  ∃ pre m post row',
    values = pre ++ m ++ post
    ∧ ci_eq (part_col row) m
    ∧ (∀ pre2 m2 post2, values = pre2 ++ m2 ++ post2 →
         ci_eq (part_col row) m2 → length pre ≤ length pre2)
    ∧ SET_DESC w so pdf_data part_col pdf_col index data
      = (tr, <[index := row']> data, inr ())
    ∧ STATUS row' = Some Exact
    ∧ EQUIVALENT row' = Some m.
Proof.
  intros Hrow Hres Hocc.
  destruct (re_search_lit_occurs _ _ Hocc) as (pre & m & Hs).
  destruct (re_search_lit_Some _ _ _ _ _ Hs) as (post & Hv & Hci & Hleft).
  exists pre, m, post. eexists. split; [exact Hv|]. split; [exact Hci|].
  split; [exact Hleft|].
  rewrite (SET_DESC_resolved _ _ _ _ _ _ _ _ _ _ Hrow Hres).
  rewrite (checks_exact _ _ _ _ _ _ _ _ Hrow Hs). cbn [fst snd].
  rewrite app_nil_r. split; [reflexivity|]. split; reflexivity.
Qed.

Lemma C1_exact_on_verbatim_occurrence_witness :
  ∃ pre m post row',
    L "Rev2 ABC-123 datasheet" = pre ++ m ++ post
    ∧ ci_eq (L "abc-123") m
    ∧ (∀ pre2 m2 post2, L "Rev2 ABC-123 datasheet" = pre2 ++ m2 ++ post2 →
         ci_eq (L "abc-123") m2 → length pre ≤ length pre2)
    ∧ SET_DESC (w_scan [L "Rev2 ABC-123 datasheet"]) so_scan scanned MPN PDF 0
        [row1 "abc-123"]
      = ([EvGet url1 None; EvOcr []], <[0 := row']> [row1 "abc-123"], inr ())
    ∧ STATUS row' = Some Exact
    ∧ EQUIVALENT row' = Some m.
Proof.
  apply (C1_exact_on_verbatim_occurrence (w_scan [L "Rev2 ABC-123 datasheet"])
           so_scan scanned MPN PDF 0 [row1 "abc-123"] (row1 "abc-123")
           [EvGet url1 None; EvOcr []] (L "Rev2 ABC-123 datasheet")).
  - reflexivity.
  - exists (L ""). split; vm_compute; reflexivity.
  - exists (L "Rev2 "), (L "ABC-123"), (L " datasheet").
    split; [reflexivity|]. repeat constructor.
Defined.

Lemma checks_run so (part values : str) (index : nat) (data : table)
  (row : Row) :
  data !! index = Some row →
  SET_DESC_checks so part values index data =
  ([], <[index := checks_row so part values row]> data, inr ()).
Proof.
  intros Hrow. unfold checks_row.
  destruct (re_search (re_escape part) values) as [[pre m]|] eqn:Hs.
  - apply (checks_exact _ _ _ _ _ _ _ _ Hrow Hs).
  - destruct (get_close_matches part (re_split values) cutoff) as [|t l] eqn:Hg.
    + apply (checks_not_found _ _ _ _ _ _ Hrow Hs Hg).
    + apply (checks_partial _ _ _ _ _ _ _ _ Hrow Hs Hg).
Qed.

(** [SET_DESC] writes to the row of its index only. *)
Lemma SET_DESC_run (w : World) (so : set_order) (pdf_data : gmap str str)
  (part_col pdf_col : Row → str) (index : nat) (data : table) (row : Row) :
  data !! index = Some row →
  SET_DESC w so pdf_data part_col pdf_col index data =
  ((SET_DESC_row w so pdf_data part_col pdf_col row).1.1,
   <[index := (SET_DESC_row w so pdf_data part_col pdf_col row).1.2]> data,
   (SET_DESC_row w so pdf_data part_col pdf_col row).2).
Proof.
  intros Hrow. unfold SET_DESC_row.
  destruct (pdf_data !! pdf_col row) as [text|] eqn:Htext.
  - destruct (SET_DESC_values w (pdf_col row) text ()) as [[tr []] [e|values]]
      eqn:Hv; cbn [fst snd].
    + unfold SET_DESC, io_bind.
      rewrite (read_cell_run part_col _ _ _ Hrow). cbn [fst snd].
      rewrite (read_cell_run pdf_col _ _ _ Hrow). cbn [fst snd].
      rewrite Htext, SET_DESC_values_state, Hv. cbn [fst snd].
      rewrite (list_insert_id _ _ _ Hrow). reflexivity.
    + rewrite (SET_DESC_resolved w so pdf_data part_col pdf_col index data
                 row tr values Hrow); [|exists text; auto].
      rewrite (checks_run _ _ _ _ _ _ Hrow). cbn [fst snd].
      rewrite app_nil_r. reflexivity.
  - unfold SET_DESC, io_bind.
    rewrite (read_cell_run part_col _ _ _ Hrow). cbn [fst snd].
    rewrite (read_cell_run pdf_col _ _ _ Hrow). cbn [fst snd].
    rewrite Htext. rewrite (set_cell_run _ _ _ _ _ Hrow). reflexivity.
Qed.

Lemma submit_run (w : World) (so : set_order) (pdf_data : gmap str str)
  (part_col pdf_col : Row → str) (index : nat) (data : table) (row : Row) :
  data !! index = Some row →
  io_submit (SET_DESC w so pdf_data part_col pdf_col index) data =
  ((SET_DESC_row w so pdf_data part_col pdf_col row).1.1,
   <[index := (SET_DESC_row w so pdf_data part_col pdf_col row).1.2]> data,
   inr ()).
Proof.
  intros Hrow. unfold io_submit.
  rewrite (SET_DESC_run _ _ _ _ _ _ _ _ Hrow). reflexivity.
Qed.

(** The loop of the tasks over the rows still to do. *)
Lemma tasks_run (w : World) (so : set_order) (pdf_data : gmap str str)
  (part_col pdf_col : Row → str) (done todo : list Row) :
  io_for (seq (length done) (length todo))
    (λ index, io_submit (SET_DESC w so pdf_data part_col pdf_col index))
    (done ++ todo) =
  (concat ((λ r, (SET_DESC_row w so pdf_data part_col pdf_col r).1.1) <$> todo),
   done ++ ((λ r, (SET_DESC_row w so pdf_data part_col pdf_col r).1.2) <$> todo),
   inr ()).
Proof.
  revert done. induction todo as [|r todo IH]; intros done.
  - reflexivity.
  - cbn [length seq io_for]. unfold io_bind.
    rewrite (submit_run w so pdf_data part_col pdf_col (length done)
               (done ++ r :: todo) r) by (apply list_lookup_middle; reflexivity).
    cbn [fst snd].
    set (r' := (SET_DESC_row w so pdf_data part_col pdf_col r).1.2).
    assert (Hins : <[length done := r']> (done ++ r :: todo)
                   = (done ++ [r']) ++ todo).
    { rewrite insert_app_r_alt by lia. rewrite Nat.sub_diag. simpl.
      rewrite <- app_assoc. reflexivity. }
    rewrite Hins.
    specialize (IH (done ++ [r'])).
    rewrite length_app in IH. simpl in IH. rewrite Nat.add_1_r in IH.
    rewrite IH. cbn [fst snd]. rewrite <- app_assoc. reflexivity.
Qed.

(** A run is [SET_DESC] on every reset row, one row after the other. *)
Lemma PN_Validation_New_run (w : World) (so : set_order)
  (pdf_data : gmap str str) (part_col pdf_col : Row → str) (data : table) :
  PN_Validation_New w so pdf_data part_col pdf_col data =
  let rows := (λ r, SET_DESC_row w so pdf_data part_col pdf_col (reset_row r))
                <$> data in
  (concat ((λ q : list event * Row * (exception + unit), q.1.1) <$> rows),
   (λ q : list event * Row * (exception + unit), q.1.2) <$> rows,
   inr ((λ q : list event * Row * (exception + unit), q.1.2) <$> rows)).
Proof.
  unfold PN_Validation_New, io_bind, io_modify, io_get. cbn [fst snd].
  set (data1 := with_SIMILARS None <$> (with_EQUIVALENT None <$> (with_STATUS None <$> data))).
  assert (Hd : data1 = reset_row <$> data).
  { unfold data1. rewrite <- !list_fmap_compose. apply list_fmap_ext.
    intros i [] _. reflexivity. }
  rewrite Hd.
  pose proof (tasks_run w so pdf_data part_col pdf_col [] (reset_row <$> data))
    as Ht.
  simpl in Ht. rewrite Ht. cbn [fst snd].
  rewrite <- !list_fmap_compose. rewrite app_nil_r. reflexivity.
Qed.

(** C3.  A request whose location has no entry in the extraction map gets
    the status "May be Broken" whatever its part number is; nothing is
    fetched, and EQUIVALENT and SIMILARS are unset in the result of the
    run. *)
Theorem C3_unavailable_without_entry (w : World) (so : set_order)
  (pdf_data : gmap str str) (index : nat) (data : table) (row : Row) :
  data !! index = Some row →
  pdf_data !! PDF row = None →
  SET_DESC w so pdf_data MPN PDF index data
    = ([], <[index := with_STATUS (Some May_be_Broken) row]> data, inr ())
  ∧ (PN_Validation_New w so pdf_data MPN PDF data).1.2 !! index
    = Some (MkRow (MPN row) (PDF row) (Some May_be_Broken) None None).
Proof.
  intros Hrow Hnone. split.
  - rewrite (SET_DESC_run _ _ _ _ _ _ _ _ Hrow). unfold SET_DESC_row.
    rewrite Hnone. reflexivity.
  - rewrite PN_Validation_New_run. cbn [fst snd].
    rewrite <- list_fmap_compose, list_lookup_fmap, Hrow. simpl.
    unfold SET_DESC_row. simpl. rewrite Hnone. reflexivity.
Qed.

Lemma C3_unavailable_without_entry_witness :
  SET_DESC w_down so_scan scanned MPN PDF 0 [MkRow (L "ABC-123") (L "http://x/b.pdf") None None None]
    = ([], [MkRow (L "ABC-123") (L "http://x/b.pdf") (Some May_be_Broken) None None], inr ())
  ∧ (PN_Validation_New w_down so_scan scanned MPN PDF
       [MkRow (L "ABC-123") (L "http://x/b.pdf") None None None]).1.2 !! 0
    = Some (MkRow (L "ABC-123") (L "http://x/b.pdf") (Some May_be_Broken) None None).
Proof.
  apply (C3_unavailable_without_entry w_down so_scan scanned 0
           [MkRow (L "ABC-123") (L "http://x/b.pdf") None None None]
           (MkRow (L "ABC-123") (L "http://x/b.pdf") None None None)).
  - reflexivity.
  - vm_compute. reflexivity.
Defined.

(** C10.  With the empty part number the checks write the status "Exact"
    and the empty string as EQUIVALENT on every text; so does [SET_DESC] for
    a request whose location has a text for the checks. *)
Theorem C10_empty_identifier_is_exact (w : World) (so : set_order)
  (pdf_data : gmap str str) (part_col pdf_col : Row → str) (index : nat)
  (data : table) (row : Row) :
  data !! index = Some row →
  part_col row = [] →
  (∀ values, ∃ row',
     SET_DESC_checks so (part_col row) values index data
       = ([], <[index := row']> data, inr ())
     ∧ STATUS row' = Some Exact
     ∧ EQUIVALENT row' = Some [])
  ∧ (∀ tr values, resolves_to w pdf_data (pdf_col row) tr values →
       ∃ row',
         SET_DESC w so pdf_data part_col pdf_col index data
           = (tr, <[index := row']> data, inr ())
         ∧ STATUS row' = Some Exact
         ∧ EQUIVALENT row' = Some []).
Proof.
  intros Hrow Hpart.
  assert (Hs : ∀ values,
             re_search (re_escape (part_col row)) values = Some ([], [])).
  { intros values. rewrite Hpart. unfold re_search.
    destruct values; reflexivity. }
  split.
  - intros values. eexists.
    rewrite (checks_exact _ _ _ _ _ _ _ _ Hrow (Hs values)). repeat split.
  - intros tr values Hres. eexists.
    rewrite (SET_DESC_resolved _ _ _ _ _ _ _ _ _ _ Hrow Hres).
    rewrite (checks_exact _ _ _ _ _ _ _ _ Hrow (Hs values)). cbn [fst snd].
    rewrite app_nil_r. repeat split.
Qed.

Lemma C10_empty_identifier_is_exact_witness :
  ∃ row',
    SET_DESC (w_scan [L "Rev2 ABC-123 datasheet"]) so_scan scanned MPN PDF 0
      [row1 ""]
      = ([EvGet url1 None; EvOcr []], <[0 := row']> [row1 ""], inr ())
    ∧ STATUS row' = Some Exact
    ∧ EQUIVALENT row' = Some [].
Proof.
  apply (proj2 (C10_empty_identifier_is_exact
                  (w_scan [L "Rev2 ABC-123 datasheet"]) so_scan scanned
                  MPN PDF 0 [row1 ""] (row1 "") eq_refl eq_refl)
           [EvGet url1 None; EvOcr []] (L "Rev2 ABC-123 datasheet")).
  exists (L ""). split; vm_compute; reflexivity.
Defined.

(** The text of a location is resolved as it stands when it is longer than
    100 characters, and to the OCR output when the fallback gets the bytes
    and the OCR function returns. *)
Lemma resolves_long (w : World) (pdf_data : gmap str str) (pdf_url text : str) :
  pdf_data !! pdf_url = Some text →
  100 < length text →
  resolves_to w pdf_data pdf_url [] text.
Proof.
  intros Hl Hlen. exists text. split; [assumption|].
  unfold SET_DESC_values.
  destruct (length text <=? 100) eqn:E; [apply Nat.leb_le in E; lia|].
  reflexivity.
Qed.

Lemma resolves_short (w : World) (pdf_data : gmap str str)
  (pdf_url text : str) (resp : response) (tr : list event) (values : str) :
  pdf_data !! pdf_url = Some text →
  length text ≤ 100 →
  requests_get w pdf_url None = inr resp →
  ocr_text_from_pdf w (content resp) () = (tr, (), inr values) →
  resolves_to w pdf_data pdf_url (EvGet pdf_url None :: tr) values.
Proof.
  intros Hl Hlen Hget Hocr. exists text. split; [assumption|].
  unfold SET_DESC_values.
  destruct (length text <=? 100) eqn:E; [|apply Nat.leb_gt in E; lia].
  unfold io_bind, io_emit, io_lift. cbn [fst snd]. rewrite Hget. cbn [fst snd].
  rewrite Hocr. simpl. rewrite app_nil_r. reflexivity.
Qed.

(** ** The OCR fallback *)

Lemma ocr_text_from_pdf_trace (w : World) (b : bytes) :
  ∃ prints, (ocr_text_from_pdf w b ()).1.1 = EvOcr b :: prints
            ∧ ∀ b', EvOcr b' ∉ prints.
Proof.
  unfold ocr_text_from_pdf, io_bind, io_emit, io_try, io_lift, io_raise,
    io_ret, print. cbn [fst snd].
  destruct (easyocr_Reader w); cbn [fst snd].
  - exists []. split; [reflexivity|]. intros b' H. inversion H.
  - destruct (ocr_page_fragments w b); cbn [fst snd].
    + eexists. split; [reflexivity|]. intros b' H. simpl in H.
      apply list_elem_of_singleton in H. discriminate.
    + exists []. split; [reflexivity|]. intros b' H. inversion H.
Qed.

Lemma SET_DESC_values_long (w : World) (pdf_url text : str) :
  100 < length text → SET_DESC_values w pdf_url text () = ([], (), inr text).
Proof.
  intros Hlen. unfold SET_DESC_values.
  destruct (length text <=? 100) eqn:E; [apply Nat.leb_le in E; lia|].
  reflexivity.
Qed.

Lemma SET_DESC_values_raise (w : World) (pdf_url text : str) (e : exception) :
  length text ≤ 100 →
  requests_get w pdf_url None = inl e →
  SET_DESC_values w pdf_url text () = ([EvGet pdf_url None], (), inl e).
Proof.
  intros Hlen Hget. unfold SET_DESC_values.
  destruct (length text <=? 100) eqn:E; [|apply Nat.leb_gt in E; lia].
  unfold io_bind, io_emit, io_lift. cbn [fst snd]. rewrite Hget. reflexivity.
Qed.

Lemma SET_DESC_values_ocr (w : World) (pdf_url text : str) (resp : response) :
  length text ≤ 100 →
  requests_get w pdf_url None = inr resp →
  SET_DESC_values w pdf_url text () =
  (EvGet pdf_url None :: (ocr_text_from_pdf w (content resp) ()).1.1, (),
   (ocr_text_from_pdf w (content resp) ()).2).
Proof.
  intros Hlen Hget. unfold SET_DESC_values.
  destruct (length text <=? 100) eqn:E; [|apply Nat.leb_gt in E; lia].
  unfold io_bind, io_emit, io_lift. cbn [fst snd]. rewrite Hget. cbn [fst snd].
  destruct (ocr_text_from_pdf w (content resp) ()) as [[tr []] [e|x]];
    simpl; rewrite ?app_nil_r; reflexivity.
Qed.

(** C4, amended.  The OCR function is called exactly when the digital text
    has at most 100 characters and the bytes of the location, fetched once
    more for it, arrive; its output then replaces the digital text as the
    text the checks run on.  A longer text is handed on as it is, without
    any call. *)
Theorem C4_ocr_fallback (w : World) (pdf_url text : str) :
  ((∃ b, EvOcr b ∈ (SET_DESC_values w pdf_url text ()).1.1)
   ↔ length text ≤ 100 ∧ ∃ resp, requests_get w pdf_url None = inr resp)
  ∧ (∀ resp, length text ≤ 100 → requests_get w pdf_url None = inr resp →
       SET_DESC_values w pdf_url text () =
       (EvGet pdf_url None :: (ocr_text_from_pdf w (content resp) ()).1.1, (),
        (ocr_text_from_pdf w (content resp) ()).2))
  ∧ (100 < length text → SET_DESC_values w pdf_url text () = ([], (), inr text)).
Proof.
  split; [|split].
  - destruct (le_lt_dec (length text) 100) as [Hle|Hgt].
    + destruct (requests_get w pdf_url None) as [e|resp] eqn:Hget.
      * rewrite (SET_DESC_values_raise _ _ _ _ Hle Hget). cbn [fst snd].
        split.
        -- intros [b H]. apply list_elem_of_singleton in H. discriminate.
        -- intros [_ [resp H]]. discriminate.
      * rewrite (SET_DESC_values_ocr _ _ _ _ Hle Hget). cbn [fst snd].
        split; [eauto|]. intros _.
        destruct (ocr_text_from_pdf_trace w (content resp)) as (p & -> & _).
        exists (content resp). right. left.
    + rewrite (SET_DESC_values_long _ _ _ Hgt). cbn [fst snd]. split.
      * intros [b H]. inversion H.
      * intros [H _]. lia.
  - apply SET_DESC_values_ocr.
  - apply SET_DESC_values_long.
Qed.

Lemma C4_ocr_fallback_witness :
  SET_DESC_values (w_scan [L "ABC-123"]) url1 (L "") ()
  = ([EvGet url1 None; EvOcr []], (), inr (L "ABC-123")).
Proof.
  apply (proj1 (proj2 (C4_ocr_fallback (w_scan [L "ABC-123"]) url1 (L "")))
           (Response 200 (L "OK") url1 [])).
  - simpl. lia.
  - reflexivity.
Defined.

(** C4, as stated: a short text whose bytes cannot be fetched again. *)
Lemma C4_counterexample :
  ¬ ((∃ b, EvOcr b ∈ (SET_DESC_values w_down url1 (L "scanned page") ()).1.1)
     ↔ length (L "scanned page") ≤ 100).
Proof.
  intros [_ H]. destruct H as [b Hb]; [simpl; lia|].
  vm_compute in Hb. apply list_elem_of_singleton in Hb. discriminate.
Qed.

(** C8.  The fetch of the OCR fallback is issued without a timeout, and a
    transport error of that fetch is neither logged nor caught: [SET_DESC]
    ends with the exception and leaves the table as it was. *)
Theorem C8_refetch_without_timeout (w : World) (so : set_order)
  (pdf_data : gmap str str) (part_col pdf_col : Row → str) (index : nat)
  (data : table) (row : Row) (text : str) (e : exception) :
  data !! index = Some row →
  pdf_data !! pdf_col row = Some text →
  length text ≤ 100 →
  requests_get w (pdf_col row) None = inl e →
  SET_DESC w so pdf_data part_col pdf_col index data
  = ([EvGet (pdf_col row) None], data, inl e).
Proof.
  intros Hrow Htext Hlen Hget.
  rewrite (SET_DESC_run _ _ _ _ _ _ _ _ Hrow). unfold SET_DESC_row.
  rewrite Htext, (SET_DESC_values_raise _ _ _ _ Hlen Hget). cbn [fst snd].
  rewrite (list_insert_id _ _ _ Hrow). reflexivity.
Qed.

Lemma C8_refetch_without_timeout_witness :
  SET_DESC w_down so_scan scanned MPN PDF 0 [row1 "ABC-123"]
  = ([EvGet url1 None], [row1 "ABC-123"], inl (Exception (L "ConnectionError"))).
Proof.
  apply (C8_refetch_without_timeout w_down so_scan scanned MPN PDF 0
           [row1 "ABC-123"] (row1 "ABC-123") (L "")).
  - reflexivity.
  - vm_compute. reflexivity.
  - simpl. lia.
  - reflexivity.
Defined.

(** ** The statuses of a run *)

Lemma checks_row_status (so : set_order) (part values : str) (r : Row) :
  STATUS (checks_row so part values r)
  ∈ [Some Exact; Some Includes_or_Missed_Suffixes; Some Not_Found].
Proof.
  unfold checks_row. destruct (re_search _ _) as [[pre m]|].
  - left.
  - destruct (get_close_matches _ _ _); cbn [STATUS with_STATUS].
    + do 2 right. left.
    + right. left.
Qed.

(** X24.  [PN_Validation_New] never raises.  One row comes back for every
    row of the sheet; its status is one of the four labels, or unset when
    its task ended with an exception. *)
Lemma PN_Validation_New_statuses (w : World) (so : set_order)
  (pdf_data : gmap str str) (data : table) :
  ∃ result,
    (PN_Validation_New w so pdf_data MPN PDF data).2 = inr result
    ∧ length result = length data
    ∧ ∀ i r, result !! i = Some r →
        ∃ row, data !! i = Some row
          ∧ (STATUS r
             ∈ [Some Exact; Some Includes_or_Missed_Suffixes; Some Not_Found;
                Some May_be_Broken]
             ∨ (STATUS r = None
                ∧ ∃ e, (SET_DESC_row w so pdf_data MPN PDF (reset_row row)).2
                       = inl e)).
Proof.
  rewrite PN_Validation_New_run. cbn [fst snd]. eexists. split; [reflexivity|].
  split; [rewrite !length_fmap; reflexivity|].
  intros i r. rewrite <- list_fmap_compose, list_lookup_fmap.
  destruct (data !! i) as [row|]; [|discriminate]. simpl. intros [= <-].
  exists row. split; [reflexivity|].
  unfold SET_DESC_row. cbn [PDF MPN reset_row].
  destruct (pdf_data !! PDF row) as [text|].
  - destruct (SET_DESC_values w (PDF row) text ()) as [[tr []] [e|values]];
      cbn [fst snd].
    + right. split; [reflexivity|]. eauto.
    + left. pose proof (checks_row_status so (MPN row) values (reset_row row)) as H.
      cbn [MPN reset_row] in H.
      apply elem_of_cons in H as [->|H]; [left|].
      apply elem_of_cons in H as [->|H]; [right; left|].
      apply list_elem_of_singleton in H as ->. do 2 right. left.
  - left. cbn [fst snd STATUS with_STATUS]. do 3 right. left.
Qed.

(** C6.  The run ends and hands back the table, but the row of a request
    that the OCR fallback serves keeps STATUS, EQUIVALENT and SIMILARS unset
    when the fetch of the fallback raises: none of the four labels is
    written for it. *)
Theorem C6_row_left_without_status (w : World) (so : set_order)
  (pdf_data : gmap str str) (index : nat) (data : table) (row : Row)
  (text : str) (e : exception) :
  data !! index = Some row →
  pdf_data !! PDF row = Some text →
  length text ≤ 100 →
  requests_get w (PDF row) None = inl e →
  ∃ result,
    (PN_Validation_New w so pdf_data MPN PDF data).2 = inr result
    ∧ result !! index = Some (MkRow (MPN row) (PDF row) None None None).
Proof.
  intros Hrow Htext Hlen Hget.
  rewrite PN_Validation_New_run. cbn [fst snd]. eexists. split; [reflexivity|].
  rewrite <- list_fmap_compose, list_lookup_fmap, Hrow. simpl.
  unfold SET_DESC_row. simpl. rewrite Htext.
  rewrite (SET_DESC_values_raise _ _ _ _ Hlen Hget). reflexivity.
Qed.

Lemma C6_row_left_without_status_witness :
  ∃ result,
    (PN_Validation_New w_down so_scan scanned MPN PDF [row1 "ABC-123"]).2
      = inr result
    ∧ result !! 0 = Some (MkRow (L "ABC-123") url1 None None None).
Proof.
  apply (C6_row_left_without_status w_down so_scan scanned 0
           [row1 "ABC-123"] (row1 "ABC-123") (L "")
           (Exception (L "ConnectionError"))).
  - reflexivity.
  - vm_compute. reflexivity.
  - simpl. lia.
  - reflexivity.
Defined.

(** ** Building the extraction map *)

Lemma count_events_app P (t1 t2 : list event) :
  count_events P (t1 ++ t2) = count_events P t1 + count_events P t2.
Proof. unfold count_events. rewrite List.filter_app, length_app. reflexivity. Qed.

Lemma count_events_cons P (ev : event) (tr : list event) :
  count_events P (ev :: tr) = (if P ev then 1 else 0) + count_events P tr.
Proof. unfold count_events. simpl. destruct (P ev); reflexivity. Qed.

Lemma references_app u (l1 l2 : list str) :
  references u (l1 ++ l2) = references u l1 + references u l2.
Proof. unfold references. rewrite filter_app, length_app. reflexivity. Qed.

Lemma references_cons u p (l : list str) :
  references u (p :: l) = (if bool_decide (p = u) then 1 else 0) + references u l.
Proof.
  unfold references. rewrite filter_cons.
  destruct (decide (p = u)) as [->|Hne].
  - rewrite bool_decide_eq_true_2 by reflexivity. reflexivity.
  - rewrite bool_decide_eq_false_2 by assumption. reflexivity.
Qed.

Lemma GetPDFResponse_run {S} (w : World) (pdf : str) (s : S) :
  ∃ prints,
    GetPDFResponse w pdf s
    = (EvGet pdf (Some 10) :: prints, s, inr (pdf, fetched w pdf))
    ∧ ∀ u, count_events (is_get u) prints = 0
           ∧ count_events (is_extract u) prints = 0.
Proof.
  unfold GetPDFResponse, fetched, io_try, io_bind, io_emit, io_lift,
    raise_for_status, io_raise, io_ret, print. cbn [fst snd].
  destruct (requests_get w pdf (Some 10)) as [e|resp]; cbn [fst snd].
  - eexists. split; [reflexivity|]. intros u. split; reflexivity.
  - destruct ((400 <=? status_code resp) && (status_code resp <? 500)) eqn:E4;
      cbn [fst snd].
    + assert ((400 <=? status_code resp) && (status_code resp <? 600) = true)
        as ->.
      { apply andb_true_iff in E4 as [H1 H2]. apply andb_true_iff.
        split; [assumption|]. apply Nat.ltb_lt in H2. apply Nat.ltb_lt. lia. }
      eexists. split; [reflexivity|]. intros u. split; reflexivity.
    + destruct ((500 <=? status_code resp) && (status_code resp <? 600)) eqn:E5;
        cbn [fst snd].
      * assert ((400 <=? status_code resp) && (status_code resp <? 600) = true)
          as ->.
        { apply andb_true_iff in E5 as [H1 H2]. apply andb_true_iff.
          split; [|assumption]. apply Nat.leb_le in H1. apply Nat.leb_le. lia. }
        eexists. split; [reflexivity|]. intros u. split; reflexivity.
      * assert ((400 <=? status_code resp) && (status_code resp <? 600) = false)
          as ->.
        { apply andb_false_iff. apply andb_false_iff in E4, E5.
          destruct (Nat.leb_spec 400 (status_code resp)); [|left; reflexivity].
          right. apply Nat.ltb_ge.
          destruct E4 as [E4|E4]; [discriminate|]. apply Nat.ltb_ge in E4.
          destruct E5 as [E5|E5]; [apply Nat.leb_gt in E5; lia|].
          apply Nat.ltb_ge in E5. lia. }
        exists []. split; [reflexivity|]. intros u. split; reflexivity.
Qed.

Lemma io_map_GetPDFResponse {S} (w : World) (chunk : list str) (s : S) :
  ∃ tr,
    io_map (GetPDFResponse w) chunk s
    = (tr, s, inr ((λ p, (p, fetched w p)) <$> chunk))
    ∧ ∀ u, count_events (is_get u) tr = references u chunk
           ∧ count_events (is_extract u) tr = 0.
Proof.
  induction chunk as [|p chunk (tr & IH & Hc)].
  - exists []. split; [reflexivity|]. intros u; split; reflexivity.
  - destruct (GetPDFResponse_run w p s) as (prints & Hp & Hprints).
    cbn [io_map]. unfold io_bind. rewrite Hp. cbn [fst snd].
    rewrite IH. cbn [fst snd]. eexists. split; [reflexivity|].
    intros u. destruct (Hc u) as [Hc1 Hc2]. destruct (Hprints u) as [Hp1 Hp2].
    unfold io_ret. cbn [fst snd]. rewrite app_nil_r.
    rewrite !count_events_app, !count_events_cons, Hc1, Hc2, Hp1, Hp2,
      references_cons.
    split; [|reflexivity]. simpl. lia.
Qed.

Lemma GetPDFText_result_run (w : World) (r : str * option bytes)
  (pdfData : gmap str str) :
  ∃ tr pdfData',
    GetPDFText_result w r pdfData = (tr, pdfData', inr ())
    ∧ ∀ u, count_events (is_get u) tr = 0
           ∧ count_events (is_extract u) tr
             = (if bool_decide (r.1 = u) && bool_decide (is_Some r.2)
                then 1 else 0).
Proof.
  destruct r as [p [byt|]]; unfold GetPDFText_result; cbn [fst snd].
  - unfold io_try, io_bind, io_emit, io_lift, io_modify, print. cbn [fst snd].
    destruct (fitz_page_texts w byt) as [e|pages]; cbn [fst snd].
    + eexists _, _. split; [reflexivity|]. intros u.
      rewrite (bool_decide_eq_true_2 (is_Some (Some byt))) by eauto.
      unfold count_events. simpl. destruct (bool_decide (p = u)); split; reflexivity.
    + eexists _, _. split; [reflexivity|]. intros u.
      rewrite (bool_decide_eq_true_2 (is_Some (Some byt))) by eauto.
      unfold count_events. simpl. destruct (bool_decide (p = u)); split; reflexivity.
  - eexists _, _. split; [reflexivity|]. intros u.
    rewrite (bool_decide_eq_false_2 (is_Some None)) by (intros [? ?]; discriminate).
    rewrite andb_false_r. split; reflexivity.
Qed.

Lemma io_for_results (w : World) (chunk : list str) (pdfData : gmap str str) :
  ∃ tr pdfData',
    io_for ((λ p, (p, fetched w p)) <$> chunk) (GetPDFText_result w) pdfData
    = (tr, pdfData', inr ())
    ∧ ∀ u, count_events (is_get u) tr = 0
           ∧ count_events (is_extract u) tr
             = (if bool_decide (is_Some (fetched w u))
                then references u chunk else 0).
Proof.
  revert pdfData. induction chunk as [|p chunk IH]; intros pdfData.
  - exists [], pdfData. split; [reflexivity|]. intros u.
    destruct (bool_decide _); split; reflexivity.
  - destruct (GetPDFText_result_run w (p, fetched w p) pdfData)
      as (tr1 & d1 & H1 & Hc1).
    destruct (IH d1) as (tr2 & d2 & H2 & Hc2).
    cbn [fmap list_fmap io_for]. unfold io_bind.
    change (list_fmap _ _ ?f ?l) with (f <$> l).
    rewrite H1. cbn [fst snd]. rewrite H2. cbn [fst snd].
    eexists _, _. split; [reflexivity|]. intros u.
    destruct (Hc1 u) as [Ha Hb]. destruct (Hc2 u) as [Hc Hd].
    rewrite !count_events_app, Ha, Hb, Hc, Hd, references_cons.
    split; [reflexivity|]. cbn [fst snd].
    destruct (decide (p = u)) as [->|Hne].
    + rewrite (bool_decide_eq_true_2 (u = u)) by reflexivity. simpl.
      destruct (bool_decide (is_Some (fetched w u))); reflexivity.
    + rewrite (bool_decide_eq_false_2 (p = u)) by assumption. simpl.
      destruct (bool_decide (is_Some (fetched w u))); reflexivity.
Qed.

Lemma io_for_chunks (w : World) (chunks : list (list str))
  (pdfData : gmap str str) :
  ∃ tr pdfData',
    io_for chunks
      (λ chunk,
         let* results := io_map (GetPDFResponse w) chunk in
         io_for results (GetPDFText_result w)) pdfData
    = (tr, pdfData', inr ())
    ∧ ∀ u, count_events (is_get u) tr = references u (concat chunks)
           ∧ count_events (is_extract u) tr
             = (if bool_decide (is_Some (fetched w u))
                then references u (concat chunks) else 0).
Proof.
  revert pdfData. induction chunks as [|chunk chunks IH]; intros pdfData.
  - exists [], pdfData. split; [reflexivity|]. intros u.
    destruct (bool_decide _); split; reflexivity.
  - destruct (io_map_GetPDFResponse w chunk pdfData) as (tr1 & H1 & Hc1).
    destruct (io_for_results w chunk pdfData) as (tr2 & d2 & H2 & Hc2).
    destruct (IH d2) as (tr3 & d3 & H3 & Hc3).
    cbn [io_for]. unfold io_bind at 1 2. rewrite H1. cbn [fst snd].
    rewrite H2. cbn [fst snd]. rewrite H3. cbn [fst snd].
    eexists _, _. split; [reflexivity|]. intros u.
    destruct (Hc1 u) as [Ha Hb]. destruct (Hc2 u) as [Hc Hd].
    destruct (Hc3 u) as [He Hf].
    rewrite !count_events_app, Ha, Hb, Hc, Hd, He, Hf.
    cbn [concat]. rewrite references_app.
    destruct (bool_decide (is_Some (fetched w u))); split; lia.
Qed.

Lemma concat_chunks_aux (n : nat) (l : list str) :
  length l ≤ n * 100 →
  concat ((λ q, take 100 (drop (q * 100) l)) <$> seq 0 n) = l.
Proof.
  revert l. induction n as [|n IH]; intros l Hlen.
  - destruct l; [reflexivity|simpl in Hlen; lia].
  - cbn [seq fmap list_fmap concat]. change (list_fmap _ _ ?f ?l) with (f <$> l).
    rewrite <- (fmap_S_seq 0 n), <- list_fmap_compose.
    rewrite Nat.mul_0_l, drop_0.
    rewrite <- (take_drop 100 l) at 2. f_equal.
    rewrite <- (IH (drop 100 l)) by (rewrite length_drop; lia).
    f_equal. apply list_fmap_ext. intros i q _. simpl.
    rewrite drop_drop. reflexivity.
Qed.

Lemma concat_chunks_of (pdfs : list str) : concat (chunks_of pdfs) = pdfs.
Proof.
  apply concat_chunks_aux.
  pose proof (Nat.div_mod_eq (length pdfs + 99) 100) as H.
  pose proof (Nat.mod_upper_bound (length pdfs + 99) 100 ltac:(lia)). lia.
Qed.

(** C5, amended.  While the extraction map is built, a location is fetched
    once for every row that refers to it, and its text is extracted once
    for every one of these fetches that succeeds; no exception leaves the
    function. *)
Theorem C5_one_fetch_per_referencing_row {S} (w : World) (data : table)
  (s : S) (u : str) :
  ∃ tr pdf_data,
    GetPDFText w (PDF <$> data) s = (tr, s, inr pdf_data)
    ∧ count_events (is_get u) tr = references u (PDF <$> data)
    ∧ count_events (is_extract u) tr
      = (if bool_decide (is_Some (fetched w u))
         then references u (PDF <$> data) else 0).
Proof.
  generalize (PDF <$> data). intros pdfs.
  unfold GetPDFText, GetPDFText_loop.
  destruct (io_for_chunks w (chunks_of pdfs) ∅) as (tr & d & H & Hc).
  rewrite H. cbn [fst snd]. exists tr, d. split; [reflexivity|].
  rewrite concat_chunks_of in Hc. apply Hc.
Qed.

(** C5, as stated: two rows with one location. *)
Lemma C5_counterexample :
  ¬ (count_events (is_get url1)
       (GetPDFText (w_scan []) (PDF <$> [row1 "ABC-123"; row1 "XYZ-999"]) ()).1.1
     ≤ 1).
Proof. vm_compute. lia. Qed.

(** ** The tokens of SIMILARS *)

Lemma last_or_nil prev : last_or prev [] = prev.
Proof. reflexivity. Qed.

Lemma last_or_cons prev (c : ascii) (t : str) :
  last_or prev (c :: t) = last_or (Some c) t.
Proof.
  unfold last_or. destruct t as [|d t]; [reflexivity|].
  rewrite last_cons_cons. destruct (last (d :: t)) eqn:E; [reflexivity|].
  apply last_None in E. discriminate.
Qed.

Lemma last_or_app prev (t1 t2 : str) :
  last_or prev (t1 ++ t2) = last_or (last_or prev t1) t2.
Proof.
  revert prev. induction t1 as [|c t1 IH]; intros prev; [reflexivity|].
  simpl. rewrite !last_or_cons. apply IH.
Qed.

Lemma last_or_last (pre t : str) : last (pre ++ t) = last_or (last pre) t.
Proof.
  unfold last_or. rewrite last_app. destruct (last t); reflexivity.
Qed.

(** The matcher only returns matches. *)
Lemma match_here_sound (rs : regex) adv prev (s : str) (n : nat) :
  match_here rs adv prev s = Some n →
  n ≤ length s ∧ re_matches rs prev (take n s) (drop n s).
Proof.
  revert adv prev s n. induction rs as [|[p| |] rs IH]; intros adv prev s n.
  - simpl. destruct adv; [discriminate|]. intros [= <-].
    split; [lia|]. rewrite take_0. constructor.
  - simpl. destruct s as [|c s]; [discriminate|].
    destruct (ci_eqb p c) eqn:Hpc; [|discriminate].
    destruct (match_here rs false (Some c) s) as [k|] eqn:Hk; [|discriminate].
    intros [= <-]. destruct (IH _ _ _ _ Hk) as [Hle Hm].
    split; [simpl; lia|]. simpl. constructor; assumption.
  - cbn [match_here].
    revert adv prev n. induction s as [|c s IHs]; intros adv prev n.
    + intros H. destruct (IH _ _ _ _ H) as [Hle Hm]. split; [assumption|].
      rewrite <- (app_nil_l (take n [])). constructor; [constructor|exact Hm].
    + destruct (is_word c) eqn:Hw.
      * match goal with
        | |- context [match ?f false (Some c) s with _ => _ end] =>
            destruct (f false (Some c) s) as [k|] eqn:Hk
        end.
        -- intros [= <-]. destruct (IHs _ _ _ Hk) as [Hle Hm].
           split; [simpl; lia|]. simpl.
           inversion Hm as [| |w rs' prev' t rest Hw' Hm'|]; subst.
           change (c :: w ++ t) with ((c :: w) ++ t).
           constructor; [constructor; assumption|].
           rewrite last_or_cons. exact Hm'.
        -- intros H. destruct (IH _ _ _ _ H) as [Hle Hm]. split; [assumption|].
           rewrite <- (app_nil_l (take n (c :: s))).
           constructor; [constructor|exact Hm].
      * intros H. destruct (IH _ _ _ _ H) as [Hle Hm]. split; [assumption|].
        rewrite <- (app_nil_l (take n (c :: s))).
        constructor; [constructor|exact Hm].
  - simpl. destruct (boundary prev (head s)) eqn:Hb; [|discriminate].
    intros H. destruct (IH _ _ _ _ H) as [Hle Hm]. split; [assumption|].
    constructor; [|exact Hm]. rewrite take_drop. exact Hb.
Qed.

(** Every string that [re.findall] returns is a match somewhere in the
    text. *)
Lemma re_findall_from_sound (rs : regex) (pre s : str) (skip : nat) (t : str) :
  t ∈ re_findall_from rs (last pre) s skip →
  ∃ pre' post', pre ++ s = pre' ++ t ++ post'
                ∧ re_matches rs (last pre') t post'.
Proof.
  revert pre skip. induction s as [|c s IH]; intros pre skip.
  - destruct skip as [|k]; cbn [re_findall_from]; [|intros H; inversion H].
    assert (Hhit : ∀ adv n, match_here rs adv (last pre) [] = Some n →
                     t = take n [] →
                     ∃ pre' post', pre ++ [] = pre' ++ t ++ post'
                                   ∧ re_matches rs (last pre') t post').
    { intros adv n Hn ->. destruct (match_here_sound _ _ _ _ _ Hn) as [Hle Hm].
      exists pre, (drop n []). rewrite take_drop. split; [reflexivity|exact Hm]. }
    destruct (match_here rs false (last pre) []) as [[|n]|] eqn:H1.
    + intros H. apply elem_of_cons in H as [->|H]; [apply (Hhit _ _ H1); reflexivity|].
      destruct (match_here rs true (last pre) []) as [n|] eqn:H2;
        [|inversion H].
      apply list_elem_of_singleton in H. apply (Hhit _ _ H2 H).
    + intros H. apply list_elem_of_singleton in H. apply (Hhit _ _ H1 H).
    + intros H. inversion H.
  - assert (Hstep : ∀ k, t ∈ re_findall_from rs (Some c) s k →
                      ∃ pre' post', pre ++ c :: s = pre' ++ t ++ post'
                                    ∧ re_matches rs (last pre') t post').
    { intros k H. rewrite <- (last_snoc c pre) in H.
      destruct (IH _ _ H) as (pre' & post' & Heq & Hm).
      exists pre', post'. rewrite <- Heq, <- app_assoc. split; [reflexivity|exact Hm]. }
    assert (Hhit : ∀ adv n, match_here rs adv (last pre) (c :: s) = Some n →
                     t = take n (c :: s) →
                     ∃ pre' post', pre ++ c :: s = pre' ++ t ++ post'
                                   ∧ re_matches rs (last pre') t post').
    { intros adv n Hn ->. destruct (match_here_sound _ _ _ _ _ Hn) as [Hle Hm].
      exists pre, (drop n (c :: s)). rewrite take_drop.
      split; [reflexivity|exact Hm]. }
    destruct skip as [|k]; cbn [re_findall_from]; [|apply Hstep].
    destruct (match_here rs false (last pre) (c :: s)) as [[|n]|] eqn:H1.
    + intros H. apply elem_of_cons in H as [->|H].
      { apply (Hhit _ _ H1). reflexivity. }
      destruct (match_here rs true (last pre) (c :: s)) as [n|] eqn:H2;
        [|apply (Hstep _ H)].
      apply elem_of_cons in H as [->|H]; [apply (Hhit _ _ H2); reflexivity|].
      apply (Hstep _ H).
    + intros H. apply elem_of_cons in H as [->|H];
        [apply (Hhit _ _ H1); reflexivity|apply (Hstep _ H)].
    + apply Hstep.
Qed.

Lemma re_matches_lit (part : str) (rs : regex) prev (t rest : str) :
  re_matches (re_escape part ++ rs) prev t rest →
  ∃ m t', t = m ++ t' ∧ ci_eq part m ∧ re_matches rs (last_or prev m) t' rest.
Proof.
  revert prev t. induction part as [|p part IH]; intros prev t H.
  - exists [], t. split; [reflexivity|]. split; [constructor|exact H].
  - simpl in H. inversion H as [|p' c rs' prev' t0 rest' Hpc Hm| |]; subst.
    destruct (IH _ _ Hm) as (m & t' & -> & Hci & Hm').
    exists (c :: m), t'. split; [reflexivity|].
    split; [constructor; assumption|]. rewrite last_or_cons. exact Hm'.
Qed.

Lemma similar_pattern_matches (part : str) prev (t rest : str) :
  re_matches (similar_pattern part) prev t rest →
  ∃ w1 m w2,
    t = w1 ++ m ++ w2
    ∧ Forall (λ c, is_word c = true) w1
    ∧ ci_eq part m
    ∧ Forall (λ c, is_word c = true) w2
    ∧ boundary prev (head (t ++ rest)) = true
    ∧ boundary (last_or prev t) (head rest) = true.
Proof.
  unfold similar_pattern. simpl. intros H.
  inversion H as [| | |rs0 prev0 t0 rest0 Hb1 H1]; subst.
  inversion H1 as [| |w1 rs1 prev1 t1 rest1 Hw1 H2|]; subst.
  destruct (re_matches_lit _ _ _ _ _ H2) as (m & t2 & -> & Hci & H3).
  inversion H3 as [| |w2 rs3 prev3 t3 rest3 Hw2 H4|]; subst.
  inversion H4 as [| | |rs5 prev5 t5 rest5 Hb2 H5]; subst.
  inversion H5; subst.
  exists w1, m, w2. rewrite app_nil_r in *.
  repeat split; try assumption.
  rewrite !last_or_app. simpl in Hb2. exact Hb2.
Qed.

Lemma re_findall_whole_token (part values t : str) :
  t ∈ re_findall (similar_pattern part) values → whole_token part values t.
Proof.
  intros H. unfold re_findall in H. change None with (last (@nil ascii)) in H.
  destruct (re_findall_from_sound _ _ _ _ _ H) as (pre & post & Heq & Hm).
  destruct (similar_pattern_matches _ _ _ _ Hm)
    as (w1 & m & w2 & Ht & Hw1 & Hci & Hw2 & Hb1 & Hb2).
  exists pre, post, w1, m, w2. simpl in Heq.
  rewrite last_or_last. repeat split; assumption.
Qed.

(** C7, amended.  The checks write SIMILARS only together with the status
    "Exact".  It is then made of the matches that [re.findall] returns for
    [\b\w*part\w*\b], each stripped of the white space around it, without
    duplicates, joined by "|"; with no match it is left as it was.  Every
    match, before it is stripped, is a stretch of the text between two word
    boundaries that holds the part number up to case, with word characters
    around it. *)
Theorem C7_similars_of_exact (so : set_order) (part values : str) (index : nat)
  (data : table) (row : Row) :
  data !! index = Some row →
  ∃ row',
    SET_DESC_checks so part values index data
      = ([], <[index := row']> data, inr ())
    ∧ (∀ t, t ∈ re_findall (similar_pattern part) values →
         whole_token part values t)
    ∧ (STATUS row' = Some Exact →
         (re_findall (similar_pattern part) values = [] →
            SIMILARS row' = SIMILARS row)
         ∧ (re_findall (similar_pattern part) values ≠ [] →
              ∃ members,
                SIMILARS row' = Some (join (L "|") members)
                ∧ NoDup members
                ∧ ∀ x, x ∈ members
                       ↔ ∃ t, t ∈ re_findall (similar_pattern part) values
                              ∧ x = strip t))
    ∧ (STATUS row' ≠ Some Exact → SIMILARS row' = SIMILARS row).
Proof.
  intros Hrow. exists (checks_row so part values row).
  split; [apply checks_run, Hrow|].
  split; [intros t; apply re_findall_whole_token|].
  unfold checks_row.
  destruct (re_search (re_escape part) values) as [[pre m]|] eqn:Hs.
  - cbn [STATUS SIMILARS]. split; [|congruence]. intros _.
    unfold exact_similars.
    destruct (re_findall (similar_pattern part) values) as [|t0 ts] eqn:Hf.
    + split; [reflexivity|congruence].
    + split; [discriminate|]. intros _. cbn [fmap list_fmap].
      change (list_fmap _ _ ?f ?l) with (f <$> l).
      exists (set_iter so (strip t0 :: (strip <$> ts))).
      split; [reflexivity|]. split; [apply set_iter_NoDup|].
      intros x. rewrite set_iter_elem.
      change (strip t0 :: (strip <$> ts)) with (strip <$> (t0 :: ts)).
      rewrite list_elem_of_fmap. split; intros (y & H1 & H2); eauto.
  - destruct (get_close_matches part (re_split values) cutoff) as [|t l];
      cbn [STATUS SIMILARS with_STATUS]; split;
      try (intros; reflexivity); intros [=].
Qed.

Lemma C7_similars_of_exact_witness :
  SET_DESC_checks so_scan (L "ABC-123") (L "Rev2 ABC-123 datasheet xabc-123y") 0
    [row1 "ABC-123"]
  = ([], [MkRow (L "ABC-123") url1 (Some Exact) (Some (L "ABC-123"))
            (Some (L "ABC-123|xabc-123y"))], inr ()).
Proof.
  destruct (C7_similars_of_exact so_scan (L "ABC-123")
              (L "Rev2 ABC-123 datasheet xabc-123y") 0 [row1 "ABC-123"]
              (row1 "ABC-123") eq_refl) as (row' & Hrun & _).
  rewrite Hrun. vm_compute in Hrun. injection Hrun as <-. reflexivity.
Defined.

(** C7, as stated: a member of SIMILARS that does not contain the part
    number. *)
Lemma C7_counterexample :
  ∃ members,
    SIMILARS <$> (SET_DESC_checks so_scan (L " A") (L "A A A") 0
                    [row1 " A"]).1.2 !! 0
    = Some (Some (join (L "|") members))
    ∧ L "A" ∈ members
    ∧ ¬ occurs_ci (L " A") (L "A").
Proof.
  exists [L "A A"; L "A"]. split; [vm_compute; reflexivity|].
  split; [right; left|].
  intros (pre & m & post & Heq & Hci). apply ci_eq_length in Hci.
  apply (f_equal length) in Heq. rewrite !length_app in Heq.
  simpl in Heq, Hci. lia.
Qed.

(** ** Determinism *)

Lemma set_iter_Permutation (so1 so2 : set_order) (l : list str) :
  set_iter so1 l ≡ₚ set_iter so2 l.
Proof.
  apply NoDup_Permutation; try apply set_iter_NoDup.
  intros x. rewrite !set_iter_elem. reflexivity.
Qed.

(** C9, amended.  Two runs of the checks on one pair of part number and
    text write the same status and the same EQUIVALENT, and SIMILARS strings
    with the same members; the two strings are equal when the two
    interpreters iterate over a set in the same order. *)
Theorem C9_same_outcome_up_to_set_order (so1 so2 : set_order)
  (part values : str) (index : nat) (data : table) (row : Row) :
  data !! index = Some row →
  ∃ row1 row2,
    SET_DESC_checks so1 part values index data
      = ([], <[index := row1]> data, inr ())
    ∧ SET_DESC_checks so2 part values index data
      = ([], <[index := row2]> data, inr ())
    ∧ STATUS row1 = STATUS row2
    ∧ EQUIVALENT row1 = EQUIVALENT row2
    ∧ (SIMILARS row1 = SIMILARS row2
       ∨ ∃ members1 members2,
           SIMILARS row1 = Some (join (L "|") members1)
           ∧ SIMILARS row2 = Some (join (L "|") members2)
           ∧ members1 ≡ₚ members2)
    ∧ ((∀ l, set_iter so1 l = set_iter so2 l) → row1 = row2).
Proof.
  intros Hrow.
  exists (checks_row so1 part values row), (checks_row so2 part values row).
  split; [apply checks_run, Hrow|]. split; [apply checks_run, Hrow|].
  unfold checks_row, exact_similars.
  destruct (re_search (re_escape part) values) as [[pre m]|].
  - cbn [STATUS EQUIVALENT SIMILARS]. split; [reflexivity|].
    split; [reflexivity|].
    destruct (strip <$> re_findall (similar_pattern part) values) as [|t l].
    + split; [left; reflexivity|reflexivity].
    + split.
      * right. eexists _, _. split; [reflexivity|]. split; [reflexivity|].
        apply set_iter_Permutation.
      * intros Hsame. rewrite Hsame. reflexivity.
  - destruct (get_close_matches part (re_split values) cutoff);
      repeat split; auto.
Qed.

Lemma C9_same_outcome_up_to_set_order_witness :
  ∃ ra rb,
    SET_DESC_checks so_scan (L "AB") (L "xAB yAB") 0 [row1 "AB"]
      = ([], <[0 := ra]> [row1 "AB"], inr ())
    ∧ SET_DESC_checks so_back (L "AB") (L "xAB yAB") 0 [row1 "AB"]
      = ([], <[0 := rb]> [row1 "AB"], inr ())
    ∧ STATUS ra = STATUS rb
    ∧ EQUIVALENT ra = EQUIVALENT rb
    ∧ (SIMILARS ra = SIMILARS rb
       ∨ ∃ members1 members2,
           SIMILARS ra = Some (join (L "|") members1)
           ∧ SIMILARS rb = Some (join (L "|") members2)
           ∧ members1 ≡ₚ members2)
    ∧ ((∀ l, set_iter so_scan l = set_iter so_back l) → ra = rb).
Proof.
  apply (C9_same_outcome_up_to_set_order so_scan so_back (L "AB")
           (L "xAB yAB") 0 [row1 "AB"] (row1 "AB")).
  reflexivity.
Defined.

(** C9, as stated: two interpreters, one pair, two SIMILARS strings. *)
Lemma C9_counterexample :
  (SET_DESC_checks so_scan (L "AB") (L "xAB yAB") 0 [row1 "AB"]).1.2
  = [MkRow (L "AB") url1 (Some Exact) (Some (L "AB")) (Some (L "xAB|yAB"))]
  ∧ (SET_DESC_checks so_back (L "AB") (L "xAB yAB") 0 [row1 "AB"]).1.2
    = [MkRow (L "AB") url1 (Some Exact) (Some (L "AB")) (Some (L "yAB|xAB"))]
  ∧ SET_DESC_checks so_scan (L "AB") (L "xAB yAB") 0 [row1 "AB"]
    ≠ SET_DESC_checks so_back (L "AB") (L "xAB yAB") 0 [row1 "AB"].
Proof.
  split; [vm_compute; reflexivity|]. split; [vm_compute; reflexivity|].
  vm_compute. discriminate.
Qed.

(** ** The order of strings and of scored tokens *)

Lemma str_ltb_irrefl (s : str) : str_ltb s s = false.
Proof.
  induction s as [|c s IH]; [reflexivity|]. simpl.
  rewrite Nat.ltb_irrefl. exact IH.
Qed.

(** [s <= t] as [not (t < s)] is transitive. *)
Lemma str_le_trans (s t u : str) :
  str_ltb t s = false → str_ltb u t = false → str_ltb u s = false.
Proof.
  revert t u. induction s as [|c s IH]; intros [|d t] [|e u]; simpl;
    try congruence.
  destruct (Nat.ltb_spec (code c) (code d)), (Nat.ltb_spec (code d) (code c)),
    (Nat.ltb_spec (code d) (code e)), (Nat.ltb_spec (code e) (code d)),
    (Nat.ltb_spec (code c) (code e)), (Nat.ltb_spec (code e) (code c));
    try congruence; try lia.
  apply IH.
Qed.

Lemma scored_gt_false (x y : Q * str) :
  scored_gt x y = false ↔ scored_le x y.
Proof.
  unfold scored_gt, scored_le.
  destruct (Qeq_bool x.1 y.1) eqn:E.
  - apply Qeq_bool_iff in E. split.
    + intros H. right. split; assumption.
    + intros [H|[_ H]]; [|exact H]. rewrite E in H.
      destruct (Qlt_irrefl _ H).
  - apply Qeq_bool_neq in E. rewrite negb_false_iff, Qle_bool_iff. split.
    + intros H. left. apply Qle_lteq in H as [H|H]; [exact H|contradiction].
    + intros [H|[H _]]; [apply Qlt_le_weak, H|contradiction].
Qed.

Lemma scored_le_refl (x : Q * str) : scored_le x x.
Proof. right. split; [reflexivity|apply str_ltb_irrefl]. Qed.

Lemma scored_le_trans (x y z : Q * str) :
  scored_le x y → scored_le y z → scored_le x z.
Proof.
  unfold scored_le. intros [Hlt|[Heq Hs]] [Hlt'|[Heq' Hs']].
  - left. eapply Qlt_trans; eassumption.
  - left. rewrite <- Heq'. exact Hlt.
  - left. rewrite Heq. exact Hlt'.
  - right. split; [rewrite Heq, Heq'; reflexivity|].
    apply (str_le_trans _ _ _ Hs Hs').
Qed.

Lemma scored_le_total (x y : Q * str) :
  scored_gt x y = true → scored_le y x.
Proof.
  unfold scored_gt, scored_le.
  destruct (Qeq_bool x.1 y.1) eqn:E.
  - apply Qeq_bool_iff in E. intros H. right. split; [symmetry; exact E|].
    destruct (str_ltb x.2 y.2) eqn:E2; [|reflexivity].
    exfalso. revert H E2. generalize (x.2) (y.2). clear.
    intros s. induction s as [|c s IH]; intros [|d t]; simpl; try congruence.
    destruct (Nat.ltb_spec (code c) (code d)), (Nat.ltb_spec (code d) (code c));
      try congruence; try lia.
    intros H1 H2. apply (IH _ H1 H2).
  - rewrite negb_true_iff. intros H. left. apply Qnot_le_lt. intros Hle.
    apply Qle_bool_iff in Hle. congruence.
Qed.

(** The running maximum of [max] is a greatest item. *)
Lemma py_max_foldl (best : Q * str) (items : list (Q * str)) :
  let r := foldl (λ best it, if scored_gt it best then it else best) best items in
  (r = best ∨ r ∈ items)
  ∧ scored_le best r
  ∧ ∀ y, y ∈ items → scored_le y r.
Proof.
  revert best. induction items as [|it items IH]; intros best; cbn [foldl].
  - split; [left; reflexivity|]. split; [apply scored_le_refl|].
    intros y H. inversion H.
  - destruct (scored_gt it best) eqn:Hgt.
    + destruct (IH it) as (Hin & Hle & Hall). cbn zeta in *.
      split; [right; destruct Hin as [->|Hin]; [left|right; exact Hin]|].
      split.
      * eapply scored_le_trans; [apply scored_le_total, Hgt|exact Hle].
      * intros y Hy. apply elem_of_cons in Hy as [->|Hy]; [exact Hle|].
        apply Hall, Hy.
    + destruct (IH best) as (Hin & Hle & Hall). cbn zeta in *.
      split; [destruct Hin as [->|Hin]; [left; reflexivity|right; right; exact Hin]|].
      split; [exact Hle|].
      intros y Hy. apply elem_of_cons in Hy as [->|Hy]; [|apply Hall, Hy].
      eapply scored_le_trans; [apply scored_gt_false, Hgt|exact Hle].
Qed.

Lemma py_max_spec (items : list (Q * str)) :
  match py_max items with
  | Some r => r ∈ items ∧ ∀ y, y ∈ items → scored_le y r
  | None => items = []
  end.
Proof.
  destruct items as [|x rest]; [reflexivity|]. cbn [py_max].
  destruct (py_max_foldl x rest) as (Hin & Hle & Hall). cbn zeta in *.
  split.
  - destruct Hin as [->|Hin]; [left|right; exact Hin].
  - intros y Hy. apply elem_of_cons in Hy as [->|Hy]; [exact Hle|].
    apply Hall, Hy.
Qed.

(** ** The quick upper bounds of difflib *)

Lemma chars_cons (c : ascii) (s : str) : chars (c :: s) = {[+ c +]} ⊎ chars s.
Proof. reflexivity. Qed.

Lemma chars_app (s t : str) : chars (s ++ t) = chars s ⊎ chars t.
Proof. apply list_to_set_disj_app. Qed.

Lemma size_chars (s : str) : size (chars s) = length s.
Proof.
  induction s as [|c s IH]; [apply gmultiset_size_empty|].
  rewrite chars_cons, gmultiset_size_disj_union, gmultiset_size_singleton, IH.
  reflexivity.
Qed.

Lemma fullbcount_spec (b : str) (m : gmap ascii Z) (c : ascii) :
  default 0%Z (foldl fullbcount_add m b !! c)
  = (default 0 (m !! c) + Z.of_nat (multiplicity c (chars b)))%Z.
Proof.
  revert m. induction b as [|x b IH]; intros m.
  - simpl. unfold chars. rewrite list_to_set_disj_nil, multiplicity_empty. lia.
  - cbn [foldl]. rewrite IH, chars_cons, multiplicity_disj_union,
      multiplicity_singleton.
    unfold fullbcount_add. destruct (decide (c = x)) as [->|Hne].
    + rewrite lookup_insert_eq. simpl. lia.
    + rewrite lookup_insert_ne by congruence. lia.
Qed.

Lemma qr_loop (fb : gmap ascii Z) (a : str) (avail : gmap ascii Z) (m : nat)
  (X : gmultiset ascii) :
  (∀ c, multiplicity c X = Z.to_nat (qr_left fb avail c)) →
  (foldl (qr_step fb) (avail, m) a).2 = m + size (chars a ∩ X).
Proof.
  revert avail m X. induction a as [|c a IH]; intros avail m X HX.
  - simpl. replace (chars [] ∩ X) with (∅ : gmultiset ascii)
      by (unfold chars; multiset_solver).
    rewrite gmultiset_size_empty. lia.
  - cbn [foldl]. unfold qr_step at 2. cbn [fst snd].
    fold (qr_left fb avail c).
    destruct (Z.ltb_spec 0 (qr_left fb avail c)) as [Hpos|Hneg].
    + rewrite (IH _ _ (X ∖ {[+ c +]})).
      * assert (Hc : 0 < multiplicity c X) by (rewrite HX; lia).
        replace (chars (c :: a) ∩ X)
          with ({[+ c +]} ⊎ (chars a ∩ (X ∖ {[+ c +]}))).
        { rewrite gmultiset_size_disj_union, gmultiset_size_singleton. lia. }
        rewrite chars_cons.
        apply gmultiset_eq. intros x.
        rewrite !multiplicity_disj_union, !multiplicity_intersection,
          !multiplicity_disj_union, multiplicity_difference,
          !multiplicity_singleton.
        repeat case_decide; subst; try congruence; lia.
      * intros d. rewrite multiplicity_difference, multiplicity_singleton, HX.
        unfold qr_left. destruct (decide (d = c)) as [->|Hne].
        -- rewrite lookup_insert_eq. fold (qr_left fb avail c). lia.
        -- rewrite lookup_insert_ne by congruence. lia.
    + rewrite (IH _ _ X).
      * replace (chars (c :: a) ∩ X) with (chars a ∩ X); [reflexivity|].
        rewrite chars_cons. specialize (HX c).
        apply gmultiset_eq. intros x.
        rewrite !multiplicity_intersection, !multiplicity_disj_union,
          multiplicity_singleton.
        repeat case_decide; subst; try congruence; lia.
      * intros d. rewrite HX. unfold qr_left.
        destruct (decide (d = c)) as [->|Hne].
        -- rewrite lookup_insert_eq. fold (qr_left fb avail c). lia.
        -- rewrite lookup_insert_ne by congruence. reflexivity.
Qed.

Lemma quick_matches_spec (a b : str) :
  quick_matches a b = size (chars a ∩ chars b).
Proof.
  unfold quick_matches. rewrite (qr_loop _ _ _ _ (chars b)); [reflexivity|].
  intros c. unfold qr_left. rewrite lookup_empty, fullbcount_spec, lookup_empty.
  simpl. lia.
Qed.

Lemma quick_matches_le_min (a b : str) :
  quick_matches a b ≤ min (length a) (length b).
Proof.
  rewrite quick_matches_spec, <- (size_chars a), <- (size_chars b).
  apply Nat.min_glb; apply gmultiset_subseteq_size; multiset_solver.
Qed.

(** A block [k] between two parts on each side: what the parts have in
    common adds up. *)
Lemma common_split (A1 K A3 B1 B3 : gmultiset ascii) :
  size (A1 ∩ B1) + size K + size (A3 ∩ B3)
  ≤ size ((A1 ⊎ K ⊎ A3) ∩ (B1 ⊎ K ⊎ B3)).
Proof.
  rewrite <- !gmultiset_size_disj_union. apply gmultiset_subseteq_size.
  intros x.
  rewrite !multiplicity_intersection, !multiplicity_disj_union,
    !multiplicity_intersection. lia.
Qed.

(** [_calculate_ratio] grows with the number of matches. *)
Lemma calculate_ratio_mono (m1 m2 len : nat) :
  m1 ≤ m2 → (calculate_ratio m1 len <= calculate_ratio m2 len)%Q.
Proof.
  intros H. unfold calculate_ratio. destruct (len =? 0).
  - apply Qle_refl.
  - unfold Qle. simpl. apply Z.mul_le_mono_nonneg_r; lia.
Qed.

(** ** The longest matching block *)

Lemma b2j_add_sound (b : str) (l : list (nat * ascii))
  (m : gmap ascii (list nat)) :
  (∀ ie, ie ∈ l → b !! ie.1 = Some ie.2) →
  (∀ c js j, m !! c = Some js → j ∈ js → b !! j = Some c) →
  ∀ c js j, foldl b2j_add m l !! c = Some js → j ∈ js → b !! j = Some c.
Proof.
  revert m. induction l as [|[i x] l IH]; intros m Hl Hm; [exact Hm|].
  cbn [foldl]. apply IH.
  - intros ie Hie. apply Hl. right. exact Hie.
  - intros c js j. unfold b2j_add. cbn [fst snd].
    destruct (decide (c = x)) as [->|Hne].
    + rewrite lookup_insert_eq. intros [= <-] Hj.
      apply elem_of_app in Hj as [Hj|Hj].
      * destruct (m !! x) as [js0|] eqn:E; [|inversion Hj].
        apply (Hm _ _ _ E Hj).
      * apply list_elem_of_singleton in Hj as ->.
        apply (Hl (i, x)). left.
    + rewrite lookup_insert_ne by congruence. apply Hm.
Qed.

Lemma chain_b_sound (b : str) (c : ascii) (js : list nat) (j : nat) :
  chain_b b !! c = Some js → j ∈ js → b !! j = Some c.
Proof.
  assert (H0 : ∀ c js j, foldl b2j_add ∅ (imap pair b) !! c = Some js →
                 j ∈ js → b !! j = Some c).
  { apply b2j_add_sound.
    - intros [i x] H. apply elem_of_lookup_imap in H as (i' & x' & [= -> ->] & H).
      exact H.
    - intros c' js' j' H. rewrite lookup_empty in H. discriminate. }
  unfold chain_b. destruct (200 <=? length b); [|apply H0].
  intros H. apply map_lookup_filter_Some in H as [H _]. apply (H0 _ _ _ H).
Qed.

Lemma flm_inner_inv (a b : str) (alo ahi blo bhi i : nat) (c : ascii)
  (j2len : gmap nat nat) (js : list nat) (st : flm_state)
  (newj2len : gmap nat nat) :
  alo ≤ i → i < ahi →
  a !! i = Some c →
  (∀ j, j ∈ js → b !! j = Some c) →
  (∀ j k, j2len !! j = Some k → j < bhi ∧ block_ends a b alo blo i (j + 1) k) →
  flm_inv a b alo ahi blo bhi (i + 1) st newj2len →
  flm_inv a b alo ahi blo bhi (i + 1)
    (flm_inner i blo bhi j2len js st newj2len).1
    (flm_inner i blo bhi j2len js st newj2len).2.
Proof.
  intros Hlo Hhi Ha. revert st newj2len.
  induction js as [|j js IH]; intros st newj2len Hjs Hprev Hinv; [exact Hinv|].
  cbn [flm_inner].
  assert (Hjs' : ∀ j, j ∈ js → b !! j = Some c).
  { intros j' Hj'. apply Hjs. right. exact Hj'. }
  destruct (Nat.ltb_spec j blo) as [Hjlo|Hjlo]; [apply IH; assumption|].
  destruct (Nat.leb_spec bhi j) as [Hjhi|Hjhi]; [exact Hinv|].
  set (k := match j with 0 => 0 | S j' => default 0 (j2len !! j') end + 1).
  assert (Hk : block_ends a b alo blo (i + 1) (j + 1) k).
  { assert (Hone : block_ends a b alo blo (i + 1) (j + 1) 1).
    { repeat split; try lia. intros d Hd.
      replace (i + 1 - 1 + d) with i by lia.
      replace (j + 1 - 1 + d) with j by lia.
      rewrite Ha. symmetry. apply Hjs. left. }
    unfold k. destruct j as [|j']; [exact Hone|].
    destruct (j2len !! j') as [k'|] eqn:E; [|exact Hone].
    change (default 0 (Some k')) with k'.
    destruct (Hprev _ _ E) as [_ (H1 & H2 & H3)].
    repeat split; try lia. intros d Hd.
    destruct (decide (d = k')) as [->|Hne].
    - replace (i + 1 - (k' + 1) + k') with i by lia.
      replace (S j' + 1 - (k' + 1) + k') with (S j') by lia.
      rewrite Ha. symmetry. apply Hjs. left.
    - specialize (H3 d ltac:(lia)).
      replace (i + 1 - (k' + 1) + d) with (i - k' + d) by lia.
      replace (S j' + 1 - (k' + 1) + d) with (j' + 1 - k' + d) by lia.
      exact H3. }
  apply IH; [assumption|assumption|].
  destruct Hinv as [Hst Hnew]. split.
  - destruct (Nat.ltb_spec (bestsize st) k); [|exact Hst].
    destruct Hk as (H1 & H2 & H3). unfold valid_block. cbn [fst snd besti bestj bestsize].
    repeat split; try lia. intros d Hd.
    specialize (H3 d Hd).
    replace (i + 1 - k + d) with (i + 1 - k + d) in H3 by lia.
    replace (j + 1 - k + d) with (j + 1 - k + d) in H3 by lia.
    exact H3.
  - intros j0 k0. destruct (decide (j0 = j)) as [->|Hne].
    + rewrite lookup_insert_eq. intros [= <-]. split; [lia|exact Hk].
    + rewrite lookup_insert_ne by congruence. apply Hnew.
Qed.

Lemma flm_outer_inv (a b : str) (alo ahi blo bhi : nat) (n i0 : nat)
  (acc : flm_state * gmap nat nat) :
  ahi ≤ length a →
  alo ≤ i0 → i0 + n ≤ ahi →
  flm_inv a b alo ahi blo bhi i0 acc.1 acc.2 →
  let r := foldl (flm_outer a (chain_b b) blo bhi) acc (seq i0 n) in
  flm_inv a b alo ahi blo bhi (i0 + n) r.1 r.2.
Proof.
  intros Hlen. revert i0 acc. induction n as [|n IH]; intros i0 acc Hlo Hhi Hinv.
  - simpl. rewrite Nat.add_0_r. exact Hinv.
  - cbn [seq foldl]. cbn zeta.
    replace (i0 + S n) with (S i0 + n) by lia.
    apply IH; [lia|lia|].
    unfold flm_outer.
    destruct (a !! i0) as [c|] eqn:Ha.
    2:{ apply lookup_ge_None in Ha. lia. }
    replace (S i0) with (i0 + 1) by lia.
    apply (flm_inner_inv a b alo ahi blo bhi i0 c); try assumption; try lia.
    + intros j Hj. destruct (chain_b b !! c) as [js|] eqn:E; [|inversion Hj].
      apply (chain_b_sound _ _ _ _ E Hj).
    + apply Hinv.
    + split; [apply Hinv|]. intros j k H. rewrite lookup_empty in H.
      discriminate.
Qed.

Lemma flm_extend_left_valid (a b : str) (alo ahi blo bhi : nat)
  (bi bj bs : nat) :
  valid_block a b alo ahi blo bhi (bi, bj, bs) →
  let st := flm_extend_left a b alo blo bi bj bs in
  valid_block a b alo ahi blo bhi (besti st, bestj st, bestsize st).
Proof.
  revert bj bs. induction bi as [|i' IH]; intros bj bs Hv; [exact Hv|].
  cbn [flm_extend_left]. destruct bj as [|j']; [exact Hv|].
  destruct ((alo <? S i') && (blo <? S j') && bool_decide (a !! i' = b !! j'))
    eqn:E; [|exact Hv].
  apply andb_true_iff in E as [E E3]. apply andb_true_iff in E as [E1 E2].
  apply Nat.ltb_lt in E1, E2. apply bool_decide_eq_true in E3.
  apply IH. destruct Hv as (H1 & H2 & H3 & H4 & H5). cbn [fst snd] in *.
  unfold valid_block. cbn [fst snd]. repeat split; try lia.
  intros [|d] Hd.
  - rewrite !Nat.add_0_r. exact E3.
  - replace (i' + S d) with (S i' + d) by lia.
    replace (j' + S d) with (S j' + d) by lia. apply H5. lia.
Qed.

Lemma flm_extend_right_valid (a b : str) (alo ahi blo bhi : nat)
  (bi bj bs fuel : nat) :
  valid_block a b alo ahi blo bhi (bi, bj, bs) →
  let st := flm_extend_right a b ahi bhi bi bj bs fuel in
  valid_block a b alo ahi blo bhi (besti st, bestj st, bestsize st).
Proof.
  revert bs. induction fuel as [|fuel IH]; intros bs Hv; [exact Hv|].
  cbn [flm_extend_right].
  destruct ((bi + bs <? ahi) && (bj + bs <? bhi)
            && bool_decide (a !! (bi + bs) = b !! (bj + bs))) eqn:E;
    [|exact Hv].
  apply andb_true_iff in E as [E E3]. apply andb_true_iff in E as [E1 E2].
  apply Nat.ltb_lt in E1, E2. apply bool_decide_eq_true in E3.
  apply IH. destruct Hv as (H1 & H2 & H3 & H4 & H5). cbn [fst snd] in *.
  unfold valid_block. cbn [fst snd]. repeat split; try lia.
  intros d Hd. destruct (decide (d = bs)) as [->|Hne]; [exact E3|].
  apply H5. lia.
Qed.

Lemma find_longest_match_valid (a b : str) (alo ahi blo bhi : nat) :
  valid_region a b alo ahi blo bhi →
  valid_block a b alo ahi blo bhi
    (find_longest_match a b (chain_b b) alo ahi blo bhi).
Proof.
  intros (H1 & H2 & H3 & H4). unfold find_longest_match.
  pose proof (flm_outer_inv a b alo ahi blo bhi (ahi - alo) alo
                (FlmState alo blo 0, ∅) H2 (Nat.le_refl _) ltac:(lia)) as Hinv.
  cbn zeta in Hinv.
  destruct Hinv as [Hv _].
  { split.
    - unfold valid_block. cbn [fst snd besti bestj bestsize].
      repeat split; try lia.
    - intros j k H. cbn [snd] in H. rewrite lookup_empty in H. discriminate. }
  set (st1 := (foldl _ _ _).1) in *.
  pose proof (flm_extend_left_valid a b alo ahi blo bhi _ _ _ Hv) as Hv2.
  cbn zeta in Hv2. set (st2 := flm_extend_left _ _ _ _ _ _ _) in *.
  apply (flm_extend_right_valid a b alo ahi blo bhi _ _ _ _ Hv2).
Qed.

(** ** The matching blocks and the three ratios *)

Lemma slice_split (l : str) (lo mid hi : nat) :
  lo ≤ mid → mid ≤ hi → slice l lo hi = slice l lo mid ++ slice l mid hi.
Proof.
  intros H1 H2. unfold slice.
  replace (hi - lo) with ((mid - lo) + (hi - mid)) by lia.
  rewrite <- take_take_drop, drop_drop.
  replace (lo + (mid - lo)) with mid by lia. reflexivity.
Qed.

Lemma slice_full (l : str) : slice l 0 (length l) = l.
Proof. unfold slice. rewrite drop_0, Nat.sub_0_r. apply firstn_all. Qed.

Lemma length_slice (l : str) (lo hi : nat) :
  lo ≤ hi → hi ≤ length l → length (slice l lo hi) = hi - lo.
Proof.
  intros H1 H2. unfold slice. rewrite length_take, length_drop. lia.
Qed.

Lemma block_slices (a b : str) (alo ahi blo bhi i j k : nat) :
  valid_region a b alo ahi blo bhi →
  valid_block a b alo ahi blo bhi (i, j, k) →
  slice a i (i + k) = slice b j (j + k).
Proof.
  intros (R1 & R2 & R3 & R4) (H1 & H2 & H3 & H4 & H5). cbn [fst snd] in *.
  unfold slice. replace (i + k - i) with k by lia.
  replace (j + k - j) with k by lia.
  apply list_eq. intros d. destruct (decide (d < k)) as [Hd|Hd].
  - rewrite !lookup_take_lt, !lookup_drop by assumption. apply H5, Hd.
  - rewrite !lookup_take_ge by lia. reflexivity.
Qed.

Lemma block_common (a b : str) (alo ahi blo bhi i j k : nat) :
  valid_region a b alo ahi blo bhi →
  valid_block a b alo ahi blo bhi (i, j, k) →
  k + common a b (alo, i, blo, j) + common a b (i + k, ahi, j + k, bhi)
  ≤ common a b (alo, ahi, blo, bhi).
Proof.
  intros HR HB. pose proof (block_slices _ _ _ _ _ _ _ _ _ HR HB) as HK.
  destruct HR as (R1 & R2 & R3 & R4), HB as (H1 & H2 & H3 & H4 & H5).
  cbn [fst snd] in *. unfold common. cbn [fst snd].
  rewrite (slice_split a alo i ahi), (slice_split a i (i + k) ahi) by lia.
  rewrite (slice_split b blo j bhi), (slice_split b j (j + k) bhi) by lia.
  rewrite !chars_app, <- HK.
  pose proof (common_split (chars (slice a alo i)) (chars (slice a i (i + k)))
                (chars (slice a (i + k) ahi)) (chars (slice b blo j))
                (chars (slice b (j + k) bhi))) as Hc.
  rewrite size_chars, length_slice in Hc by lia.
  rewrite !(assoc_L (⊎)). lia.
Qed.

Lemma sizes_app (l1 l2 : list (nat * nat * nat)) :
  sizes (l1 ++ l2) = sizes l1 + sizes l2.
Proof. apply sum_list_with_app. Qed.

(** The blocks found have no more characters than the two strings share. *)
Lemma gmb_loop_bound (a b : str) (fuel : nat)
  (queue : list (nat * nat * nat * nat)) (blocks : list (nat * nat * nat)) :
  Forall (region_ok a b) queue →
  sizes (gmb_loop a b (chain_b b) fuel queue blocks)
  ≤ sizes blocks + sum_list_with (common a b) queue.
Proof.
  revert queue blocks. induction fuel as [|fuel IH]; intros queue blocks HQ.
  - simpl. lia.
  - destruct queue as [|[[[alo ahi] blo] bhi] queue]; [simpl; lia|].
    cbn [gmb_loop]. inversion HQ as [|r q HR HQ']; subst.
    pose proof (find_longest_match_valid a b alo ahi blo bhi HR) as HB.
    destruct (find_longest_match a b (chain_b b) alo ahi blo bhi)
      as [[i j] k] eqn:Ef.
    destruct (Nat.eqb_spec k 0) as [->|Hk].
    + etransitivity; [apply IH, HQ'|]. cbn [sum_list_with]. lia.
    + pose proof (block_common _ _ _ _ _ _ _ _ _ HR HB) as Hc.
      destruct HR as (R1 & R2 & R3 & R4), HB as (H1 & H2 & H3 & H4 & H5).
      cbn [fst snd] in *.
      etransitivity; [apply IH|].
      * destruct ((i + k <? ahi) && (j + k <? bhi)),
          ((alo <? i) && (blo <? j)); repeat constructor;
          cbn [fst snd]; try lia; assumption.
      * rewrite sizes_app. unfold sizes at 2. cbn [sum_list_with snd].
        destruct ((i + k <? ahi) && (j + k <? bhi)),
          ((alo <? i) && (blo <? j)); cbn [sum_list_with]; lia.
Qed.

(** The fuel of [get_matching_blocks] is never used up. *)
Lemma gmb_loop_enough (a b : str) (fuel extra : nat)
  (queue : list (nat * nat * nat * nat)) (blocks : list (nat * nat * nat)) :
  Forall (region_ok a b) queue →
  turns queue ≤ fuel →
  gmb_loop a b (chain_b b) (fuel + extra) queue blocks
  = gmb_loop a b (chain_b b) fuel queue blocks.
Proof.
  revert queue blocks. induction fuel as [|fuel IH]; intros queue blocks HQ Ht.
  - destruct queue as [|r queue]; [destruct extra; reflexivity|].
    unfold turns in Ht. cbn [sum_list_with] in Ht. lia.
  - destruct queue as [|[[[alo ahi] blo] bhi] queue]; [reflexivity|].
    cbn [Nat.add gmb_loop]. inversion HQ as [|r q HR HQ']; subst.
    pose proof (find_longest_match_valid a b alo ahi blo bhi HR) as HB.
    destruct (find_longest_match a b (chain_b b) alo ahi blo bhi)
      as [[i j] k] eqn:Ef.
    unfold turns in Ht. cbn [sum_list_with fst snd] in Ht.
    fold (turns queue) in Ht.
    destruct HR as (R1 & R2 & R3 & R4), HB as (H1 & H2 & H3 & H4 & H5).
    cbn [fst snd] in *.
    destruct (Nat.eqb_spec k 0) as [->|Hk].
    + apply IH; [assumption|lia].
    + apply IH.
      * destruct ((i + k <? ahi) && (j + k <? bhi)),
          ((alo <? i) && (blo <? j)); repeat constructor;
          cbn [fst snd]; try lia; assumption.
      * destruct ((i + k <? ahi) && (j + k <? bhi)),
          ((alo <? i) && (blo <? j)); unfold turns;
          cbn [sum_list_with fst snd]; fold (turns queue); lia.
Qed.

Lemma get_matching_blocks_fuel (a b : str) (extra : nat) :
  gmb_loop a b (chain_b b) (2 * length a + 1 + extra)
    [(0, length a, 0, length b)] []
  = gmb_loop a b (chain_b b) (2 * length a + 1)
      [(0, length a, 0, length b)] [].
Proof.
  apply gmb_loop_enough.
  - repeat constructor; cbn [fst snd]; lia.
  - unfold turns. cbn [sum_list_with fst snd]. lia.
Qed.

Lemma gmb_collapse_sizes (i1 j1 k1 : nat) (blocks : list (nat * nat * nat)) :
  sizes (gmb_collapse i1 j1 k1 blocks) = k1 + sizes blocks.
Proof.
  revert i1 j1 k1. induction blocks as [|[[i2 j2] k2] blocks IH];
    intros i1 j1 k1; cbn [gmb_collapse].
  - destruct (Nat.eqb_spec k1 0) as [->|]; unfold sizes; simpl; lia.
  - destruct ((i1 + k1 =? i2) && (j1 + k1 =? j2)).
    + rewrite IH. unfold sizes. cbn [sum_list_with snd]. lia.
    + rewrite sizes_app, IH.
      destruct (Nat.eqb_spec k1 0) as [->|]; unfold sizes;
        cbn [sum_list_with snd]; lia.
Qed.

Lemma matches_le_quick (a b : str) :
  sizes (get_matching_blocks a b) ≤ quick_matches a b.
Proof.
  unfold get_matching_blocks. cbn zeta.
  rewrite sizes_app, gmb_collapse_sizes.
  unfold sizes at 1 2. rewrite merge_sort_Permutation. fold (sizes).
  cbn [sum_list_with snd].
  pose proof (gmb_loop_bound a b (2 * length a + 1)
                [(0, length a, 0, length b)] []) as H.
  unfold sizes in *. cbn [sum_list_with] in H. unfold common in H.
  cbn [fst snd] in H. rewrite !slice_full in H.
  rewrite quick_matches_spec.
  etransitivity; [|etransitivity; [apply H|]]; [lia| |lia].
  repeat constructor; cbn [fst snd]; lia.
Qed.

Lemma ratio_le_quick_ratio (a b : str) : (ratio a b <= quick_ratio a b)%Q.
Proof. apply calculate_ratio_mono, matches_le_quick. Qed.

Lemma quick_ratio_le_real_quick_ratio (a b : str) :
  (quick_ratio a b <= real_quick_ratio a b)%Q.
Proof. apply calculate_ratio_mono, quick_matches_le_min. Qed.

(** The three tests of [get_close_matches] come down to the last one. *)
Lemma passes_iff (c : Q) (word x : str) :
  passes c word x = true ↔ (c <= ratio x word)%Q.
Proof.
  unfold passes. rewrite !andb_true_iff, !Qle_bool_iff. split.
  - intros [_ H]. exact H.
  - intros H. split; [split|exact H].
    + eapply Qle_trans; [exact H|]. eapply Qle_trans;
        [apply ratio_le_quick_ratio|apply quick_ratio_le_real_quick_ratio].
    + eapply Qle_trans; [exact H|apply ratio_le_quick_ratio].
Qed.

(** The fuel of the second extension loop is never used up. *)
Lemma flm_extend_right_enough (a b : str) (ahi bhi bi bj bs fuel extra : nat) :
  ahi ≤ bi + bs + fuel →
  flm_extend_right a b ahi bhi bi bj bs (fuel + extra)
  = flm_extend_right a b ahi bhi bi bj bs fuel.
Proof.
  revert bs. induction fuel as [|fuel IH]; intros bs H.
  - destruct extra as [|extra]; [reflexivity|]. cbn [Nat.add flm_extend_right].
    destruct (Nat.ltb_spec (bi + bs) ahi); [lia|]. reflexivity.
  - cbn [Nat.add flm_extend_right].
    destruct (_ && _ && _); [|reflexivity]. apply IH. lia.
Qed.

(** The tokens of [re.split] hold no separator. *)
Lemma re_split_tokens (s : str) (t : str) (c : ascii) :
  t ∈ re_split s → c ∈ t → is_sep c = false.
Proof.
  revert t. induction s as [|x s IH]; intros t Ht Hc.
  - apply list_elem_of_singleton in Ht as ->. inversion Hc.
  - cbn [re_split] in Ht. destruct (is_sep x) eqn:Ex.
    + apply elem_of_cons in Ht as [->|Ht]; [inversion Hc|]. apply (IH t Ht Hc).
    + destruct (re_split s) as [|tok toks] eqn:Es.
      * apply list_elem_of_singleton in Ht as ->.
        apply list_elem_of_singleton in Hc as ->. exact Ex.
      * apply elem_of_cons in Ht as [->|Ht].
        -- apply elem_of_cons in Hc as [->|Hc]; [exact Ex|].
           apply (IH tok); [left|exact Hc].
        -- apply (IH t); [right; exact Ht|exact Hc].
Qed.

(** [get_close_matches] with [n=1]: nothing when no candidate reaches the
    cutoff; else one candidate of the greatest score and, among those, the
    greatest string. *)
Lemma get_close_matches_spec (word : str) (possibilities : list str) (c : Q) :
  match get_close_matches word possibilities c with
  | [] => ∀ x, x ∈ possibilities → ¬ (c <= ratio x word)%Q
  | t :: rest =>
      rest = [] ∧ t ∈ possibilities ∧ (c <= ratio t word)%Q
      ∧ ∀ x, x ∈ possibilities →
          (ratio x word <= ratio t word)%Q
          ∧ ((ratio x word == ratio t word)%Q → str_ltb t x = false)
  end.
Proof.
  unfold get_close_matches, nlargest1.
  set (result := omap _ possibilities).
  assert (Hres : ∀ y, y ∈ result ↔
             y.2 ∈ possibilities ∧ (c <= ratio y.2 word)%Q
             ∧ y.1 = ratio y.2 word).
  { intros [r x]. unfold result. rewrite list_elem_of_omap. cbn [fst snd]. split.
    - intros (x' & Hx' & H). destruct (passes c word x') eqn:Hp; [|discriminate].
      injection H as <- <-. apply passes_iff in Hp. auto.
    - intros (Hx & Hc & ->). exists x. split; [exact Hx|].
      apply passes_iff in Hc. rewrite Hc. reflexivity. }
  pose proof (py_max_spec result) as Hmax.
  destruct (py_max result) as [[r t]|].
  - cbn [fmap list_fmap snd]. destruct Hmax as [Hin Hall].
    apply Hres in Hin as (Ht & Hc & Hr). cbn [fst snd] in *. subst r.
    split; [reflexivity|]. split; [exact Ht|]. split; [exact Hc|].
    intros x Hx. destruct (Qlt_le_dec (ratio x word) c) as [Hlt|Hge].
    + split.
      * apply Qlt_le_weak. eapply Qlt_le_trans; eassumption.
      * intros Heq. rewrite Heq in Hlt. destruct (Qlt_not_le _ _ Hlt Hc).
    + assert (Hy : (ratio x word, x) ∈ result) by (apply Hres; auto).
      destruct (Hall _ Hy) as [Hlt|[Heq Hs]]; cbn [fst snd] in *.
      * split; [apply Qlt_le_weak, Hlt|]. intros Heq. rewrite Heq in Hlt.
        destruct (Qlt_irrefl _ Hlt).
      * split; [rewrite Heq; apply Qle_refl|]. intros _. exact Hs.
  - cbn [fmap list_fmap]. intros x Hx Hc.
    assert (Hy : (ratio x word, x) ∈ result) by (apply Hres; auto).
    rewrite Hmax in Hy. inversion Hy.
Qed.

(** C2, amended.  A request whose resolved text does not contain the part
    number, but has a token (a piece between spaces and line feeds) with a
    similarity ratio of at least 0.65, gets the status "Includes or Missed
    Suffixes".  EQUIVALENT is a token of the highest ratio and, among the
    tokens of that ratio, the greatest one in the order of strings, wherever
    it stands in the text.  SIMILARS is not written. *)
Theorem C2_partial_match_on_best_token (w : World) (so : set_order)
  (pdf_data : gmap str str) (part_col pdf_col : Row → str) (index : nat)
  (data : table) (row : Row) (tr : list event) (values : str) :
  data !! index = Some row →
  resolves_to w pdf_data (pdf_col row) tr values →
  ¬ occurs_ci (part_col row) values →
  (∃ x, x ∈ re_split values ∧ (cutoff <= ratio x (part_col row))%Q) →
  ∃ t row',
    SET_DESC w so pdf_data part_col pdf_col index data
      = (tr, <[index := row']> data, inr ())
    ∧ STATUS row' = Some Includes_or_Missed_Suffixes
    ∧ EQUIVALENT row' = Some t
    ∧ SIMILARS row' = SIMILARS row
    ∧ t ∈ re_split values
    ∧ (∀ c, c ∈ t → is_sep c = false)
    ∧ (cutoff <= ratio t (part_col row))%Q
    ∧ ∀ x, x ∈ re_split values →
        (ratio x (part_col row) <= ratio t (part_col row))%Q
        ∧ ((ratio x (part_col row) == ratio t (part_col row))%Q →
           str_ltb t x = false).
Proof.
  intros Hrow Hres Hno (x & Hx & Hcx).
  assert (Hs : re_search (re_escape (part_col row)) values = None).
  { destruct (re_search (re_escape (part_col row)) values) as [[pre m]|] eqn:E;
      [|reflexivity].
    destruct (re_search_lit_Some _ _ _ _ _ E) as (post & Hv & Hci & _).
    destruct Hno. exists pre, m, post. auto. }
  pose proof (get_close_matches_spec (part_col row) (re_split values) cutoff)
    as Hg.
  destruct (get_close_matches (part_col row) (re_split values) cutoff)
    as [|t rest] eqn:Eg.
  { destruct (Hg x Hx Hcx). }
  destruct Hg as (-> & Ht & Hct & Hbest).
  exists t. eexists.
  rewrite (SET_DESC_resolved _ _ _ _ _ _ _ _ _ _ Hrow Hres).
  rewrite (checks_partial _ _ _ _ _ _ _ _ Hrow Hs Eg). cbn [fst snd].
  rewrite app_nil_r. split; [reflexivity|].
  cbn [STATUS EQUIVALENT SIMILARS]. repeat split; try assumption.
  - intros c Hc. apply (re_split_tokens values t c Ht Hc).
  - apply Hbest, H.
  - apply Hbest, H.
Qed.

Lemma C2_partial_match_on_best_token_witness :
  ∃ t row',
    SET_DESC (w_scan [L "Order code ABC123X in stock"]) so_scan scanned
      MPN PDF 0 [row1 "ABC-123"]
      = ([EvGet url1 None; EvOcr []], <[0 := row']> [row1 "ABC-123"], inr ())
    ∧ STATUS row' = Some Includes_or_Missed_Suffixes
    ∧ EQUIVALENT row' = Some t
    ∧ SIMILARS row' = SIMILARS (row1 "ABC-123")
    ∧ t ∈ re_split (L "Order code ABC123X in stock")
    ∧ (∀ c, c ∈ t → is_sep c = false)
    ∧ (cutoff <= ratio t (L "ABC-123"))%Q
    ∧ ∀ x, x ∈ re_split (L "Order code ABC123X in stock") →
        (ratio x (L "ABC-123") <= ratio t (L "ABC-123"))%Q
        ∧ ((ratio x (L "ABC-123") == ratio t (L "ABC-123"))%Q →
           str_ltb t x = false).
Proof.
  apply (C2_partial_match_on_best_token
           (w_scan [L "Order code ABC123X in stock"]) so_scan scanned MPN PDF
           0 [row1 "ABC-123"] (row1 "ABC-123") [EvGet url1 None; EvOcr []]
           (L "Order code ABC123X in stock")).
  - reflexivity.
  - exists (L ""). split; vm_compute; reflexivity.
  - intros Hocc. apply (re_search_lit_None (L "ABC-123") None
                          (L "Order code ABC123X in stock")); [|exact Hocc].
    vm_compute. reflexivity.
  - exists (L "ABC123X"). split.
    + vm_compute. do 2 right. left.
    + vm_compute. discriminate.
Defined.

(** C2, as stated: of two tokens with one score the greater string is
    kept, not the first. *)
Lemma C2_counterexample :
  ¬ occurs_ci (L "ABCD") (L "ABCX ABCY")
  ∧ (ratio (L "ABCX") (L "ABCD") == ratio (L "ABCY") (L "ABCD"))%Q
  ∧ (cutoff <= ratio (L "ABCX") (L "ABCD"))%Q
  ∧ first_occurrence_best (L "ABCD") (re_split (L "ABCX ABCY"))
    = Some (L "ABCX")
  ∧ EQUIVALENT <$> (SET_DESC_checks so_scan (L "ABCD") (L "ABCX ABCY") 0
                      [row1 "ABCD"]).1.2 !! 0
    = Some (Some (L "ABCY")).
Proof.
  split.
  { apply (re_search_lit_None (L "ABCD") None (L "ABCX ABCY")).
    vm_compute. reflexivity. }
  split; [vm_compute; reflexivity|].
  split; [vm_compute; discriminate|].
  split; vm_compute; reflexivity.
Qed.

(** * Further properties of the program *)

(** ** Cleaning *)

Lemma clean_string_elem (s : str) (c : ascii) :
  c ∈ clean_string s ↔ c ∈ s ∧ 31 < code c ∧ code c ≠ 127.
Proof.
  unfold clean_string, str in *. rewrite list_elem_of_filter. split.
  - intros [H ?]. split; [|lia]. assumption.
  - intros [? ?]. split; [lia|assumption].
Qed.

Lemma clean_string_id (s : str) :
  (∀ c, c ∈ s → 31 < code c ∧ code c ≠ 127) → clean_string s = s.
Proof.
  intros H. unfold clean_string, str in *. induction s as [|c s IH]; [reflexivity|].
  rewrite filter_cons. rewrite decide_True.
  - f_equal. apply IH. intros d Hd. apply H. right. exact Hd.
  - specialize (H c (list_elem_of_here _ _)). lia.
Qed.

(** X1.  [clean_string] removes exactly the control characters (code points
    0 to 31 and 127): what it returns has none of them, keeps every other
    character of the text in its order, is the text itself when (and only
    when) the text has no control character, is not changed by a second
    cleaning, and the cleaning of a concatenation is the concatenation of
    the cleanings. *)
Theorem clean_string_spec (s : str) :
  (∀ c, c ∈ clean_string s ↔ c ∈ s ∧ 31 < code c ∧ code c ≠ 127)
  ∧ clean_string s `sublist_of` s
  ∧ ((∀ c, c ∈ s → 31 < code c ∧ code c ≠ 127) ↔ clean_string s = s)
  ∧ clean_string (clean_string s) = clean_string s
  ∧ ∀ t, clean_string (s ++ t) = clean_string s ++ clean_string t.
Proof.
  split; [apply clean_string_elem|].
  split; [apply sublist_filter|].
  split.
  - split; [apply clean_string_id|].
    intros Heq c Hc. rewrite <- Heq in Hc. apply clean_string_elem in Hc. tauto.
  - split.
    + apply clean_string_id. intros c Hc. apply clean_string_elem in Hc. tauto.
    + intros t. apply filter_app.
Qed.

(** ** strip *)

Lemma lstrip_spec (s : str) :
  ∃ l, s = l ++ lstrip s
       ∧ Forall (λ c, is_space c = true) l
       ∧ match head (lstrip s) with
         | Some c => is_space c = false
         | None => True
         end.
Proof.
  induction s as [|c s IH]; simpl.
  - exists []. auto.
  - destruct (is_space c) eqn:Hc.
    + destruct IH as (l & Hs & Hl & Hh). exists (c :: l).
      split; [simpl; congruence|]. split; [constructor; assumption|]. auto.
    + exists []. simpl. auto.
Qed.

Lemma lstrip_nonspace (s : str) :
  match head s with Some c => is_space c = false | None => True end →
  lstrip s = s.
Proof. destruct s as [|c s]; simpl; [reflexivity|]. intros ->. reflexivity. Qed.

Lemma last_rev (s : str) : last (rev s) = head s.
Proof.
  destruct s as [|c s]; [reflexivity|]. simpl. apply last_snoc.
Qed.

Lemma head_rev (s : str) : head (rev s) = last s.
Proof. rewrite <- (rev_involutive s) at 2. rewrite last_rev. reflexivity. Qed.

(** X6.  [str.strip], as used on the OCR text and on the members of SIMILARS,
    only removes white space at the two ends: the text is the stripped text
    between two runs of white space, the stripped text neither starts nor
    ends with white space, and stripping twice is stripping once. *)
Theorem strip_spec (s : str) :
  ∃ l r,
    s = l ++ strip s ++ r
    ∧ Forall (λ c, is_space c = true) l
    ∧ Forall (λ c, is_space c = true) r
    ∧ (∀ c, head (strip s) = Some c → is_space c = false)
    ∧ (∀ c, last (strip s) = Some c → is_space c = false)
    ∧ strip (strip s) = strip s.
Proof.
  destruct (lstrip_spec s) as (l & Hs & Hl & Hh).
  destruct (lstrip_spec (rev (lstrip s))) as (r & Hr & Hrs & Hrh).
  assert (Hmid : lstrip s = strip s ++ rev r).
  { unfold strip, rstrip. rewrite <- rev_app_distr, <- Hr, rev_involutive.
    reflexivity. }
  assert (Hlast : ∀ c, last (strip s) = Some c → is_space c = false).
  { intros c Hc. unfold strip, rstrip in Hc. rewrite <- head_rev in Hc.
    rewrite rev_involutive in Hc. rewrite Hc in Hrh. exact Hrh. }
  assert (Hhead : ∀ c, head (strip s) = Some c → is_space c = false).
  { intros c Hc. rewrite Hmid in Hh. destruct (strip s) as [|d u]; [discriminate|].
    simpl in Hc, Hh. congruence. }
  exists l, (rev r). split; [rewrite <- Hmid; exact Hs|].
  split; [exact Hl|]. split.
  { apply List.Forall_rev. exact Hrs. }
  split; [exact Hhead|]. split; [exact Hlast|].
  unfold strip at 1. rewrite lstrip_nonspace.
  - unfold rstrip. rewrite lstrip_nonspace; [apply rev_involutive|].
    rewrite head_rev. destruct (last (strip s)) as [c|] eqn:E; [|exact I].
    apply Hlast. reflexivity.
  - destruct (head (strip s)) as [c|] eqn:E; [|exact I]. apply Hhead. reflexivity.
Qed.

(** ** re.split *)

Lemma re_split_cons (s : str) : ∃ tok toks, re_split s = tok :: toks.
Proof.
  induction s as [|c s IH]; simpl; [eauto|].
  destruct (is_sep c); [eauto|]. destruct IH as (tok & toks & ->). eauto.
Qed.

Lemma join_cons (sep x y : str) (l : list str) :
  join sep (x :: y :: l) = x ++ sep ++ join sep (y :: l).
Proof. reflexivity. Qed.

(** X18.  [re.split('[ \n]', text)] cuts at every space and line feed and
    nowhere else: joining the tokens with spaces gives the text with every
    line feed turned into a space, there is one token more than there are
    separators, no token holds a separator, and the tokens put end to end
    are the text without its separators. *)
Theorem re_split_join (s : str) :
  join [space] (re_split s) = (λ c, if is_sep c then space else c) <$> s
  ∧ length (re_split s) = S (length (filter (λ c, is_sep c = true) s))
  ∧ (∀ t c, t ∈ re_split s → c ∈ t → is_sep c = false)
  ∧ concat (re_split s) = filter (λ c, is_sep c = false) s.
Proof.
  unfold str in *. split; [|split; [|split]].
  - induction s as [|c s IH]; [reflexivity|]. cbn [re_split fmap list_fmap].
    destruct (re_split_cons s) as (tok & toks & E). rewrite E in *.
    destruct (is_sep c).
    + rewrite join_cons, IH. reflexivity.
    + rewrite <- IH. destruct toks; reflexivity.
  - induction s as [|c s IH]; [reflexivity|]. cbn [re_split].
    rewrite filter_cons.
    destruct (re_split_cons s) as (tok & toks & E). rewrite E in *.
    destruct (is_sep c) eqn:Hc.
    + rewrite decide_True by reflexivity. simpl. f_equal. exact IH.
    + rewrite decide_False by discriminate. exact IH.
  - intros t c. apply re_split_tokens.
  - induction s as [|c s IH]; [reflexivity|]. cbn [re_split].
    rewrite filter_cons.
    destruct (re_split_cons s) as (tok & toks & E). rewrite E in *.
    destruct (is_sep c) eqn:Hc.
    + rewrite decide_False by discriminate. exact IH.
    + rewrite decide_True by reflexivity. simpl. f_equal. exact IH.
Qed.

(** ** The chunks *)

Lemma chunks_of_lookup (pdfs : list str) (i : nat) (c : list str) :
  chunks_of pdfs !! i = Some c →
  c = take 100 (drop (i * 100) pdfs) ∧ i * 100 < length pdfs.
Proof.
  unfold chunks_of. rewrite list_lookup_fmap.
  destruct (seq 0 _ !! i) as [q|] eqn:E; [|discriminate].
  apply lookup_seq in E as [-> Hlt]. simpl. intros [= <-]. split; [reflexivity|].
  assert (i ≤ (length pdfs + 99) / 100 - 1) as Hi by lia.
  pose proof (Nat.div_mod_eq (length pdfs + 99) 100) as Hd.
  pose proof (Nat.mod_upper_bound (length pdfs + 99) 100). lia.
Qed.

(** X3.  The batches of [GetPDFText] cut the list of locations in its order:
    put end to end they give the list back, batch number [i] is the 100
    locations from position [100 * i] on, no batch is empty, none has more
    than 100 locations, and every batch but the last has exactly 100. *)
Theorem chunks_of_spec (pdfs : list str) :
  concat (chunks_of pdfs) = pdfs
  ∧ ∀ i c, chunks_of pdfs !! i = Some c →
      c = take 100 (drop (i * 100) pdfs)
      ∧ 0 < length c ≤ 100
      ∧ (S i < length (chunks_of pdfs) → length c = 100).
Proof.
  split; [apply concat_chunks_of|].
  intros i c Hc. pose proof (lookup_lt_Some _ _ _ Hc) as Hlen.
  apply chunks_of_lookup in Hc as [-> Hi]. split; [reflexivity|].
  rewrite length_take, length_drop. split; [lia|].
  intros Hnext. unfold chunks_of in Hnext. rewrite length_fmap, length_seq in Hnext.
  pose proof (Nat.div_mod_eq (length pdfs + 99) 100) as Hd.
  pose proof (Nat.mod_upper_bound (length pdfs + 99) 100). lia.
Qed.

(** X2.  [GetPDFResponse] never raises and leaves the state alone.  It sends
    one request with a time limit of 10 seconds and hands back the location
    with the bytes of the answer when the answer has no 4xx or 5xx status;
    when the request fails or the status is 400 to 599 it prints one line
    "Error fetching PDF ..." and hands back the location with no bytes. *)
Theorem GetPDFResponse_outcome {S} (w : World) (pdf : str) (s : S) :
  ∃ log result,
    GetPDFResponse w pdf s = (EvGet pdf (Some 10) :: log, s, inr (pdf, result))
    ∧ match requests_get w pdf (Some 10) with
      | inl e =>
          result = None
          ∧ log = [EvPrint (L "Error fetching PDF " ++ pdf ++ L ": " ++ exn_text e)]
      | inr resp =>
          if decide (400 ≤ status_code resp < 600)
          then result = None
               ∧ ∃ kind,
                   log = [EvPrint (L "Error fetching PDF " ++ pdf ++ L ": "
                                   ++ str_of_nat (status_code resp) ++ kind
                                   ++ reason resp ++ L " for url: "
                                   ++ resp_url resp)]
          else result = Some (content resp) ∧ log = []
      end.
Proof.
  unfold GetPDFResponse, io_try, io_bind, io_emit, io_lift,
    raise_for_status, io_raise, io_ret, print. cbn [fst snd].
  destruct (requests_get w pdf (Some 10)) as [e|resp]; cbn [fst snd].
  - eexists _, _. split; [reflexivity|]. split; reflexivity.
  - destruct (Nat.leb_spec 400 (status_code resp)) as [H4|H4];
      destruct (Nat.ltb_spec (status_code resp) 500) as [H5|H5];
      cbn [andb fst snd exn_text].
    + eexists _, _. split; [reflexivity|]. rewrite decide_True by lia.
      split; [reflexivity|]. eexists. reflexivity.
    + destruct (Nat.leb_spec 500 (status_code resp)) as [H6|H6]; [|lia].
      destruct (Nat.ltb_spec (status_code resp) 600) as [H7|H7];
        cbn [andb fst snd exn_text].
      * eexists _, _. split; [reflexivity|]. rewrite decide_True by lia.
        split; [reflexivity|]. eexists. reflexivity.
      * eexists _, _. split; [reflexivity|]. rewrite decide_False by lia.
        split; reflexivity.
    + destruct (Nat.leb_spec 500 (status_code resp)) as [H6|H6]; [lia|].
      cbn [andb fst snd]. eexists _, _. split; [reflexivity|].
      rewrite decide_False by lia. split; reflexivity.
    + lia.
Qed.

(** ** The extraction map *)

Lemma GetPDFText_result_state (w : World) (p : str) (pdfData : gmap str str) :
  (GetPDFText_result w (p, fetched w p) pdfData).1.2
  = match extracted w p with
    | Some t => <[p := t]> pdfData
    | None => pdfData
    end.
Proof.
  unfold GetPDFText_result, extracted. cbn [fst snd].
  destruct (fetched w p) as [byt|]; [|reflexivity].
  unfold io_try, io_bind, io_emit, io_lift, io_modify, print. cbn [fst snd].
  destruct (fitz_page_texts w byt) as [e|pages]; reflexivity.
Qed.

Lemma io_for_results_state (w : World) (chunk : list str)
  (pdfData : gmap str str) (u : str) :
  (io_for ((λ p, (p, fetched w p)) <$> chunk) (GetPDFText_result w) pdfData).1.2
    !! u
  = if decide (u ∈ chunk) then extracted w u ∪ pdfData !! u else pdfData !! u.
Proof.
  revert pdfData. induction chunk as [|p chunk IH]; intros pdfData.
  - rewrite decide_False by apply not_elem_of_nil. reflexivity.
  - destruct (GetPDFText_result_run w (p, fetched w p) pdfData)
      as (tr1 & d1 & H1 & _).
    pose proof (GetPDFText_result_state w p pdfData) as Hd1.
    rewrite H1 in Hd1. cbn [fst snd] in Hd1.
    cbn [fmap list_fmap io_for]. unfold io_bind.
    change (list_fmap _ _ ?f ?l) with (f <$> l).
    rewrite H1. cbn [fst snd].
    destruct (io_for_results w chunk d1) as (tr2 & d2 & H2 & _).
    specialize (IH d1). rewrite H2 in IH |- *. cbn [fst snd] in IH |- *.
    rewrite IH, Hd1. clear.
    destruct (decide (u = p)) as [->|Hne].
    + rewrite (decide_True (P := p ∈ p :: chunk)) by left.
      destruct (extracted w p) as [t|] eqn:E.
      * rewrite lookup_insert_eq.
        destruct (decide (p ∈ chunk)), (pdfData !! p); reflexivity.
      * destruct (decide (p ∈ chunk)), (pdfData !! p); reflexivity.
    + assert (Hd : (match extracted w p with
                    | Some t => <[p:=t]> pdfData
                    | None => pdfData
                    end) !! u = pdfData !! u).
      { destruct (extracted w p); [|reflexivity].
        rewrite lookup_insert_ne by congruence. reflexivity. }
      rewrite Hd.
      destruct (decide (u ∈ chunk)) as [Hin|Hout].
      * rewrite decide_True by (right; assumption). reflexivity.
      * rewrite decide_False; [reflexivity|].
        intros [?|?]%elem_of_cons; contradiction.
Qed.

Lemma io_for_chunks_state (w : World) (chunks : list (list str))
  (pdfData : gmap str str) (u : str) :
  (io_for chunks
     (λ chunk,
        let* results := io_map (GetPDFResponse w) chunk in
        io_for results (GetPDFText_result w)) pdfData).1.2 !! u
  = if decide (u ∈ concat chunks) then extracted w u ∪ pdfData !! u
    else pdfData !! u.
Proof.
  revert pdfData. induction chunks as [|chunk chunks IH]; intros pdfData.
  - rewrite decide_False by apply not_elem_of_nil. reflexivity.
  - destruct (io_map_GetPDFResponse w chunk pdfData) as (tr1 & H1 & _).
    destruct (io_for_results w chunk pdfData) as (tr2 & d2 & H2 & _).
    pose proof (io_for_results_state w chunk pdfData u) as Hd2.
    rewrite H2 in Hd2. cbn [fst snd] in Hd2.
    destruct (io_for_chunks w chunks d2) as (tr3 & d3 & H3 & _).
    specialize (IH d2). rewrite H3 in IH. cbn [fst snd] in IH.
    cbn [io_for]. unfold io_bind at 1 2. rewrite H1. cbn [fst snd].
    rewrite H2. cbn [fst snd]. rewrite H3. cbn [fst snd].
    rewrite IH, Hd2. cbn [concat]. clear.
    destruct (decide (u ∈ chunk)) as [H1|H1];
      destruct (decide (u ∈ concat chunks)) as [H2|H2].
    + rewrite decide_True by (apply elem_of_app; tauto).
      destruct (extracted w u), (pdfData !! u); reflexivity.
    + rewrite decide_True by (apply elem_of_app; tauto). reflexivity.
    + rewrite decide_True by (apply elem_of_app; tauto). reflexivity.
    + rewrite decide_False; [reflexivity|]. rewrite elem_of_app. tauto.
Qed.

Lemma GetPDFText_run {S} (w : World) (pdfs : list str) (s : S) :
  ∃ tr pdf_data,
    GetPDFText w pdfs s = (tr, s, inr pdf_data)
    ∧ ∀ u, pdf_data !! u = if decide (u ∈ pdfs) then extracted w u else None.
Proof.
  unfold GetPDFText, GetPDFText_loop.
  destruct (io_for_chunks w (chunks_of pdfs) ∅) as (tr & d & H & _).
  intros. pose proof (io_for_chunks_state w (chunks_of pdfs) ∅) as Hd.
  rewrite H in Hd |- *. cbn [fst snd] in Hd |- *.
  exists tr, d. split; [reflexivity|]. intros u. rewrite Hd, concat_chunks_of.
  rewrite lookup_empty. destruct (decide (u ∈ pdfs)); [|reflexivity].
  destruct (extracted w u); reflexivity.
Qed.

(** X4.  [GetPDFText] never raises.  The map it returns has an entry for a
    location exactly when the location is in the list, its request (time
    limit 10) is answered with a status outside 400 to 599, and the PDF
    library opens the bytes; the entry is then the texts of the pages joined
    by line feeds. *)
Theorem GetPDFText_entries {S} (w : World) (pdfs : list str) (s : S) :
  ∃ tr pdf_data,
    GetPDFText w pdfs s = (tr, s, inr pdf_data)
    ∧ ∀ u text,
        pdf_data !! u = Some text
        ↔ u ∈ pdfs
          ∧ ∃ resp pages,
              requests_get w u (Some 10) = inr resp
              ∧ ¬ (400 ≤ status_code resp < 600)
              ∧ fitz_page_texts w (content resp) = inr pages
              ∧ text = join [newline] pages.
Proof.
  destruct (GetPDFText_run w pdfs s) as (tr & pdf_data & Hrun & Hmap).
  exists tr, pdf_data. split; [exact Hrun|]. intros u text. rewrite Hmap.
  unfold extracted, fetched.
  destruct (decide (u ∈ pdfs)) as [Hin|Hout]; [|split; [discriminate|tauto]].
  destruct (requests_get w u (Some 10)) as [e|resp].
  { split; [discriminate|]. intros (_ & r & p & [=] & _). }
  destruct (Nat.leb_spec 400 (status_code resp)) as [H4|H4];
    destruct (Nat.ltb_spec (status_code resp) 600) as [H6|H6]; cbn [andb].
  - split; [discriminate|]. intros (_ & r & p & [= <-] & Hn & _). lia.
  - destruct (fitz_page_texts w (content resp)) as [e|pages] eqn:Hf.
    + split; [discriminate|]. intros (_ & r & p & [= <-] & _ & Hp & _).
      congruence.
    + split.
      * intros [= <-]. split; [assumption|]. exists resp, pages.
        repeat split; try reflexivity; try assumption. lia.
      * intros (_ & r & p & [= <-] & _ & Hp & ->). congruence.
  - destruct (fitz_page_texts w (content resp)) as [e|pages] eqn:Hf.
    + split; [discriminate|]. intros (_ & r & p & [= <-] & _ & Hp & _).
      congruence.
    + split.
      * intros [= <-]. split; [assumption|]. exists resp, pages.
        repeat split; try reflexivity; try assumption. lia.
      * intros (_ & r & p & [= <-] & _ & Hp & ->). congruence.
  - lia.
Qed.

(** ** The OCR text *)

Lemma lstrip_snoc (t : str) (c : ascii) :
  is_space c = true →
  lstrip (t ++ [c]) = match lstrip t with [] => [] | _ => lstrip t ++ [c] end.
Proof.
  intros Hc. induction t as [|d t IH]; simpl.
  - rewrite Hc. reflexivity.
  - destruct (is_space d); [exact IH|reflexivity].
Qed.

Lemma strip_snoc (t : str) (c : ascii) :
  is_space c = true → strip (t ++ [c]) = strip t.
Proof.
  intros Hc. unfold strip. rewrite lstrip_snoc by assumption.
  destruct (lstrip t) as [|d u] eqn:E; [reflexivity|].
  unfold rstrip. rewrite rev_app_distr. simpl. rewrite Hc. reflexivity.
Qed.

Lemma ocr_fold (pages : list (list str)) (acc : str) :
  foldl (λ full_text results, full_text ++ join (L " ") results ++ [newline])
    acc pages
  = acc ++ concat ((λ results, join (L " ") results ++ [newline]) <$> pages).
Proof.
  revert acc. induction pages as [|p pages IH]; intros acc; simpl.
  - rewrite app_nil_r. reflexivity.
  - rewrite IH. rewrite <- !app_assoc. reflexivity.
Qed.

Lemma join_lines (lines : list str) :
  lines ≠ [] →
  concat ((λ l, l ++ [newline]) <$> lines) = join [newline] lines ++ [newline].
Proof.
  induction lines as [|l lines IH]; [congruence|]. intros _.
  destruct lines as [|l2 lines]; [simpl; rewrite app_nil_r; reflexivity|].
  rewrite join_cons. cbn [fmap list_fmap concat].
  change (list_fmap _ _ ?f ?l) with (f <$> l) in *.
  cbn [fmap list_fmap concat] in IH. rewrite IH by congruence.
  rewrite <- !app_assoc. reflexivity.
Qed.

(** X5.  [ocr_text_from_pdf]: when the reader cannot be built the exception
    leaves the function (the reader is built outside the [try]).  With a
    reader the function never raises: when the recognition fails it prints
    "Error with OCR processing: ..." and returns the empty text; otherwise
    it returns the fragments of each page joined by spaces, the pages joined
    by line feeds, without the white space at both ends. *)
Theorem ocr_text_from_pdf_outcome {S} (w : World) (pdf_bytes : bytes) (s : S) :
  match easyocr_Reader w with
  | Some e => ocr_text_from_pdf w pdf_bytes s = ([EvOcr pdf_bytes], s, inl e)
  | None =>
      match ocr_page_fragments w pdf_bytes with
      | inr pages =>
          ocr_text_from_pdf w pdf_bytes s
          = ([EvOcr pdf_bytes], s,
             inr (strip (join [newline] (join (L " ") <$> pages))))
      | inl e =>
          ocr_text_from_pdf w pdf_bytes s
          = ([EvOcr pdf_bytes;
              EvPrint (L "Error with OCR processing: " ++ exn_text e)], s,
             inr [])
      end
  end.
Proof.
  assert (Hs : ∀ pages,
    strip (foldl (λ full_text results,
                    full_text ++ join (L " ") results ++ [newline]) [] pages)
    = strip (join [newline] (join (L " ") <$> pages))).
  { intros pages. rewrite ocr_fold. cbn [app].
    destruct pages as [|p pages]; [reflexivity|].
    rewrite (list_fmap_compose (join (L " ")) (λ l, l ++ [newline])).
    rewrite join_lines by discriminate. apply strip_snoc. reflexivity. }
  unfold ocr_text_from_pdf, io_bind, io_emit, io_try, io_raise, io_lift,
    io_ret, print. cbn [fst snd].
  destruct (easyocr_Reader w) as [e|]; [reflexivity|].
  destruct (ocr_page_fragments w pdf_bytes) as [e|pages]; cbn [fst snd];
    [reflexivity|].
  rewrite Hs. reflexivity.
Qed.

(** ** When a task raises *)

Lemma ocr_text_from_pdf_run (w : World) (b : bytes) :
  ocr_text_from_pdf w b ()
  = match easyocr_Reader w with
    | Some e => ([EvOcr b], (), inl e)
    | None =>
        match ocr_page_fragments w b with
        | inr pages =>
            ([EvOcr b], (),
             inr (strip (foldl (λ full_text results,
                                  full_text ++ join (L " ") results ++ [newline])
                           [] pages)))
        | inl e =>
            ([EvOcr b; EvPrint (L "Error with OCR processing: " ++ exn_text e)],
             (), inr [])
        end
    end.
Proof.
  unfold ocr_text_from_pdf, io_bind, io_emit, io_try, io_raise, io_lift,
    io_ret, print. cbn [fst snd].
  destruct (easyocr_Reader w) as [e|]; [reflexivity|].
  destruct (ocr_page_fragments w b) as [e|pages]; reflexivity.
Qed.

Lemma read_cell_missing (col : Row → str) (index : nat) (data : table) :
  data !! index = None →
  read_cell col index data = ([], data, inl (Exception (L "KeyError"))).
Proof.
  intros H. unfold read_cell, io_bind, io_get. cbn [fst snd]. rewrite H.
  reflexivity.
Qed.

Lemma SET_DESC_missing (w : World) (so : set_order) (pdf_data : gmap str str)
  (part_col pdf_col : Row → str) (index : nat) (data : table) :
  data !! index = None →
  SET_DESC w so pdf_data part_col pdf_col index data
  = ([], data, inl (Exception (L "KeyError"))).
Proof.
  intros H. unfold SET_DESC, io_bind.
  rewrite (read_cell_missing part_col _ _ H). reflexivity.
Qed.

Lemma SET_DESC_row_raises (w : World) (so : set_order)
  (pdf_data : gmap str str) (part_col pdf_col : Row → str) (row : Row) :
  (∃ e, (SET_DESC_row w so pdf_data part_col pdf_col row).2 = inl e)
  ↔ ∃ text, pdf_data !! pdf_col row = Some text
            ∧ length text ≤ 100
            ∧ ((∃ e, requests_get w (pdf_col row) None = inl e)
               ∨ ∃ e, easyocr_Reader w = Some e).
Proof.
  unfold SET_DESC_row.
  destruct (pdf_data !! pdf_col row) as [text|].
  - destruct (Nat.le_gt_cases (length text) 100) as [Hlen|Hlen].
    + destruct (requests_get w (pdf_col row) None) as [e|resp] eqn:Hget.
      * rewrite (SET_DESC_values_raise _ _ _ _ Hlen Hget). cbn [fst snd].
        split; [|eauto]. intros _. exists text. eauto.
      * rewrite (SET_DESC_values_ocr _ _ _ _ Hlen Hget). cbn [fst snd].
        rewrite ocr_text_from_pdf_run.
        destruct (easyocr_Reader w) as [e|]; cbn [fst snd].
        -- split; [|eauto]. intros _. exists text. eauto.
        -- split.
           ++ destruct (ocr_page_fragments w (content resp));
                cbn [fst snd]; intros [e' [=]].
           ++ intros (t & [= <-] & _ & [[e' [=]]|[e' [=]]]).
    + rewrite (SET_DESC_values_long _ _ _ Hlen). cbn [fst snd]. split.
      * intros [e [=]].
      * intros (t & [= <-] & ? & _). lia.
  - cbn [fst snd]. split.
    + intros [e [=]].
    + intros (t & [=] & _).
Qed.

Lemma SET_DESC_row_raise_keeps (w : World) (so : set_order)
  (pdf_data : gmap str str) (part_col pdf_col : Row → str) (row : Row)
  (e : exception) :
  (SET_DESC_row w so pdf_data part_col pdf_col row).2 = inl e →
  (SET_DESC_row w so pdf_data part_col pdf_col row).1.2 = row.
Proof.
  unfold SET_DESC_row. destruct (pdf_data !! pdf_col row) as [text|].
  - destruct (SET_DESC_values w (pdf_col row) text ()) as [[tr []] [e'|values]];
      cbn [fst snd]; [reflexivity|discriminate].
  - discriminate.
Qed.

(** X7.  [SET_DESC] ends with an exception in two cases only: the index is not
    in the table, or the location has an entry of at most 100 characters and
    the request of the OCR fallback fails or the OCR reader cannot be built.
    Whenever it raises, the table is left as it was. *)
Theorem SET_DESC_raises_iff (w : World) (so : set_order)
  (pdf_data : gmap str str) (part_col pdf_col : Row → str) (index : nat)
  (data : table) :
  ((∃ e, (SET_DESC w so pdf_data part_col pdf_col index data).2 = inl e)
   ↔ data !! index = None
     ∨ ∃ row text,
         data !! index = Some row
         ∧ pdf_data !! pdf_col row = Some text
         ∧ length text ≤ 100
         ∧ ((∃ e, requests_get w (pdf_col row) None = inl e)
            ∨ ∃ e, easyocr_Reader w = Some e))
  ∧ ((∃ e, (SET_DESC w so pdf_data part_col pdf_col index data).2 = inl e) →
     (SET_DESC w so pdf_data part_col pdf_col index data).1.2 = data).
Proof.
  destruct (data !! index) as [row|] eqn:Hrow.
  - rewrite (SET_DESC_run w so pdf_data part_col pdf_col index data row Hrow).
    cbn [fst snd]. split.
    + rewrite SET_DESC_row_raises. split.
      * intros (text & ?). right. exists row, text. tauto.
      * intros [[=]|(row' & text & [= <-] & ?)]. exists text. tauto.
    + intros [e He]. rewrite (SET_DESC_row_raise_keeps _ _ _ _ _ _ _ He).
      apply list_insert_id. exact Hrow.
  - rewrite (SET_DESC_missing w so pdf_data part_col pdf_col index data Hrow).
    cbn [fst snd]. split; [|reflexivity]. split; [tauto|]. eauto.
Qed.

(** ** The three outcomes of the checks *)

Lemma labels_distinct :
  Exact ≠ Includes_or_Missed_Suffixes ∧ Exact ≠ Not_Found
  ∧ Exact ≠ May_be_Broken
  ∧ Includes_or_Missed_Suffixes ≠ Not_Found
  ∧ Includes_or_Missed_Suffixes ≠ May_be_Broken
  ∧ Not_Found ≠ May_be_Broken.
Proof. repeat split; discriminate. Qed.

Lemma checks_row_cases (so : set_order) (part values : str) (r : Row) :
  (occurs_ci part values
   ∧ STATUS (checks_row so part values r) = Some Exact)
  ∨ (¬ occurs_ci part values
     ∧ (∃ x, x ∈ re_split values ∧ (cutoff <= ratio x part)%Q)
     ∧ STATUS (checks_row so part values r) = Some Includes_or_Missed_Suffixes)
  ∨ (¬ occurs_ci part values
     ∧ (∀ x, x ∈ re_split values → (ratio x part < cutoff)%Q)
     ∧ checks_row so part values r = with_STATUS (Some Not_Found) r).
Proof.
  unfold checks_row.
  destruct (re_search (re_escape part) values) as [[pre m]|] eqn:Hs.
  - left. split; [|reflexivity].
    apply re_search_lit_Some in Hs as (post & -> & Hm & _).
    exists pre, m, post. auto.
  - right. apply re_search_lit_None in Hs.
    pose proof (get_close_matches_spec part (re_split values) cutoff) as Hg.
    destruct (get_close_matches part (re_split values) cutoff) as [|t rest].
    + right. split; [assumption|]. split; [|reflexivity].
      intros x Hx. apply Qnot_le_lt. apply Hg. exact Hx.
    + left. split; [assumption|]. split; [|reflexivity].
      destruct Hg as (_ & Ht & Hc & _). eauto.
Qed.

(** X8.  Once the text of a request is resolved, its status is decided by the
    text alone: "Exact" exactly when the part number occurs in it up to
    case; "Includes or Missed Suffixes" exactly when it does not occur and
    some token has a ratio of at least 0.65; "Not Found" exactly when it
    does not occur and every token stays below 0.65.  With "Not Found",
    EQUIVALENT and SIMILARS are left as they were. *)
Theorem SET_DESC_status_decided (w : World) (so : set_order)
  (pdf_data : gmap str str) (part_col pdf_col : Row → str) (index : nat)
  (data : table) (row : Row) (tr : list event) (values : str) :
  data !! index = Some row →
  resolves_to w pdf_data (pdf_col row) tr values →
  ∃ row',
    SET_DESC w so pdf_data part_col pdf_col index data
      = (tr, <[index := row']> data, inr ())
    ∧ (STATUS row' = Some Exact ↔ occurs_ci (part_col row) values)
    ∧ (STATUS row' = Some Includes_or_Missed_Suffixes
       ↔ ¬ occurs_ci (part_col row) values
         ∧ ∃ x, x ∈ re_split values ∧ (cutoff <= ratio x (part_col row))%Q)
    ∧ (STATUS row' = Some Not_Found
       ↔ ¬ occurs_ci (part_col row) values
         ∧ ∀ x, x ∈ re_split values → (ratio x (part_col row) < cutoff)%Q)
    ∧ (STATUS row' = Some Not_Found →
       EQUIVALENT row' = EQUIVALENT row ∧ SIMILARS row' = SIMILARS row).
Proof.
  intros Hrow Hres.
  rewrite (SET_DESC_resolved w so pdf_data part_col pdf_col index data row tr
             values Hrow Hres).
  rewrite (checks_run _ _ _ _ _ _ Hrow). cbn [fst snd]. rewrite app_nil_r.
  exists (checks_row so (part_col row) values row).
  split; [reflexivity|].
  destruct labels_distinct as (L1 & L2 & L3 & L4 & L5 & L6).
  destruct (checks_row_cases so (part_col row) values row)
    as [[Ho Hst]|[(Ho & Hx & Hst)|(Ho & Hx & Hst)]]; rewrite Hst.
  - split; [tauto|]. split; [split; [intros [=]; try congruence|tauto]|].
    split; [split; [intros [=]; try congruence|tauto]|]. intros [=]; try congruence.
  - split; [split; [intros [=]; try congruence|tauto]|].
    split; [tauto|].
    split.
    + split; [intros [=]; try congruence|]. intros [_ Hall].
      destruct Hx as (x & Hin & Hle). apply Hall in Hin.
      exfalso. apply (Qlt_not_le _ _ Hin Hle).
    + intros [=]; try congruence.
  - cbn [STATUS EQUIVALENT SIMILARS with_STATUS].
    split; [split; [intros [=]; try congruence|tauto]|].
    split.
    + split; [intros [=]; try congruence|]. intros [_ (x & Hin & Hle)].
      apply Hx in Hin. exfalso. apply (Qlt_not_le _ _ Hin Hle).
    + split; [tauto|]. auto.
Qed.

Lemma SET_DESC_status_decided_witness :
  ∃ row',
    SET_DESC (w_scan [L "General purpose relay"]) so_scan scanned MPN PDF 0
      [row1 "ABC-123"]
      = ([EvGet url1 None; EvOcr []], <[0 := row']> [row1 "ABC-123"], inr ())
    ∧ (STATUS row' = Some Exact
       ↔ occurs_ci (L "ABC-123") (L "General purpose relay"))
    ∧ (STATUS row' = Some Includes_or_Missed_Suffixes
       ↔ ¬ occurs_ci (L "ABC-123") (L "General purpose relay")
         ∧ ∃ x, x ∈ re_split (L "General purpose relay")
                ∧ (cutoff <= ratio x (L "ABC-123"))%Q)
    ∧ (STATUS row' = Some Not_Found
       ↔ ¬ occurs_ci (L "ABC-123") (L "General purpose relay")
         ∧ ∀ x, x ∈ re_split (L "General purpose relay") →
             (ratio x (L "ABC-123") < cutoff)%Q)
    ∧ (STATUS row' = Some Not_Found →
       EQUIVALENT row' = EQUIVALENT (row1 "ABC-123")
       ∧ SIMILARS row' = SIMILARS (row1 "ABC-123")).
Proof.
  apply (SET_DESC_status_decided (w_scan [L "General purpose relay"]) so_scan
           scanned MPN PDF 0 [row1 "ABC-123"] (row1 "ABC-123")
           [EvGet url1 None; EvOcr []] (L "General purpose relay")).
  - reflexivity.
  - exists (L ""). split; vm_compute; reflexivity.
Defined.

(** ** What a task leaves alone *)

Lemma checks_row_keys (so : set_order) (part values : str) (r : Row) :
  MPN (checks_row so part values r) = MPN r
  ∧ PDF (checks_row so part values r) = PDF r.
Proof.
  unfold checks_row. destruct (re_search _ _) as [[pre m]|]; [auto|].
  destruct (get_close_matches _ _ _); auto.
Qed.

Lemma SET_DESC_row_keys (w : World) (so : set_order) (pdf_data : gmap str str)
  (part_col pdf_col : Row → str) (r : Row) :
  MPN (SET_DESC_row w so pdf_data part_col pdf_col r).1.2 = MPN r
  ∧ PDF (SET_DESC_row w so pdf_data part_col pdf_col r).1.2 = PDF r.
Proof.
  unfold SET_DESC_row. destruct (pdf_data !! pdf_col r) as [text|]; [|auto].
  destruct (SET_DESC_values w (pdf_col r) text ()) as [[tr []] [e|values]];
    cbn [fst snd]; [auto|]. apply checks_row_keys.
Qed.

Lemma fmap_insert_same {A} (f : Row → A) (data : table) (index : nat)
  (row r' : Row) :
  data !! index = Some row → f r' = f row →
  f <$> <[index := r']> data = f <$> data.
Proof.
  intros Hrow Hf. rewrite list_fmap_insert, Hf. apply list_insert_id.
  rewrite list_lookup_fmap, Hrow. reflexivity.
Qed.

(** X9.  [SET_DESC] writes to the result cells of its own row only: the table
    keeps its length, the columns MPN and PDF are unchanged, and every other
    row is as before, whatever the task does and however it ends. *)
Theorem SET_DESC_frame (w : World) (so : set_order) (pdf_data : gmap str str)
  (part_col pdf_col : Row → str) (index : nat) (data : table) :
  let data' := (SET_DESC w so pdf_data part_col pdf_col index data).1.2 in
  length data' = length data
  ∧ MPN <$> data' = MPN <$> data
  ∧ PDF <$> data' = PDF <$> data
  ∧ ∀ j, j ≠ index → data' !! j = data !! j.
Proof.
  destruct (data !! index) as [row|] eqn:Hrow.
  - rewrite (SET_DESC_run w so pdf_data part_col pdf_col index data row Hrow).
    cbn [fst snd]. cbv zeta.
    destruct (SET_DESC_row_keys w so pdf_data part_col pdf_col row) as [HM HP].
    split; [apply length_insert|].
    split; [apply (fmap_insert_same MPN _ _ row); assumption|].
    split; [apply (fmap_insert_same PDF _ _ row); assumption|].
    intros j Hj. apply list_lookup_insert_ne. congruence.
  - rewrite (SET_DESC_missing w so pdf_data part_col pdf_col index data Hrow).
    cbn [fst snd]. cbv zeta. auto.
Qed.

(** ** A failed OCR *)

Lemma re_search_empty_text (part : str) :
  part ≠ [] → re_search (re_escape part) [] = None.
Proof. destruct part; [congruence|]. reflexivity. Qed.

Lemma ratio_empty (part : str) :
  part ≠ [] → ¬ (cutoff <= ratio [] part)%Q.
Proof.
  intros Hp Hle.
  pose proof (ratio_le_quick_ratio [] part) as H1.
  pose proof (quick_ratio_le_real_quick_ratio [] part) as H2.
  assert (H3 : (cutoff <= real_quick_ratio [] part)%Q).
  { eapply Qle_trans; [exact Hle|]. eapply Qle_trans; eassumption. }
  unfold real_quick_ratio, calculate_ratio in H3. cbn [length min Nat.add] in H3.
  destruct part as [|c part]; [congruence|]. cbn [length Nat.eqb] in H3.
  vm_compute in H3. apply H3. reflexivity.
Qed.

Lemma get_close_matches_empty_text (part : str) :
  part ≠ [] → get_close_matches part (re_split []) cutoff = [].
Proof.
  intros Hp.
  pose proof (get_close_matches_spec part (re_split []) cutoff) as Hg.
  destruct (get_close_matches part (re_split []) cutoff) as [|t rest];
    [reflexivity|].
  destruct Hg as (_ & Ht & Hc & _). cbn [re_split] in Ht.
  apply list_elem_of_singleton in Ht as ->.
  exfalso. exact (ratio_empty part Hp Hc).
Qed.

(** X10.  When the OCR fallback is taken for a request with a non-empty part
    number and the recognition fails, the failure is printed and the checks
    run on the empty text: the request gets the status "Not Found" (not "May
    be Broken"), and EQUIVALENT and SIMILARS are not written. *)
Theorem ocr_failure_not_found (w : World) (so : set_order)
  (pdf_data : gmap str str) (part_col pdf_col : Row → str) (index : nat)
  (data : table) (row : Row) (text : str) (resp : response) (e : exception) :
  data !! index = Some row →
  pdf_data !! pdf_col row = Some text →
  length text ≤ 100 →
  requests_get w (pdf_col row) None = inr resp →
  easyocr_Reader w = None →
  ocr_page_fragments w (content resp) = inl e →
  part_col row ≠ [] →
  SET_DESC w so pdf_data part_col pdf_col index data
  = ([EvGet (pdf_col row) None; EvOcr (content resp);
      EvPrint (L "Error with OCR processing: " ++ exn_text e)],
     <[index := with_STATUS (Some Not_Found) row]> data, inr ()).
Proof.
  intros Hrow Htext Hlen Hget Hreader Hocr Hpart.
  rewrite (SET_DESC_run w so pdf_data part_col pdf_col index data row Hrow).
  unfold SET_DESC_row. rewrite Htext.
  rewrite (SET_DESC_values_ocr _ _ _ _ Hlen Hget), ocr_text_from_pdf_run,
    Hreader, Hocr. cbn [fst snd].
  unfold checks_row.
  rewrite (re_search_empty_text _ Hpart), (get_close_matches_empty_text _ Hpart).
  reflexivity.
Qed.

Lemma ocr_failure_not_found_witness :
  SET_DESC w_unreadable so_scan scanned MPN PDF 0 [row1 "ABC-123"]
  = ([EvGet url1 None; EvOcr [];
      EvPrint (L "Error with OCR processing: FileDataError")],
     [MkRow (L "ABC-123") url1 (Some Not_Found) None None], inr ()).
Proof.
  apply (ocr_failure_not_found w_unreadable so_scan scanned MPN PDF 0
           [row1 "ABC-123"] (row1 "ABC-123") (L "")
           (Response 200 (L "OK") url1 []) (Exception (L "FileDataError"))).
  - reflexivity.
  - vm_compute. reflexivity.
  - simpl. lia.
  - reflexivity.
  - reflexivity.
  - reflexivity.
  - discriminate.
Defined.

(** ** The run over the sheet *)

Lemma SET_DESC_row_reset (w : World) (so : set_order) (pdf_data : gmap str str)
  (r : Row) :
  reset_row (SET_DESC_row w so pdf_data MPN PDF (reset_row r)).1.2 = reset_row r.
Proof.
  destruct (SET_DESC_row_keys w so pdf_data MPN PDF (reset_row r)) as [HM HP].
  unfold reset_row at 1. rewrite HM, HP. reflexivity.
Qed.

(** X11.  [PN_Validation_New] never changes the columns MPN and PDF, and what
    it does (trace, table and result) depends on these two columns only:
    whatever STATUS, EQUIVALENT and SIMILARS held before is discarded.  In
    particular a second run on the result of a run gives that result
    again. *)
Theorem PN_Validation_New_inputs (w : World) (so : set_order)
  (pdf_data : gmap str str) (data : table) :
  let r := PN_Validation_New w so pdf_data MPN PDF data in
  MPN <$> r.1.2 = MPN <$> data
  ∧ PDF <$> r.1.2 = PDF <$> data
  ∧ (∀ data', MPN <$> data' = MPN <$> data → PDF <$> data' = PDF <$> data →
       PN_Validation_New w so pdf_data MPN PDF data' = r)
  ∧ PN_Validation_New w so pdf_data MPN PDF r.1.2 = r.
Proof.
  cbv zeta.
  assert (Hdep : ∀ d1 d2 : table, reset_row <$> d1 = reset_row <$> d2 →
            PN_Validation_New w so pdf_data MPN PDF d1
            = PN_Validation_New w so pdf_data MPN PDF d2).
  { intros d1 d2 H. rewrite !PN_Validation_New_run. cbv zeta.
    rewrite !(list_fmap_compose reset_row
               (SET_DESC_row w so pdf_data MPN PDF)), H. reflexivity. }
  assert (Hreset : ∀ d1 d2 : table,
            MPN <$> d1 = MPN <$> d2 → PDF <$> d1 = PDF <$> d2 →
            reset_row <$> d1 = reset_row <$> d2).
  { induction d1 as [|a d1 IH]; intros [|b d2]; try discriminate;
      [reflexivity|].
    cbn [fmap list_fmap]. intros [= HM HMs] [= HP HPs].
    f_equal; [unfold reset_row; congruence|]. apply IH; assumption. }
  assert (HM : MPN <$> (PN_Validation_New w so pdf_data MPN PDF data).1.2
               = MPN <$> data).
  { rewrite PN_Validation_New_run. cbn [fst snd].
    rewrite <- !list_fmap_compose. apply list_fmap_ext. intros i r _. simpl.
    apply (SET_DESC_row_keys w so pdf_data MPN PDF (reset_row r)). }
  assert (HP : PDF <$> (PN_Validation_New w so pdf_data MPN PDF data).1.2
               = PDF <$> data).
  { rewrite PN_Validation_New_run. cbn [fst snd].
    rewrite <- !list_fmap_compose. apply list_fmap_ext. intros i r _. simpl.
    apply (SET_DESC_row_keys w so pdf_data MPN PDF (reset_row r)). }
  split; [exact HM|]. split; [exact HP|]. split.
  - intros data' H1 H2. apply Hdep, Hreset; assumption.
  - apply Hdep, Hreset; assumption.
Qed.

Lemma ocr_trace_gets (w : World) (b : bytes) (u : str) :
  count_events (is_get u) (ocr_text_from_pdf w b ()).1.1 = 0.
Proof.
  rewrite ocr_text_from_pdf_run. destruct (easyocr_Reader w); [reflexivity|].
  destruct (ocr_page_fragments w b); reflexivity.
Qed.

Lemma SET_DESC_row_trace_gets (w : World) (so : set_order)
  (pdf_data : gmap str str) (part_col pdf_col : Row → str) (r : Row) (u : str) :
  count_events (is_get u) (SET_DESC_row w so pdf_data part_col pdf_col r).1.1
  = match pdf_data !! pdf_col r with
    | Some text =>
        if length text <=? 100
        then (if bool_decide (pdf_col r = u) then 1 else 0) else 0
    | None => 0
    end.
Proof.
  unfold SET_DESC_row.
  destruct (pdf_data !! pdf_col r) as [text|]; [|reflexivity].
  destruct (Nat.leb_spec (length text) 100) as [Hlen|Hlen].
  - destruct (requests_get w (pdf_col r) None) as [e|resp] eqn:Hget.
    + rewrite (SET_DESC_values_raise _ _ _ _ Hlen Hget). cbn [fst snd].
      rewrite count_events_cons. cbn [is_get].
      destruct (bool_decide (pdf_col r = u)); reflexivity.
    + rewrite (SET_DESC_values_ocr _ _ _ _ Hlen Hget). cbn [fst snd].
      pose proof (ocr_trace_gets w (content resp) u) as Ho.
      destruct (ocr_text_from_pdf w (content resp) ()) as [[tr []] [e|v]];
        cbn [fst snd] in Ho |- *;
        rewrite count_events_cons, Ho; cbn [is_get];
        destruct (bool_decide (pdf_col r = u)); reflexivity.
  - rewrite (SET_DESC_values_long _ _ _ Hlen). reflexivity.
Qed.

Lemma SET_DESC_row_gets (w : World) (so : set_order) (pdf_data : gmap str str)
  (part_col pdf_col : Row → str) (r : Row) (u : str) :
  count_events (is_get u) (SET_DESC_row w so pdf_data part_col pdf_col r).1.1
  = match pdf_data !! u with
    | Some text =>
        if length text <=? 100
        then (if bool_decide (pdf_col r = u) then 1 else 0) else 0
    | None => 0
    end.
Proof.
  rewrite SET_DESC_row_trace_gets.
  destruct (decide (pdf_col r = u)) as [<-|Hne]; [reflexivity|].
  rewrite bool_decide_eq_false_2 by assumption.
  destruct (pdf_data !! pdf_col r) as [t1|], (pdf_data !! u) as [t2|];
    try destruct (length t1 <=? 100); try destruct (length t2 <=? 100);
    reflexivity.
Qed.

(** X12.  During [PN_Validation_New] a location is requested once for every
    row that refers to it when its entry in the extraction map has at most
    100 characters, and never otherwise: the fetch of the OCR fallback is
    repeated for every row, not once per location. *)
Theorem PN_Validation_New_refetches (w : World) (so : set_order)
  (pdf_data : gmap str str) (data : table) (u : str) :
  count_events (is_get u) (PN_Validation_New w so pdf_data MPN PDF data).1.1
  = match pdf_data !! u with
    | Some text =>
        if length text <=? 100 then references u (PDF <$> data) else 0
    | None => 0
    end.
Proof.
  rewrite PN_Validation_New_run. cbn [fst snd].
  rewrite <- !list_fmap_compose.
  induction data as [|r data IH].
  - destruct (pdf_data !! u) as [text|]; [|reflexivity].
    destruct (length text <=? 100); reflexivity.
  - cbn [fmap list_fmap concat]. change (list_fmap _ _ ?f ?l) with (f <$> l).
    rewrite count_events_app, IH, references_cons. simpl.
    rewrite SET_DESC_row_gets. cbn [PDF reset_row].
    destruct (pdf_data !! u) as [text|]; [|reflexivity].
    destruct (length text <=? 100); reflexivity.
Qed.

(** ** The whole run *)

Lemma io_bind_run {S A B} (m : io S A) (f : A → io S B) (s s' : S)
  (tr : list event) (x : A) :
  m s = (tr, s', inr x) →
  io_bind m f s = (tr ++ (f x s').1.1, (f x s').1.2, (f x s').2).
Proof. intros H. unfold io_bind. rewrite H. reflexivity. Qed.

Lemma main_validate_run (w : World) (so : set_order) (data : table) :
  ∃ tr pdf_data,
    (∀ u, pdf_data !! u
          = if decide (u ∈ PDF <$> data) then extracted w u else None)
    ∧ main_validate w so data
      = (tr ++ (PN_Validation_New w so pdf_data MPN PDF data).1.1,
         clean_row <$> (PN_Validation_New w so pdf_data MPN PDF data).1.2,
         inr (clean_row <$> (PN_Validation_New w so pdf_data MPN PDF data).1.2)).
Proof.
  destruct (GetPDFText_run w (PDF <$> data) data) as (tr & pdf_data & Hg & Hmap).
  exists tr, pdf_data. split; [exact Hmap|].
  unfold main_validate.
  rewrite (io_bind_run io_get _ data data [] data eq_refl). cbn [app].
  rewrite (io_bind_run _ _ _ _ _ _ Hg).
  rewrite (io_bind_run _ _ _ _ _ _
             (PN_Validation_New_run w so pdf_data MPN PDF data)).
  rewrite PN_Validation_New_run. cbn [fst snd].
  unfold io_bind, io_modify, io_get. cbn [fst snd]. rewrite !app_nil_r.
  reflexivity.
Qed.

Lemma main_validate_row (w : World) (so : set_order) (data : table) :
  ∃ pdf_data,
    (∀ u, pdf_data !! u
          = if decide (u ∈ PDF <$> data) then extracted w u else None)
    ∧ (main_validate w so data).2 = inr (main_validate w so data).1.2
    ∧ ∀ i, (main_validate w so data).1.2 !! i
           = (λ r, clean_row (SET_DESC_row w so pdf_data MPN PDF (reset_row r)).1.2)
               <$> data !! i.
Proof.
  destruct (main_validate_run w so data) as (tr & pdf_data & Hmap & ->).
  exists pdf_data. split; [exact Hmap|]. split; [reflexivity|].
  intros i. cbn [fst snd]. rewrite PN_Validation_New_run. cbn [fst snd].
  rewrite <- !list_fmap_compose, list_lookup_fmap. reflexivity.
Qed.

Lemma printable_clean (s : str) : printable (clean_string s).
Proof. intros c Hc. apply clean_string_elem in Hc. tauto. Qed.

Lemma clean_labels :
  clean_string Exact = Exact
  ∧ clean_string Includes_or_Missed_Suffixes = Includes_or_Missed_Suffixes
  ∧ clean_string Not_Found = Not_Found
  ∧ clean_string May_be_Broken = May_be_Broken.
Proof. repeat split; vm_compute; reflexivity. Qed.

Lemma SET_DESC_row_status (w : World) (so : set_order)
  (pdf_data : gmap str str) (part_col pdf_col : Row → str) (r : Row) :
  STATUS (SET_DESC_row w so pdf_data part_col pdf_col r).1.2
  ∈ [STATUS r; Some Exact; Some Includes_or_Missed_Suffixes; Some Not_Found;
     Some May_be_Broken].
Proof.
  unfold SET_DESC_row. destruct (pdf_data !! pdf_col r) as [text|].
  - destruct (SET_DESC_values w (pdf_col r) text ()) as [[tr []] [e|values]];
      cbn [fst snd]; [left|].
    right. pose proof (checks_row_status so (part_col r) values r) as H.
    rewrite !elem_of_cons in H. rewrite !elem_of_cons. tauto.
  - cbn [fst snd STATUS with_STATUS]. rewrite !elem_of_cons. tauto.
Qed.

(** X13.  The run of [main] from the sheet to the cleaned result never raises
    and returns one row for every row of the sheet.  MPN and PDF are the
    cleaned cells of the sheet, STATUS is unset or one of the four labels
    (the cleaning does not alter a label), and no control character is left
    in EQUIVALENT or SIMILARS. *)
Theorem main_validate_cells (w : World) (so : set_order) (data : table) :
  ∃ result,
    (main_validate w so data).2 = inr result
    ∧ (main_validate w so data).1.2 = result
    ∧ length result = length data
    ∧ ∀ i r, result !! i = Some r →
        (∃ row, data !! i = Some row
                ∧ MPN r = clean_string (MPN row)
                ∧ PDF r = clean_string (PDF row))
        ∧ STATUS r ∈ [None; Some Exact; Some Includes_or_Missed_Suffixes;
                      Some Not_Found; Some May_be_Broken]
        ∧ (∀ s, EQUIVALENT r = Some s → printable s)
        ∧ (∀ s, SIMILARS r = Some s → printable s).
Proof.
  destruct (main_validate_row w so data) as (pdf_data & _ & Hres & Hrow).
  exists (main_validate w so data).1.2. split; [exact Hres|].
  split; [reflexivity|]. split.
  { apply Nat.le_antisymm.
    - apply Nat.nlt_ge. intros Hlt.
      destruct (lookup_lt_is_Some_2 _ _ Hlt) as [r Hr].
      rewrite Hrow in Hr. rewrite lookup_ge_None_2 in Hr by lia. discriminate.
    - apply Nat.nlt_ge. intros Hlt.
      destruct (lookup_lt_is_Some_2 _ _ Hlt) as [r Hr].
      pose proof (Hrow (length (main_validate w so data).1.2)) as H.
      rewrite Hr, lookup_ge_None_2 in H by lia. discriminate. }
  intros i r Hr. rewrite Hrow in Hr.
  destruct (data !! i) as [row|] eqn:Hi; [|discriminate]. simpl in Hr.
  injection Hr as <-.
  destruct (SET_DESC_row_keys w so pdf_data MPN PDF (reset_row row)) as [HM HP].
  pose proof (SET_DESC_row_status w so pdf_data MPN PDF (reset_row row)) as HS.
  destruct clean_labels as (C1 & C2 & C3 & C4).
  split; [|split; [|split]].
  - exists row. split; [reflexivity|]. cbn [clean_row MPN PDF].
    rewrite HM, HP. auto.
  - cbn [clean_row STATUS]. rewrite !elem_of_cons in HS.
    rewrite !elem_of_cons.
    destruct HS as [->|[->|[->|[->|[->|HS]]]]]; simpl;
      rewrite ?C1, ?C2, ?C3, ?C4; try tauto.
    apply elem_of_nil in HS. contradiction.
  - cbn [clean_row EQUIVALENT]. intros s Hs.
    destruct (EQUIVALENT _) as [t|]; [|discriminate]. injection Hs as <-.
    apply printable_clean.
  - cbn [clean_row SIMILARS]. intros s Hs.
    destruct (SIMILARS _) as [t|]; [|discriminate]. injection Hs as <-.
    apply printable_clean.
Qed.

(** X14.  In the run of [main], every row whose location could not be fetched
    or could not be opened as a PDF ends with the status "May be Broken" and
    with EQUIVALENT and SIMILARS unset. *)
Theorem main_validate_unavailable (w : World) (so : set_order) (data : table)
  (index : nat) (row : Row) :
  data !! index = Some row →
  extracted w (PDF row) = None →
  (main_validate w so data).1.2 !! index
  = Some (MkRow (clean_string (MPN row)) (clean_string (PDF row))
            (Some May_be_Broken) None None).
Proof.
  intros Hrow Hex.
  destruct (main_validate_row w so data) as (pdf_data & Hmap & _ & Hr).
  rewrite Hr, Hrow. simpl. unfold SET_DESC_row. cbn [PDF reset_row].
  rewrite Hmap, Hex. destruct (decide _); reflexivity.
Qed.

Lemma main_validate_unavailable_witness :
  (main_validate w_down so_scan [row1 "ABC-123"]).1.2 !! 0
  = Some (MkRow (L "ABC-123") url1 (Some May_be_Broken) None None).
Proof.
  apply (main_validate_unavailable w_down so_scan [row1 "ABC-123"] 0
           (row1 "ABC-123")); reflexivity.
Defined.

(** X15.  In the run of [main], a row whose PDF has a digital text of more than
    100 characters that contains the part number up to case ends with the
    status "Exact"; EQUIVALENT is an occurrence of the part number in that
    text, cleaned of control characters. *)
Theorem main_validate_digital_exact (w : World) (so : set_order) (data : table)
  (index : nat) (row : Row) (text : str) :
  data !! index = Some row →
  extracted w (PDF row) = Some text →
  100 < length text →
  occurs_ci (MPN row) text →
  ∃ pre m post r,
    text = pre ++ m ++ post
    ∧ ci_eq (MPN row) m
    ∧ (main_validate w so data).1.2 !! index = Some r
    ∧ STATUS r = Some Exact
    ∧ EQUIVALENT r = Some (clean_string m).
Proof.
  intros Hrow Hex Hlen Hocc.
  destruct (main_validate_row w so data) as (pdf_data & Hmap & _ & Hr).
  destruct (re_search_lit_occurs _ _ Hocc) as (pre & m & Hs).
  pose proof Hs as Hs'. apply re_search_lit_Some in Hs' as (post & Htext & Hm & _).
  exists pre, m, post. eexists. split; [exact Htext|]. split; [exact Hm|].
  rewrite Hr, Hrow. simpl. unfold SET_DESC_row. cbn [PDF MPN reset_row].
  rewrite Hmap, Hex.
  rewrite decide_True by (apply list_elem_of_fmap; exists row; split;
                          [reflexivity|eapply list_elem_of_lookup_2; eassumption]).
  rewrite (SET_DESC_values_long _ _ _ Hlen). cbn [fst snd].
  unfold checks_row. rewrite Hs. cbn [snd].
  split; [reflexivity|]. split; reflexivity.
Qed.

Lemma main_validate_digital_exact_witness :
  ∃ pre m post r,
    datasheet = pre ++ m ++ post
    ∧ ci_eq (L "abc-123") m
    ∧ (main_validate (w_digital datasheet) so_scan [row1 "abc-123"]).1.2 !! 0
      = Some r
    ∧ STATUS r = Some Exact
    ∧ EQUIVALENT r = Some (clean_string m).
Proof.
  apply (main_validate_digital_exact (w_digital datasheet) so_scan
           [row1 "abc-123"] 0 (row1 "abc-123") datasheet).
  - reflexivity.
  - reflexivity.
  - vm_compute. lia.
  - exists (L "Order code "), (L "ABC-123"),
      ([ascii_of_nat 9] ++ L "rev. 2" ++ replicate 100 "."%char).
    split; [reflexivity|]. repeat constructor.
Defined.

(** ** The matcher finds every match *)

Lemma match_here_complete (rs : regex) prev (t rest : str) :
  re_matches rs prev t rest →
  ∃ n, match_here rs false prev (t ++ rest) = Some n.
Proof.
  induction 1 as [prev rest|p c rs prev t rest Hpc Hm [n IH]
                  |w rs prev t rest Hw Hm [n IH]
                  |rs prev t rest Hb Hm [n IH]].
  - exists 0. reflexivity.
  - exists (S n). simpl. rewrite Hpc, IH. reflexivity.
  - cbn [match_here]. rewrite <- app_assoc.
    revert prev Hm IH. induction Hw as [|c w Hc Hw IHw]; intros prev Hm IH.
    + rewrite last_or_nil in IH. cbn [app].
      destruct (t ++ rest) as [|c s] eqn:E; [eauto|].
      destruct (is_word c); [|eauto].
      match goal with
      | |- context [match ?f false (Some c) s with _ => _ end] =>
          destruct (f false (Some c) s) as [k|]
      end; eauto.
    + cbn [app]. rewrite Hc. rewrite last_or_cons in Hm, IH.
      destruct (IHw _ Hm IH) as [k Hk]. rewrite Hk. eauto.
  - exists n. simpl. rewrite Hb. exact IH.
Qed.

Lemma re_findall_from_nil (rs : regex) prev (s s1 s2 : str) :
  re_findall_from rs prev s 0 = [] →
  s = s1 ++ s2 →
  match_here rs false (last_or prev s1) s2 = None.
Proof.
  revert prev s. induction s1 as [|c s1 IH]; intros prev s Hnil ->.
  - rewrite last_or_nil. cbn [app] in Hnil.
    destruct s2 as [|c s2]; cbn [re_findall_from] in Hnil;
      destruct (match_here rs false prev _) as [[|n]|]; try discriminate;
      reflexivity.
  - rewrite last_or_cons. apply (IH (Some c) (s1 ++ s2)); [|reflexivity].
    cbn [app re_findall_from] in Hnil.
    destruct (match_here rs false prev (c :: s1 ++ s2)) as [[|n]|];
      try discriminate. exact Hnil.
Qed.

Lemma re_findall_complete (rs : regex) (pre t post : str) :
  re_matches rs (last pre) t post → re_findall rs (pre ++ t ++ post) ≠ [].
Proof.
  intros Hm Hnil. destruct (match_here_complete _ _ _ _ Hm) as [n Hn].
  pose proof (re_findall_from_nil rs None _ pre (t ++ post) Hnil eq_refl) as H.
  unfold last_or in H. destruct (last pre); congruence.
Qed.

(** ** The whole tokens are the matches of the pattern of SIMILARS *)

Lemma re_matches_escape (part m : str) (rs : regex) prev (t rest : str) :
  ci_eq part m →
  re_matches rs (last_or prev m) t rest →
  re_matches (re_escape part ++ rs) prev (m ++ t) rest.
Proof.
  intros Hci. revert prev. induction Hci as [|p c part m Hpc Hci IH];
    intros prev Hm.
  - exact Hm.
  - cbn [re_escape map app]. constructor; [exact Hpc|].
    apply IH. rewrite last_or_cons in Hm. exact Hm.
Qed.

Lemma whole_token_matches (part values t : str) :
  whole_token part values t →
  ∃ pre post, values = pre ++ t ++ post
              ∧ re_matches (similar_pattern part) (last pre) t post.
Proof.
  intros (pre & post & w1 & m & w2 & Hv & Ht & Hw1 & Hci & Hw2 & Hb1 & Hb2).
  exists pre, post. split; [exact Hv|].
  unfold similar_pattern. cbn [app]. constructor; [exact Hb1|].
  rewrite Ht. constructor; [exact Hw1|].
  apply re_matches_escape; [exact Hci|].
  rewrite <- (app_nil_r w2). constructor; [exact Hw2|].
  constructor; [|constructor].
  cbn [app]. rewrite <- !last_or_app, <- last_or_last, <- Ht. exact Hb2.
Qed.

(** X16.  [re.findall] with the pattern of SIMILARS returns no match exactly
    when the text has no stretch between two word boundaries that is the
    part number, up to case, with word characters around it: the scan
    misses no such stretch. *)
Theorem re_findall_similar_none_iff (part values : str) :
  re_findall (similar_pattern part) values = []
  ↔ ¬ ∃ t, whole_token part values t.
Proof.
  split.
  - intros Hnil [t Ht].
    destruct (whole_token_matches _ _ _ Ht) as (pre & post & -> & Hm).
    exact (re_findall_complete _ _ _ _ Hm Hnil).
  - intros Hno. destruct (re_findall (similar_pattern part) values) as [|t l] eqn:E;
      [reflexivity|].
    exfalso. apply Hno. exists t. apply re_findall_whole_token.
    rewrite E. left.
Qed.

(** ** Identifiers made of word characters *)

Lemma code_inj (c d : ascii) : code c = code d → c = d.
Proof.
  unfold code. intros H. rewrite <- (ascii_nat_embedding c), H.
  apply ascii_nat_embedding.
Qed.

Lemma lower_word (c : ascii) : is_word (lower c) = is_word c.
Proof. destruct c as [[] [] [] [] [] [] [] []]; reflexivity. Qed.

Lemma space_not_word (c : ascii) : is_space c = true → is_word c = false.
Proof. destruct c as [[] [] [] [] [] [] [] []]; intros H; try discriminate H; reflexivity. Qed.

Lemma ci_eqb_word (p c : ascii) : ci_eqb p c = true → is_word c = is_word p.
Proof.
  unfold ci_eqb. intros H. apply Nat.eqb_eq, code_inj in H.
  rewrite <- (lower_word c), <- (lower_word p), H. reflexivity.
Qed.

Lemma ci_eq_word (part m : str) :
  ci_eq part m →
  Forall (λ c, is_word c = true) part → Forall (λ c, is_word c = true) m.
Proof.
  induction 1 as [|p c part m Hpc Hci IH]; [constructor|].
  intros Hw. apply Forall_cons in Hw as [Hp Hw].
  constructor; [|apply IH; exact Hw].
  rewrite (ci_eqb_word _ _ Hpc). exact Hp.
Qed.

Lemma word_suffix (pre : str) :
  ∃ pre0 w1, pre = pre0 ++ w1
             ∧ Forall (λ c, is_word c = true) w1
             ∧ word_opt (last pre0) = false.
Proof.
  induction pre as [|c pre IH] using rev_ind.
  - exists [], []. auto.
  - destruct (is_word c) eqn:Hc.
    + destruct IH as (pre0 & w1 & -> & Hw & Hl).
      exists pre0, (w1 ++ [c]). rewrite app_assoc. split; [reflexivity|].
      split; [|exact Hl]. apply Forall_app. split; [exact Hw|].
      constructor; [exact Hc|constructor].
    + exists (pre ++ [c]), []. rewrite app_nil_r. split; [reflexivity|].
      split; [constructor|]. rewrite last_snoc. exact Hc.
Qed.

Lemma word_prefix (post : str) :
  ∃ w2 post0, post = w2 ++ post0
              ∧ Forall (λ c, is_word c = true) w2
              ∧ word_opt (head post0) = false.
Proof.
  induction post as [|c post IH].
  - exists [], []. auto.
  - destruct (is_word c) eqn:Hc.
    + destruct IH as (w2 & post0 & -> & Hw & Hh).
      exists (c :: w2), post0. split; [reflexivity|].
      split; [constructor; assumption|exact Hh].
    + exists [], (c :: post). split; [reflexivity|].
      split; [constructor|exact Hc].
Qed.

Lemma word_head (t rest : str) :
  t ≠ [] → Forall (λ c, is_word c = true) t →
  word_opt (head (t ++ rest)) = true.
Proof.
  destruct t as [|c t]; [congruence|]. intros _ Hw.
  apply Forall_cons in Hw as [Hc _]. exact Hc.
Qed.

Lemma word_last (pre t : str) :
  t ≠ [] → Forall (λ c, is_word c = true) t →
  word_opt (last (pre ++ t)) = true.
Proof.
  induction t as [|c t _] using rev_ind; [congruence|]. intros _ Hw.
  apply Forall_app in Hw as [_ Hc]. apply Forall_cons in Hc as [Hc _].
  rewrite app_assoc, last_snoc. exact Hc.
Qed.

Lemma word_identifier_token (part values : str) :
  part ≠ [] →
  Forall (λ c, is_word c = true) part →
  occurs_ci part values →
  ∃ t, whole_token part values t.
Proof.
  intros Hne Hword (pre & m & post & -> & Hci).
  destruct (word_suffix pre) as (pre0 & w1 & -> & Hw1 & Hl).
  destruct (word_prefix post) as (w2 & post0 & -> & Hw2 & Hh).
  pose proof (ci_eq_word _ _ Hci Hword) as Hm.
  assert (Hmne : m ≠ []).
  { intros ->. apply ci_eq_length in Hci. destruct part; [congruence|].
    discriminate. }
  assert (Ht : Forall (λ c, is_word c = true) (w1 ++ m ++ w2)).
  { rewrite !Forall_app. auto. }
  assert (Htne : w1 ++ m ++ w2 ≠ []).
  { intros H. apply app_eq_nil in H as [_ H]. apply app_eq_nil in H as [H _].
    contradiction. }
  exists (w1 ++ m ++ w2), pre0, post0, w1, m, w2.
  split; [rewrite <- !app_assoc; reflexivity|].
  split; [reflexivity|]. split; [exact Hw1|]. split; [exact Hci|].
  split; [exact Hw2|]. unfold boundary. split.
  - rewrite Hl, (word_head _ _ Htne Ht). reflexivity.
  - rewrite Hh, (word_last _ _ Htne Ht). reflexivity.
Qed.

Lemma strip_word (t : str) : Forall (λ c, is_word c = true) t → strip t = t.
Proof.
  intros Hw. unfold strip.
  assert (Hl : ∀ u : str, Forall (λ c, is_word c = true) u → lstrip u = u).
  { intros [|c u] Hu; [reflexivity|]. simpl.
    apply Forall_cons in Hu as [Hc _].
    destruct (is_space c) eqn:Hs; [|reflexivity].
    apply space_not_word in Hs. congruence. }
  rewrite (Hl t Hw). unfold rstrip. rewrite Hl; [apply rev_involutive|].
  apply List.Forall_rev. exact Hw.
Qed.

Lemma whole_token_word (part values t : str) :
  Forall (λ c, is_word c = true) part →
  whole_token part values t → Forall (λ c, is_word c = true) t.
Proof.
  intros Hword (pre & post & w1 & m & w2 & _ & -> & Hw1 & Hci & Hw2 & _).
  rewrite !Forall_app. split; [exact Hw1|]. split; [|exact Hw2].
  exact (ci_eq_word _ _ Hci Hword).
Qed.

(** X17.  For a non-empty part number made of word characters only, "Exact"
    always comes with SIMILARS: the checks write at least one member, the
    members are the distinct matches of [re.findall] as they are (stripping
    changes nothing), and each member is a run of word characters between
    two word boundaries of the text that contains the part number up to
    case. *)
Theorem similars_of_word_identifier (so : set_order) (part values : str)
  (index : nat) (data : table) (row : Row) :
  data !! index = Some row →
  part ≠ [] →
  Forall (λ c, is_word c = true) part →
  occurs_ci part values →
  ∃ row' members,
    SET_DESC_checks so part values index data
      = ([], <[index := row']> data, inr ())
    ∧ STATUS row' = Some Exact
    ∧ SIMILARS row' = Some (join (L "|") members)
    ∧ members ≠ []
    ∧ NoDup members
    ∧ (∀ x, x ∈ members ↔ x ∈ re_findall (similar_pattern part) values)
    ∧ ∀ x, x ∈ members →
        whole_token part values x ∧ Forall (λ c, is_word c = true) x.
Proof.
  intros Hrow Hne Hword Hocc.
  destruct (re_search_lit_occurs _ _ Hocc) as (pre & m & Hs).
  rewrite (checks_exact so part values index data row pre m Hrow Hs).
  destruct (word_identifier_token _ _ Hne Hword Hocc) as [t0 Ht0].
  assert (Hfind : re_findall (similar_pattern part) values ≠ []).
  { intros Hnil. destruct (whole_token_matches _ _ _ Ht0) as (p & q & -> & Hm).
    exact (re_findall_complete _ _ _ _ Hm Hnil). }
  assert (Hstrip : strip <$> re_findall (similar_pattern part) values
                   = re_findall (similar_pattern part) values).
  { rewrite <- (list_fmap_id (re_findall _ _)) at 2.
    apply list_fmap_ext. intros i x Hx. apply strip_word.
    apply (whole_token_word part values); [exact Hword|].
    apply re_findall_whole_token. eapply list_elem_of_lookup_2. exact Hx. }
  eexists _, (set_iter so (re_findall (similar_pattern part) values)).
  split; [reflexivity|]. split; [reflexivity|].
  split.
  { cbn [SIMILARS]. unfold exact_similars. rewrite Hstrip.
    destruct (re_findall (similar_pattern part) values); [congruence|].
    reflexivity. }
  split.
  { intros Hnil. destruct (re_findall (similar_pattern part) values) as [|x l] eqn:E;
      [congruence|].
    assert (Hx : x ∈ set_iter so (x :: l)) by (apply set_iter_elem; left).
    rewrite Hnil in Hx. inversion Hx. }
  split; [apply set_iter_NoDup|].
  split; [intros x; apply set_iter_elem|].
  intros x Hx. apply set_iter_elem in Hx.
  pose proof (re_findall_whole_token _ _ _ Hx) as Hwt.
  split; [exact Hwt|]. exact (whole_token_word _ _ _ Hword Hwt).
Qed.

Lemma similars_of_word_identifier_witness :
  ∃ row' members,
    SET_DESC_checks so_scan (L "ABC123") (L "see ABC123X, abc123 (new)") 0
      [row1 "ABC123"]
      = ([], <[0 := row']> [row1 "ABC123"], inr ())
    ∧ STATUS row' = Some Exact
    ∧ SIMILARS row' = Some (join (L "|") members)
    ∧ members ≠ []
    ∧ NoDup members
    ∧ (∀ x, x ∈ members
            ↔ x ∈ re_findall (similar_pattern (L "ABC123"))
                    (L "see ABC123X, abc123 (new)"))
    ∧ ∀ x, x ∈ members →
        whole_token (L "ABC123") (L "see ABC123X, abc123 (new)") x
        ∧ Forall (λ c, is_word c = true) x.
Proof.
  apply (similars_of_word_identifier so_scan (L "ABC123")
           (L "see ABC123X, abc123 (new)") 0 [row1 "ABC123"] (row1 "ABC123")).
  - reflexivity.
  - discriminate.
  - repeat constructor.
  - exists (L "see "), (L "ABC123"), (L "X, abc123 (new)").
    split; [reflexivity|]. repeat constructor.
Defined.

(** ** The range of the scores *)

Lemma calculate_ratio_nonneg (m len : nat) : (0 <= calculate_ratio m len)%Q.
Proof.
  unfold calculate_ratio. destruct (len =? 0); [discriminate|].
  unfold Qle. simpl. lia.
Qed.

Lemma calculate_ratio_le_1 (m len : nat) :
  2 * m ≤ len → (calculate_ratio m len <= 1)%Q.
Proof.
  intros H. unfold calculate_ratio. destruct (Nat.eqb_spec len 0) as [->|Hne].
  - apply Qle_refl.
  - unfold Qle. cbn [Qnum Qden]. rewrite Z.mul_1_r, Z.mul_1_l.
    rewrite <- (Nat2Pos.id len Hne) in H at 1.
    rewrite <- positive_nat_Z. lia.
Qed.

Lemma calculate_ratio_cutoff (m len : nat) :
  (cutoff <= calculate_ratio m len)%Q → 13 * len ≤ 40 * m.
Proof.
  unfold calculate_ratio, cutoff. destruct (Nat.eqb_spec len 0) as [->|Hne].
  - lia.
  - unfold Qle. cbn [Qnum Qden].
    rewrite <- (Nat2Pos.id len Hne) at 2.
    rewrite <- positive_nat_Z. lia.
Qed.

(** X19.  The similarity ratio lies between 0 and 1, and [quick_ratio] and
    [real_quick_ratio] are upper bounds of it, in this order.  Hence the two
    cheap tests of [get_close_matches] reject no token that the ratio would
    accept: a token passes the three tests exactly when its ratio reaches
    the cutoff. *)
Theorem ratio_bounds (a b : str) :
  (0 <= ratio a b)%Q
  ∧ (ratio a b <= quick_ratio a b)%Q
  ∧ (quick_ratio a b <= real_quick_ratio a b)%Q
  ∧ (real_quick_ratio a b <= 1)%Q
  ∧ ∀ c : Q, passes c b a = true ↔ (c <= ratio a b)%Q.
Proof.
  split; [apply calculate_ratio_nonneg|].
  split; [apply ratio_le_quick_ratio|].
  split; [apply quick_ratio_le_real_quick_ratio|].
  split; [apply calculate_ratio_le_1; lia|].
  intros c. apply passes_iff.
Qed.

(** X20.  A token that [get_close_matches] returns with the cutoff 0.65 is one
    of the tokens, shares (counted with multiplicity) at least 13/40 of the
    characters of the token and the part number together, and its length
    is between 13/27 and 27/13 of the length of the part number. *)
Theorem close_match_is_comparable (part : str) (tokens : list str) (t : str) :
  t ∈ get_close_matches part tokens cutoff →
  t ∈ tokens
  ∧ 13 * (length t + length part) ≤ 40 * size (chars t ∩ chars part)
  ∧ 13 * length t ≤ 27 * length part
  ∧ 13 * length part ≤ 27 * length t.
Proof.
  intros Hin.
  pose proof (get_close_matches_spec part tokens cutoff) as Hg.
  destruct (get_close_matches part tokens cutoff) as [|t' rest];
    [inversion Hin|].
  destruct Hg as (-> & Ht & Hc & _).
  apply list_elem_of_singleton in Hin as ->.
  split; [exact Ht|].
  assert (Hq : (cutoff <= quick_ratio t' part)%Q).
  { eapply Qle_trans; [exact Hc|apply ratio_le_quick_ratio]. }
  apply calculate_ratio_cutoff in Hq. rewrite quick_matches_spec in Hq.
  split; [exact Hq|].
  pose proof (quick_matches_le_min t' part) as Hmin.
  rewrite quick_matches_spec in Hmin. lia.
Qed.

Lemma close_match_is_comparable_witness :
  L "ABC123X" ∈ L <$> ["Order"; "code"; "ABC123X"]
  ∧ 13 * (length (L "ABC123X") + length (L "ABC-123"))
    ≤ 40 * size (chars (L "ABC123X") ∩ chars (L "ABC-123"))
  ∧ 13 * length (L "ABC123X") ≤ 27 * length (L "ABC-123")
  ∧ 13 * length (L "ABC-123") ≤ 27 * length (L "ABC123X").
Proof.
  apply (close_match_is_comparable (L "ABC-123")
           (L <$> ["Order"; "code"; "ABC123X"]) (L "ABC123X")).
  vm_compute. left.
Defined.

(** ** The best token does not depend on the order of the tokens *)

Lemma str_ltb_antisym (s t : str) :
  str_ltb s t = false → str_ltb t s = false → s = t.
Proof.
  revert t. induction s as [|c s IH]; intros [|d t]; simpl; try congruence.
  destruct (Nat.ltb_spec (code c) (code d)), (Nat.ltb_spec (code d) (code c));
    try congruence; try lia.
  intros H1 H2. f_equal; [apply code_inj; lia|apply IH; assumption].
Qed.

(** X21.  The result of [get_close_matches] depends only on which tokens there
    are, not on their order or on how often they come: two lists with the
    same members give the same result. *)
Theorem get_close_matches_order_free (word : str) (l1 l2 : list str) (c : Q) :
  (∀ x, x ∈ l1 ↔ x ∈ l2) →
  get_close_matches word l1 c = get_close_matches word l2 c.
Proof.
  intros Hsame.
  pose proof (get_close_matches_spec word l1 c) as H1.
  pose proof (get_close_matches_spec word l2 c) as H2.
  destruct (get_close_matches word l1 c) as [|t1 r1],
    (get_close_matches word l2 c) as [|t2 r2].
  - reflexivity.
  - destruct H2 as (_ & Ht & Hc & _). apply Hsame in Ht.
    destruct (H1 _ Ht Hc).
  - destruct H1 as (_ & Ht & Hc & _). apply Hsame in Ht.
    destruct (H2 _ Ht Hc).
  - destruct H1 as (-> & Ht1 & _ & Hm1), H2 as (-> & Ht2 & _ & Hm2).
    apply Hsame in Ht1 as Ht1'. apply Hsame in Ht2 as Ht2'.
    destruct (Hm1 _ Ht2') as [Hle21 Htie1], (Hm2 _ Ht1') as [Hle12 Htie2].
    assert (Heq : (ratio t2 word == ratio t1 word)%Q)
      by (apply Qle_antisym; assumption).
    f_equal. apply str_ltb_antisym; [apply Htie1; exact Heq|].
    apply Htie2. symmetry. exact Heq.
Qed.

Lemma get_close_matches_order_free_witness :
  get_close_matches (L "ABCD") (L <$> ["ABCX"; "ABCY"]) cutoff
  = get_close_matches (L "ABCD") (L <$> ["ABCY"; "ABCX"; "ABCY"]) cutoff.
Proof.
  apply (get_close_matches_order_free (L "ABCD") (L <$> ["ABCX"; "ABCY"])
           (L <$> ["ABCY"; "ABCX"; "ABCY"]) cutoff).
  intros x. cbn [fmap list_fmap]. rewrite !elem_of_cons, !elem_of_nil. tauto.
Defined.

(** ** The matching blocks are common substrings *)

Lemma valid_block_widen (a b : str) (alo ahi blo bhi : nat)
  (blk : nat * nat * nat) :
  valid_region a b alo ahi blo bhi →
  valid_block a b alo ahi blo bhi blk →
  valid_block a b 0 (length a) 0 (length b) blk.
Proof.
  intros (R1 & R2 & R3 & R4) (H1 & H2 & H3 & H4 & H5).
  repeat split; try lia. exact H5.
Qed.

Lemma gmb_loop_valid (a b : str) (fuel : nat)
  (queue : list (nat * nat * nat * nat)) (blocks : list (nat * nat * nat)) :
  Forall (region_ok a b) queue →
  Forall (valid_block a b 0 (length a) 0 (length b)) blocks →
  Forall (valid_block a b 0 (length a) 0 (length b))
    (gmb_loop a b (chain_b b) fuel queue blocks).
Proof.
  revert queue blocks. induction fuel as [|fuel IH]; intros queue blocks HQ HB.
  - exact HB.
  - destruct queue as [|[[[alo ahi] blo] bhi] queue]; [exact HB|].
    cbn [gmb_loop]. inversion HQ as [|r q HR HQ']; subst.
    pose proof (find_longest_match_valid a b alo ahi blo bhi HR) as HV.
    pose proof (valid_block_widen _ _ _ _ _ _ _ HR HV) as HW.
    destruct (find_longest_match a b (chain_b b) alo ahi blo bhi)
      as [[i j] k] eqn:Ef.
    destruct (Nat.eqb_spec k 0) as [->|Hk].
    + apply IH; assumption.
    + destruct HR as (R1 & R2 & R3 & R4), HV as (H1 & H2 & H3 & H4 & H5).
      cbn [fst snd] in *.
      apply IH.
      * destruct ((i + k <? ahi) && (j + k <? bhi)),
          ((alo <? i) && (blo <? j)); repeat constructor;
          cbn [fst snd]; try lia; assumption.
      * apply Forall_app. split; [exact HB|].
        constructor; [exact HW|constructor].
Qed.

Lemma gmb_collapse_valid (a b : str) (i1 j1 k1 : nat)
  (blocks : list (nat * nat * nat)) :
  valid_block a b 0 (length a) 0 (length b) (i1, j1, k1) →
  Forall (valid_block a b 0 (length a) 0 (length b)) blocks →
  Forall (valid_block a b 0 (length a) 0 (length b))
    (gmb_collapse i1 j1 k1 blocks).
Proof.
  revert i1 j1 k1. induction blocks as [|[[i2 j2] k2] blocks IH];
    intros i1 j1 k1 H1 HB; cbn [gmb_collapse].
  - destruct (k1 =? 0); [constructor|constructor; [exact H1|constructor]].
  - apply Forall_cons in HB as [H2 HB].
    destruct (Nat.eqb_spec (i1 + k1) i2) as [Ei|Ei];
      destruct (Nat.eqb_spec (j1 + k1) j2) as [Ej|Ej]; cbn [andb];
      try (apply Forall_app; split;
           [destruct (k1 =? 0); [constructor|constructor; [exact H1|constructor]]
           |apply IH; assumption]).
    apply IH; [|exact HB].
    destruct H1 as (A1 & A2 & A3 & A4 & A5), H2 as (B1 & B2 & B3 & B4 & B5).
    cbn [fst snd] in *. repeat split; cbn [fst snd]; try lia.
    intros d Hd. destruct (Nat.lt_ge_cases d k1) as [Hlt|Hge].
    + apply A5. exact Hlt.
    + replace (i1 + d) with (i2 + (d - k1)) by lia.
      replace (j1 + d) with (j2 + (d - k1)) by lia.
      apply B5. lia.
Qed.

(** X22.  [get_matching_blocks] ends with the sentinel [(len(a), len(b), 0)];
    every block [(i, j, k)] it returns lies inside the two strings and is a
    common substring, [a[i:i+k] == b[j:j+k]]; and the blocks together have
    at most half as many characters as the two strings. *)
Theorem get_matching_blocks_valid (a b : str) :
  last (get_matching_blocks a b) = Some (length a, length b, 0)
  ∧ (∀ i j k, (i, j, k) ∈ get_matching_blocks a b →
       i + k ≤ length a ∧ j + k ≤ length b
       ∧ take k (drop i a) = take k (drop j b))
  ∧ 2 * sizes (get_matching_blocks a b) ≤ length a + length b.
Proof.
  split; [apply last_snoc|]. split.
  - intros i j k Hin.
    assert (HV : Forall (valid_block a b 0 (length a) 0 (length b))
                   (get_matching_blocks a b)).
    { unfold get_matching_blocks. cbv zeta. apply Forall_app. split.
      - apply gmb_collapse_valid.
        + repeat split; cbn [fst snd]; try lia.
        + rewrite merge_sort_Permutation. apply gmb_loop_valid.
          * repeat constructor; cbn [fst snd]; lia.
          * constructor.
      - constructor; [|constructor]. repeat split; cbn [fst snd]; lia. }
    rewrite Forall_forall in HV. specialize (HV _ Hin).
    pose proof HV as (V1 & V2 & V3 & V4 & V5). cbn [fst snd] in *.
    split; [exact V2|]. split; [exact V4|].
    assert (HR : valid_region a b 0 (length a) 0 (length b))
      by (repeat split; lia).
    pose proof (block_slices a b _ _ _ _ i j k HR HV) as Hs.
    unfold slice in Hs. replace (i + k - i) with k in Hs by lia.
    replace (j + k - j) with k in Hs by lia. exact Hs.
  - pose proof (matches_le_quick a b) as H1.
    pose proof (quick_matches_le_min a b) as H2. lia.
Qed.

(** ** The rows shown in black *)



